(** * ChatTrain security pipeline: rate limiter, masker, validator, orchestrator

    A shallow embedding of
      backend/app/security/rate_limiter.py
      backend/app/security/masking.py
      backend/app/security/validator.py
      backend/app/secure_websocket.py
    together with the properties the specification states about them.

    Conventions of the embedding.
    - Python floats (token counts, clock readings) are exact rationals [Q].
      The code computes in binary64 and rounds; the rationals do not.  The
      statements are therefore about what rounding leaves alone: bounds,
      the order of values, whole numbers of tokens reached in whole steps,
      and the equality of two results of the same computation.  Nothing is
      stated that needs two different computations to agree to the last
      digit.
    - [time.time()] is an input: every operation takes the clock reading(s)
      it makes as arguments.  [check_rate_limit] reads the clock itself and,
      when a sweep is due, [_cleanup_old_entries] reads it a second time;
      the two readings are separate arguments.
    - [datetime.utcnow().isoformat()] stamps and logger calls carry no state
      and are left out of the records.
    - dictionaries are stdpp [gmap]s; a [defaultdict] lookup that creates a
      missing entry is written out where the source relies on it. *)

From Stdlib Require Import QArith Lqa Ascii String.
From stdpp Require Import gmap strings.

(** ** Rate limiter (rate_limiter.py) *)

Module RateLimit.

Local Open Scope Q_scope.

(** A token bucket: [{"tokens": float, "last_refill": float}]. *)
Record Bucket := mkBucket { tokens : Q; last_refill : Q }.

(** One entry of [request_history[user_id]]. *)
Record HistoryEntry := mkEntry {
  h_endpoint : string;
  h_timestamp : Q;
  h_allowed : bool }.

(** The instance attributes of [RateLimiter].  [endpoint_limits] is
    computed from [requests_per_minute] in [__init__] and never written
    again; it is the function [endpoint_limits] below, and
    [cleanup_interval] is a constant. *)
Record RateLimiter := mkLimiter {
  requests_per_minute : Z;
  burst_allowance : Z;
  buckets : gmap string (gmap string Bucket);
  request_history : gmap string (list HistoryEntry);
  last_cleanup : Q }.

(** [self.cleanup_interval = 300], set in [__init__] and never written again. *)
Definition cleanup_interval : Q := 300.

(** [rate_limit_info]: the dictionary built on every check. [reset_time] is
    [None] for the string "Not applicable". *)
Record RateLimitInfo := mkInfo {
  i_user_id : string;
  i_endpoint : string;
  i_limit : Z;
  i_tokens_remaining : Q;
  i_reset_time : option Q }.

(** [RateLimitExceeded(error_msg)]: the message is formatted from the user,
    the endpoint, [info['limit']] and [info['reset_time']]. *)
Record RateLimitExceeded := mkExceeded {
  x_user_id : string;
  x_endpoint : string;
  x_limit : Z;
  x_reset_time : option Q }.

(** What a call of [check_rate_limit] does: return a tuple or raise. *)
Inductive CheckResult :=
| Returns (allowed : bool) (info : RateLimitInfo)
| Raises (e : RateLimitExceeded).

(** [__init__]: [int(os.getenv(...))] values are the two parameters, [now]
    is the clock reading stored in [last_cleanup]. *)
Definition init (rpm burst : Z) (now : Q) : RateLimiter :=
  {| requests_per_minute := rpm;
     burst_allowance := burst;
     buckets := ∅;
     request_history := ∅;
     last_cleanup := now |}.

(** The table [self.endpoint_limits]. *)
Definition endpoint_limits (rpm : Z) : gmap string Z :=
  <["websocket_message" := rpm]>
  (<["api_request" := (rpm * 2)%Z]>
  (<["login" := 10%Z]>
  (<["feedback" := (rpm `div` 2)%Z]> ∅))).

(** [self.endpoint_limits.get(endpoint, self.requests_per_minute)] *)
Definition get_limit (rl : RateLimiter) (endpoint : string) : Z :=
  default (requests_per_minute rl)
          (endpoint_limits (requests_per_minute rl) !! endpoint).

(** Python's [min(a, b)]: [b] when [b < a], else [a]. *)
Definition py_min (a b : Q) : Q := if Qlt_le_dec b a then b else a.

(** [tokens_to_add = (time_elapsed / 60.0) * limit] *)
Definition tokens_to_add (time_elapsed : Q) (limit : Z) : Q :=
  (time_elapsed / 60) * inject_Z limit.

Definition _refill_bucket (rl : RateLimiter) (bucket : Bucket) (limit : Z)
    (current_time : Q) : Bucket :=
  let time_elapsed := current_time - last_refill bucket in
  let max_tokens := inject_Z (limit + burst_allowance rl) in
  {| tokens := py_min max_tokens (tokens bucket + tokens_to_add time_elapsed limit);
     last_refill := current_time |}.

(** [_get_reset_time] divides by [requests_per_minute].  At zero the code
    raises [ZeroDivisionError] for a bucket with less than one token; the
    quotient below is then 0 and stands for nothing in the code. *)
Definition _get_reset_time (rl : RateLimiter) (bucket : Bucket)
    (current_time : Q) : option Q :=
  if Qle_bool 1 (tokens bucket) then None
  else Some (current_time + 60 / inject_Z (requests_per_minute rl)).

Definition _format_rate_limit_error (user_id endpoint : string)
    (info : RateLimitInfo) : RateLimitExceeded :=
  {| x_user_id := user_id; x_endpoint := endpoint;
     x_limit := i_limit info; x_reset_time := i_reset_time info |}.

(** [entry["timestamp"] > cutoff_time] *)
Definition newer_than (cutoff : Q) (e : HistoryEntry) : bool :=
  negb (Qle_bool (h_timestamp e) cutoff).

Definition _log_request (rl : RateLimiter) (user_id endpoint : string)
    (timestamp : Q) (allowed : bool) : RateLimiter :=
  let cutoff_time := timestamp - 3600 in
  let kept := List.filter (newer_than cutoff_time)
                (default [] (request_history rl !! user_id)) in
  {| requests_per_minute := requests_per_minute rl;
     burst_allowance := burst_allowance rl;
     buckets := buckets rl;
     request_history :=
       <[user_id := kept ++ [mkEntry endpoint timestamp allowed]]>
         (request_history rl);
     last_cleanup := last_cleanup rl |}.

(** The per-user steps of [_cleanup_old_entries]. *)
Definition sweep_history (cutoff : Q) (h : list HistoryEntry)
    : option (list HistoryEntry) :=
  match List.filter (newer_than cutoff) h with
  | [] => None
  | h' => Some h'
  end.

(** [current_time - bucket["last_refill"] > 3600] *)
Definition stale (now : Q) (b : Bucket) : bool :=
  negb (Qle_bool (now - last_refill b) 3600).

Definition sweep_buckets (now : Q) (ub : gmap string Bucket)
    : option (gmap string Bucket) :=
  let ub' := omap (λ b, if stale now b then None else Some b) ub in
  if decide (ub' = ∅) then None else Some ub'.

(** [_cleanup_old_entries], with its own clock reading [now]. *)
Definition _cleanup_old_entries (rl : RateLimiter) (now : Q) : RateLimiter :=
  let cutoff_time := now - 3600 in
  {| requests_per_minute := requests_per_minute rl;
     burst_allowance := burst_allowance rl;
     buckets := omap (sweep_buckets now) (buckets rl);
     request_history := omap (sweep_history cutoff_time) (request_history rl);
     last_cleanup := last_cleanup rl |}.

Definition set_last_cleanup (rl : RateLimiter) (t : Q) : RateLimiter :=
  {| requests_per_minute := requests_per_minute rl;
     burst_allowance := burst_allowance rl;
     buckets := buckets rl;
     request_history := request_history rl;
     last_cleanup := t |}.

Definition set_bucket (rl : RateLimiter) (user_id endpoint : string)
    (b : Bucket) : RateLimiter :=
  {| requests_per_minute := requests_per_minute rl;
     burst_allowance := burst_allowance rl;
     buckets :=
       <[user_id := <[endpoint := b]> (default ∅ (buckets rl !! user_id))]>
         (buckets rl);
     request_history := request_history rl;
     last_cleanup := last_cleanup rl |}.

(** [current_time - self.last_cleanup > self.cleanup_interval] *)
Definition sweep_due (rl : RateLimiter) (current_time : Q) : bool :=
  negb (Qle_bool (current_time - last_cleanup rl) cleanup_interval).

Definition maybe_cleanup (rl : RateLimiter) (current_time sweep_time : Q)
    : RateLimiter :=
  if sweep_due rl current_time
  then set_last_cleanup (_cleanup_old_entries rl sweep_time) current_time
  else rl.

(** The bucket of [(user_id, endpoint)], created full when missing. *)
Definition bucket_or_new (rl : RateLimiter) (user_id endpoint : string)
    (limit : Z) (current_time : Q) : Bucket :=
  default (mkBucket (inject_Z limit) current_time)
          (default ∅ (buckets rl !! user_id) !! endpoint).

Definition check_rate_limit (rl : RateLimiter) (current_time sweep_time : Q)
    (user_id endpoint : string) : RateLimiter * CheckResult :=
  let rl := maybe_cleanup rl current_time sweep_time in
  let limit := get_limit rl endpoint in
  let bucket :=
    _refill_bucket rl (bucket_or_new rl user_id endpoint limit current_time)
                   limit current_time in
  let rate_limit_info :=
    {| i_user_id := user_id; i_endpoint := endpoint; i_limit := limit;
       i_tokens_remaining := tokens bucket;
       i_reset_time := _get_reset_time rl bucket current_time |} in
  if Qle_bool 1 (tokens bucket) then
    let bucket' := mkBucket (tokens bucket - 1) (last_refill bucket) in
    (_log_request (set_bucket rl user_id endpoint bucket')
                  user_id endpoint current_time true,
     Returns true rate_limit_info)
  else
    (_log_request (set_bucket rl user_id endpoint bucket)
                  user_id endpoint current_time false,
     Raises (_format_rate_limit_error user_id endpoint rate_limit_info)).

(** [token_info[endpoint]] of [get_user_stats]. *)
Record TokenInfo := mkTokenInfo {
  t_tokens_remaining : Q;
  t_limit : Z;
  t_reset_time : option Q }.

Record UserStats := mkUserStats {
  us_user_id : string;
  us_requests_last_minute : nat;
  us_total_requests_last_hour : nat;
  us_token_buckets : gmap string TokenInfo }.

(** The loop body of [get_user_stats]: the bucket object is refilled in
    place ("Update bucket before reporting"). *)
Definition refill_for_stats (rl : RateLimiter) (current_time : Q)
    (endpoint : string) (bucket : Bucket) : Bucket :=
  _refill_bucket rl bucket (get_limit rl endpoint) current_time.

Definition get_user_stats (rl : RateLimiter) (current_time : Q)
    (user_id : string) : RateLimiter * UserStats :=
  let recent_requests := default [] (request_history rl !! user_id) in
  let last_minute := current_time - 60 in
  let recent_count := length (List.filter (newer_than last_minute) recent_requests) in
  let refilled :=
    map_imap (λ ep b, Some (refill_for_stats rl current_time ep b))
             (default ∅ (buckets rl !! user_id)) in
  let token_info :=
    map_imap (λ ep b, Some {| t_tokens_remaining := tokens b;
                               t_limit := get_limit rl ep;
                               t_reset_time := _get_reset_time rl b current_time |})
             refilled in
  ({| requests_per_minute := requests_per_minute rl;
      burst_allowance := burst_allowance rl;
      buckets := alter (λ _, refilled) user_id (buckets rl);
      request_history := request_history rl;
       last_cleanup := last_cleanup rl |},
   {| us_user_id := user_id;
      us_requests_last_minute := recent_count;
      us_total_requests_last_hour := length recent_requests;
      us_token_buckets := token_info |}).

Record SystemStats := mkSystemStats {
  ss_active_users : nat;
  ss_requests_per_minute_system : nat;
  ss_total_requests_last_hour : nat;
  ss_endpoint_limits : gmap string Z;
  ss_system_capacity : Z;
  ss_load_percentage : Q }.

(** [get_system_stats]: [None] stands for the [ZeroDivisionError] of
    [recent_requests / (self.requests_per_minute * 5)].  The load is the
    exact quotient; the code's is its binary64 rounding. *)
Definition get_system_stats (rl : RateLimiter) (current_time : Q)
    : RateLimiter * option SystemStats :=
  let active_users := size (buckets rl) in
  let total_requests :=
    map_fold (λ _ h acc, (length h + acc)%nat) 0%nat (request_history rl) in
  let last_minute := current_time - 60 in
  let recent_requests :=
    map_fold (λ _ h acc, (length (List.filter (newer_than last_minute) h) + acc)%nat)
             0%nat (request_history rl) in
  let capacity := (requests_per_minute rl * 5)%Z in
  (rl,
   if decide (capacity = 0%Z) then None
   else Some {| ss_active_users := active_users;
                ss_requests_per_minute_system := recent_requests;
                ss_total_requests_last_hour := total_requests;
                ss_endpoint_limits := endpoint_limits (requests_per_minute rl);
                ss_system_capacity := capacity;
                ss_load_percentage :=
                  (inject_Z (Z.of_nat recent_requests) / inject_Z capacity) * 100 |}).

(** [reset_user_limits]: [endpoint] is [Optional[str]]; [if endpoint:] holds
    for a non-empty string only. *)
Definition reset_user_limits (rl : RateLimiter) (now : Q) (user_id : string)
    (endpoint : option string) : RateLimiter :=
  match endpoint with
  | Some (String a ep') =>
      let ep := String a ep' in
      match buckets rl !! user_id with
      | Some ub =>
          match ub !! ep with
          | Some _ => set_bucket rl user_id ep (mkBucket (inject_Z (get_limit rl ep)) now)
          | None => rl
          end
      | None => rl
      end
  | _ =>
      {| requests_per_minute := requests_per_minute rl;
         burst_allowance := burst_allowance rl;
         buckets := delete user_id (buckets rl);
         request_history := delete user_id (request_history rl);
             last_cleanup := last_cleanup rl |}
  end.


(** *** Vocabulary of the statements *)

(** One call of [check_rate_limit] by a given user: its two clock readings
    and its endpoint. *)
Record Call := mkCall { c_time : Q; c_sweep : Q; c_endpoint : string }.

(** A user makes the calls of a list one after the other; the outcomes are
    collected in order. *)
Fixpoint run_checks (rl : RateLimiter) (user_id : string) (cs : list Call)
    : RateLimiter * list CheckResult :=
  match cs with
  | [] => (rl, [])
  | c :: cs' =>
      let '(rl1, r) := check_rate_limit rl (c_time c) (c_sweep c) user_id (c_endpoint c) in
      let '(rl2, rs) := run_checks rl1 user_id cs' in
      (rl2, r :: rs)
  end.

Definition is_allowed (r : CheckResult) : bool :=
  match r with Returns a _ => a | Raises _ => false end.

Definition is_raise (r : CheckResult) : bool :=
  match r with Returns _ _ => false | Raises _ => true end.

(** The bucket of [(user_id, endpoint)], if there is one. *)
Definition bucket_of (rl : RateLimiter) (user_id endpoint : string) : option Bucket :=
  buckets rl !! user_id ≫= (λ ub, ub !! endpoint).



(** A configuration with non-negative limit and burst allowance. *)
Definition config_ok (rl : RateLimiter) : Prop :=
  (0 <= requests_per_minute rl)%Z ∧ (0 <= burst_allowance rl)%Z.

(** A call made at clock reading [t0] on endpoint [ep]: calls that are all
    [rapid t0 ep] have no elapsed time between them. *)
Definition rapid (t0 : Q) (ep : string) (c : Call) : Prop :=
  c_time c = t0 ∧ c_endpoint c = ep.

(** Two limiters that differ at most in the buckets and the history of
    user [u1]. *)
Definition agree_except (u1 : string) (rl rl' : RateLimiter) : Prop :=
  requests_per_minute rl = requests_per_minute rl'
  ∧ burst_allowance rl = burst_allowance rl'
  ∧ last_cleanup rl = last_cleanup rl'
  ∧ ∀ u, u ≠ u1 →
      buckets rl !! u = buckets rl' !! u
      ∧ request_history rl !! u = request_history rl' !! u.

End RateLimit.

(** ** The regular expressions of Python's [re] that the code uses

    The masker and the validator compile fixed tables of patterns with
    [re.compile] and use [findall], [sub] and [search] on them.  [re] is a
    library: it is modelled here by a backtracking matcher that tries the
    alternatives in the order [re] does (greedy repetitions longest first,
    lazy ones shortest first, alternations left to right), on texts whose
    characters are the code points 0 to 255.  A compiled pattern is a term
    of [re]; the tables below give the source string of each pattern next
    to its term.  A pattern has at most one capturing group. *)

Module Regex.

Local Open Scope char_scope.

Abbreviation text := (list ascii).

(** A character class, as its membership test. *)
Definition cls := ascii → bool.

Inductive re :=
| Eps                                   (* the empty pattern *)
| Chr (c : cls)                         (* one character of a class *)
| Bnd                                   (* \b *)
| Eol                                   (* $ under re.MULTILINE *)
| Seq (a b : re)                        (* ab *)
| Alt (a b : re)                        (* a|b *)
| Opt (a : re)                          (* a? *)
| Rep (greedy : bool) (c : cls) (lo : nat) (hi : option nat)
                                        (* c{lo,hi}, c*, c+; c*? when not greedy *)
| Grp (a : re).                         (* (a), the capturing group *)

Definition code (a : ascii) : N := N_of_ascii a.

Definition in_range (lo hi : N) (a : ascii) : bool :=
  ((lo <=? code a) && (code a <=? hi))%N.

Definition is_char (c a : ascii) : bool := (code c =? code a)%N.

(** [\d]: Python's [\d] on [str] matches every Unicode decimal digit; on the
    code points 0 to 255 these are ['0'] to ['9']. *)
Definition is_digit : cls := in_range 48 57.
Definition is_upper : cls := in_range 65 90.
Definition is_lower : cls := in_range 97 122.
Definition is_alpha : cls := λ a, is_upper a || is_lower a.

(** [\w] on the code points 0 to 255: letters, digits, the underscore and
    the alphanumeric characters of the upper half. *)
Definition is_word : cls := λ a,
  is_digit a || is_alpha a || is_char "_" a
  || is_char "170" a || in_range 178 179 a || is_char "181" a
  || in_range 185 186 a || in_range 188 190 a
  || in_range 192 214 a || in_range 216 246 a || in_range 248 255 a.

(** [\s] on the code points 0 to 255. *)
Definition is_space : cls := λ a,
  in_range 9 13 a || in_range 28 32 a || is_char "133" a || is_char "160" a.

Definition any_char : cls := λ _, true.
Definition one_of (l : text) : cls := λ a, existsb (λ c, is_char c a) l.
Definition none_of (l : text) : cls := λ a, negb (one_of l a).
Definition union (c d : cls) : cls := λ a, c a || d a.

(** A literal character under [re.IGNORECASE]. *)
Definition to_lower (a : ascii) : ascii :=
  if is_upper a then ascii_of_N (code a + 32) else a.
Definition ci (c : ascii) : cls := λ a, is_char (to_lower c) (to_lower a).

(** A literal string under [re.IGNORECASE]. *)
Fixpoint lit_chars (l : text) : re :=
  match l with
  | [] => Eps
  | [c] => Chr (ci c)
  | c :: l' => Seq (Chr (ci c)) (lit_chars l')
  end.
Definition lit (s : string) : re := lit_chars (list_ascii_of_string s).

(** A sequence of patterns. *)
Fixpoint seq_re (l : list re) : re :=
  match l with
  | [] => Eps
  | [a] => a
  | a :: l' => Seq a (seq_re l')
  end.

Definition star (c : cls) : re := Rep true c 0 None.
Definition plus (c : cls) : re := Rep true c 1 None.
Definition times (c : cls) (lo hi : nat) : re := Rep true c lo (Some hi).
Definition opt_chr (c : cls) : re := Opt (Chr c).

(** Whether the character before, or after, the current position is a word
    character; there is none at the ends of the text. *)
Definition wnext (s : text) : bool :=
  match s with a :: _ => is_word a | [] => false end.

Definition pw_after (pw : bool) (s : text) (k : nat) : bool :=
  match k with
  | O => pw
  | S k' => match nth_error s k' with Some a => is_word a | None => false end
  end.

(** The length of the longest prefix of [s] in class [c]. *)
Fixpoint span (c : cls) (s : text) : nat :=
  match s with
  | a :: s' => if c a then S (span c s') else 0
  | [] => 0
  end.

Definition bounded (n : nat) (hi : option nat) : nat :=
  match hi with Some h => Nat.min n h | None => n end.

(** The repetition counts [lo..n] in the order they are tried. *)
Definition counts (greedy : bool) (lo n : nat) : list nat :=
  if greedy then rev (seq lo (S n - lo)) else seq lo (S n - lo).

(** One way to match at a position: the number of characters consumed and
    the span (offset, length) of the capturing group, if it took part. *)
Definition res := (nat * option (nat * nat))%type.

(** All the ways pattern [r] matches at the start of [s], in the order the
    backtracking matcher finds them; [pw] tells whether the character
    before [s] is a word character. *)
Fixpoint run (r : re) (pw : bool) (s : text) : list res :=
  match r with
  | Eps => [(0, None)]
  | Chr c => match s with
             | a :: _ => if c a then [(1, None)] else []
             | [] => []
             end
  | Bnd => if xorb pw (wnext s) then [(0, None)] else []
  | Eol => match s with
           | [] => [(0, None)]
           | a :: _ => if is_char "010" a then [(0, None)] else []
           end
  | Seq a b =>
      flat_map (λ r1 : res,
        map (λ r2 : res,
               (r1.1 + r2.1,
                match r2.2 with
                | Some (o, l) => Some (r1.1 + o, l)
                | None => r1.2
                end))
            (run b (pw_after pw s r1.1) (skipn r1.1 s)))
        (run a pw s)
  | Alt a b => run a pw s ++ run b pw s
  | Opt a => run a pw s ++ [(0, None)]
  | Rep g c lo hi => map (λ k, (k, None)) (counts g lo (bounded (span c s) hi))
  | Grp a => map (λ r1 : res, (r1.1, Some (0, r1.1))) (run a pw s)
  end.

(** The match the engine reports at a position: the first way found; after
    an empty match ([must_advance]) an empty match at the same position is
    rejected and the matcher backtracks. *)
Definition first_match (r : re) (must_advance pw : bool) (s : text) : option res :=
  head (List.filter (λ x : res, negb must_advance || negb (Nat.eqb x.1 0)) (run r pw s)).

(** What a left-to-right scan of a text yields: characters outside any
    match, and matches (the matched text and the text of the group). *)
Inductive item :=
| Keep (a : ascii)
| Hit (whole : text) (grp : option text).

Definition hit_of (s : text) (x : res) : item :=
  Hit (firstn x.1 s)
      (match x.2 with
       | Some (o, l) => Some (firstn l (skipn o s))
       | None => None
       end).

(** The scan of [finditer], [findall] and [sub]: the leftmost match, then
    the leftmost match after it, and so on. *)
Fixpoint scan (fuel : nat) (r : re) (must_advance pw : bool) (s : text) : list item :=
  match fuel with
  | O => []
  | S fuel' =>
      match first_match r must_advance pw s with
      | Some x =>
          hit_of s x ::
            (match x.1 with
             | O => scan fuel' r true pw s
             | _ => scan fuel' r false (pw_after pw s x.1) (skipn x.1 s)
             end)
      | None =>
          match s with
          | [] => []
          | a :: s' => Keep a :: scan fuel' r false (is_word a) s'
          end
      end
  end.

Definition scan_text (r : re) (s : text) : list item :=
  scan (2 * length s + 2) r false false s.

Fixpoint has_group (r : re) : bool :=
  match r with
  | Grp _ => true
  | Seq a b | Alt a b => has_group a || has_group b
  | Opt a => has_group a
  | _ => false
  end.

(** The results of [findall] from the items of a scan: the text of the
    group when the pattern has one (empty when the group took no part),
    else the whole match. *)
Definition groups (r : re) (items : list item) : list text :=
  flat_map (λ it, match it with
                  | Keep _ => []
                  | Hit whole grp =>
                      [if has_group r then default [] grp else whole]
                  end)
           items.

(** The text [sub] builds from the items of a scan. *)
Definition render (repl : text) (items : list item) : text :=
  flat_map (λ it, match it with Keep a => [a] | Hit _ _ => repl end) items.

(** [pattern.findall(s)] *)
Definition findall (r : re) (s : text) : list text := groups r (scan_text r s).

(** [pattern.sub(repl, s)] for a replacement without escapes. *)
Definition sub (r : re) (repl : text) (s : text) : text :=
  render repl (scan_text r s).

(** [pattern.search(s)] as a truth value. *)
Fixpoint search (r : re) (pw : bool) (s : text) : bool :=
  match run r pw s with
  | _ :: _ => true
  | [] => match s with
          | [] => false
          | a :: s' => search r (is_word a) s'
          end
  end.

(** A compiled pattern with its source string ([pattern.pattern]). *)
Record Pattern := mkPattern { p_source : string; p_re : re }.

(** [needle in hay] on strings. *)
Fixpoint starts_with (needle hay : text) : bool :=
  match needle, hay with
  | [], _ => true
  | c :: n', a :: h' => is_char c a && starts_with n' h'
  | _ :: _, [] => false
  end.

Fixpoint contains (needle hay : text) : bool :=
  starts_with needle hay
  || match hay with
     | [] => false
     | _ :: h' => contains needle h'
     end.

(** [str.lower()] on the code points 0 to 255. *)
Definition py_lower_char (a : ascii) : ascii :=
  if is_upper a || in_range 192 214 a || in_range 216 222 a
  then ascii_of_N (code a + 32) else a.
Definition py_lower (s : text) : text := map py_lower_char s.

(** [str.strip()]: whitespace is removed at both ends. *)
Fixpoint lstrip (s : text) : text :=
  match s with
  | a :: s' => if is_space a then lstrip s' else s
  | [] => []
  end.
Definition strip_ws (s : text) : text := rev (lstrip (rev (lstrip s))).

(** *** Vocabulary of the statements about patterns *)

(** The lengths of the matches of [r] at the start of [s]. *)
Definition lens (r : re) (pw : bool) (s : text) : list nat := map fst (run r pw s).

(** [r] matches at no position of [s]. *)
Fixpoint nomatch (r : re) (pw : bool) (s : text) : bool :=
  match lens r pw s with
  | _ :: _ => false
  | [] => match s with
          | [] => true
          | a :: s' => nomatch r (is_word a) s'
          end
  end.

(** No class of [r] accepts the character [x]. *)
Fixpoint avoids (x : ascii) (r : re) : bool :=
  match r with
  | Eps | Bnd | Eol => true
  | Chr c => negb (c x)
  | Seq a b | Alt a b => avoids x a && avoids x b
  | Opt a | Grp a => avoids x a
  | Rep _ c _ _ => negb (c x)
  end.

(** [r] has no [$]. *)
Fixpoint eol_free (r : re) : bool :=
  match r with
  | Eol => false
  | Seq a b | Alt a b => eol_free a && eol_free b
  | Opt a | Grp a => eol_free a
  | _ => true
  end.

(** A sufficient syntactic test that [r] matches no empty text. *)
Fixpoint nonempty (r : re) : bool :=
  match r with
  | Chr _ => true
  | Seq a b => nonempty a || nonempty b
  | Alt a b => nonempty a && nonempty b
  | Grp a => nonempty a
  | Rep _ _ lo _ => negb (Nat.eqb lo 0)
  | _ => false
  end.

(** [r] ends with [\b]. *)
Fixpoint ends_bnd (r : re) : bool :=
  match r with
  | Bnd => true
  | Seq _ b => ends_bnd b
  | _ => false
  end.

(** [r] starts with [\b], or with a character that is never a word
    character. *)
Definition all_chars : text := map ascii_of_nat (seq 0 256).
Definition never_word (c : cls) : bool :=
  forallb (λ a, negb (c a && is_word a)) all_chars.
Definition starts_ok (r : re) : bool :=
  match r with
  | Seq Bnd _ => true
  | Seq (Chr c) _ => never_word c
  | _ => false
  end.

(** The word flag of the character that follows position 0 of [m], of the
    one that precedes its end, and when one context can replace another
    around a match of [m]: every word boundary at the start and at the end
    of [m] in the first context is one in the second. *)
Definition nextw (m : text) (nw : bool) : bool :=
  match m with [] => nw | a :: _ => is_word a end.

Definition wend (pw : bool) (m : text) : bool := pw_after pw m (length m).

Definition ctx_ok (m : text) (pw nw pw' nw' : bool) : Prop :=
  (xorb pw (nextw m nw) = true → xorb pw' (nextw m nw') = true)
  ∧ (xorb (wend pw m) nw = true → xorb (wend pw' m) nw' = true).

(** Every character of class [c] is in class [d]. *)
Definition subclass (c d : cls) : bool :=
  forallb (λ a, implb (c a) (d a)) all_chars.

(** A sufficient syntactic test that every match of [r] has a character of
    class [d]. *)
Fixpoint needs (d : cls) (r : re) : bool :=
  match r with
  | Chr c => subclass c d
  | Seq a b => needs d a || needs d b
  | Alt a b => needs d a && needs d b
  | Grp a => needs d a
  | Rep _ c lo _ => negb (Nat.eqb lo 0) && subclass c d
  | _ => false
  end.

End Regex.

(** ** Data masker (masking.py) *)

Module Masking.
Import Regex.
Local Open Scope string_scope.

Definition d (n : nat) : re := times is_digit n n.
(** [[-\s]] and [[-.\s]] *)
Definition sep : cls := union (one_of ["-"%char]) is_space.
Definition sep3 : cls := union (one_of ["-"%char; "."%char]) is_space.
(** [[A-Za-z0-9._%+-]], [[A-Za-z0-9.-]], [[A-Z|a-z]] *)
Definition email_local : cls :=
  union is_alpha (union is_digit (one_of (list_ascii_of_string "._%+-"))).
Definition email_domain : cls :=
  union is_alpha (union is_digit (one_of (list_ascii_of_string ".-"))).
Definition tld : cls := union is_alpha (one_of ["|"%char]).
(** [(?:number|#)?] *)
Definition number_or_hash : re := Opt (Alt (lit "number") (lit "#")).
Definition colon : re := opt_chr (ci ":").

(** [self.patterns], in the order of the dictionary. *)
Definition account_patterns : list Pattern :=
  [ mkPattern "\bAC-\d{6}\b"
      (seq_re [Bnd; lit "AC-"; d 6; Bnd]);
    mkPattern "\bACCT-\d{6,10}\b"
      (seq_re [Bnd; lit "ACCT-"; times is_digit 6 10; Bnd]);
    mkPattern "\bAccount\s*(?:number|#)?\s*:?\s*(\d{6,12})\b"
      (seq_re [Bnd; lit "Account"; star is_space; number_or_hash; star is_space;
               colon; star is_space; Grp (times is_digit 6 12); Bnd]) ].

Definition card_patterns : list Pattern :=
  [ mkPattern "\b\d{4}[-\s]?\d{4}[-\s]?\d{4}[-\s]?\d{4}\b"
      (seq_re [Bnd; d 4; opt_chr sep; d 4; opt_chr sep; d 4; opt_chr sep; d 4; Bnd]);
    mkPattern "\b\d{15,16}\b"
      (seq_re [Bnd; times is_digit 15 16; Bnd]) ].

Definition phone_patterns : list Pattern :=
  [ mkPattern "\b\d{3}[-.\s]?\d{3}[-.\s]?\d{4}\b"
      (seq_re [Bnd; d 3; opt_chr sep3; d 3; opt_chr sep3; d 4; Bnd]);
    mkPattern "\(\d{3}\)\s*\d{3}[-.\s]?\d{4}\b"
      (seq_re [Chr (ci "("); d 3; Chr (ci ")"); star is_space; d 3; opt_chr sep3;
               d 4; Bnd]);
    mkPattern "\b1[-.\s]?\d{3}[-.\s]?\d{3}[-.\s]?\d{4}\b"
      (seq_re [Bnd; Chr (ci "1"); opt_chr sep3; d 3; opt_chr sep3; d 3;
               opt_chr sep3; d 4; Bnd]) ].

Definition email_patterns : list Pattern :=
  [ mkPattern "\b[A-Za-z0-9._%+-]+@[A-Za-z0-9.-]+\.[A-Z|a-z]{2,}\b"
      (seq_re [Bnd; plus email_local; Chr (ci "@"); plus email_domain;
               Chr (ci "."); Rep true tld 2 None; Bnd]) ].

Definition ssn_patterns : list Pattern :=
  [ mkPattern "\b\d{3}[-.\s]?\d{2}[-.\s]?\d{4}\b"
      (seq_re [Bnd; d 3; opt_chr sep3; d 2; opt_chr sep3; d 4; Bnd]);
    mkPattern "\bSSN\s*:?\s*\d{3}[-.\s]?\d{2}[-.\s]?\d{4}\b"
      (seq_re [Bnd; lit "SSN"; star is_space; colon; star is_space;
               d 3; opt_chr sep3; d 2; opt_chr sep3; d 4; Bnd]) ].

Definition policy_patterns : list Pattern :=
  [ mkPattern "\bP-\d{6}\b"
      (seq_re [Bnd; lit "P-"; d 6; Bnd]);
    mkPattern "\bPolicy\s*(?:number|#)?\s*:?\s*([A-Z]{1,3}-?\d{6,10})\b"
      (seq_re [Bnd; lit "Policy"; star is_space; number_or_hash; star is_space;
               colon; star is_space;
               Grp (seq_re [times is_alpha 1 3; opt_chr (ci "-"); times is_digit 6 10]);
               Bnd]) ].

Definition default_patterns : list (string * list Pattern) :=
  [ ("ACCOUNT", account_patterns);
    ("CARD", card_patterns);
    ("PHONE", phone_patterns);
    ("EMAIL", email_patterns);
    ("SSN", ssn_patterns);
    ("POLICY", policy_patterns) ].

(** [self.exclusion_contexts] *)
Definition default_exclusions : list Pattern :=
  [ mkPattern "test\s+account" (seq_re [lit "test"; plus is_space; lit "account"]);
    mkPattern "example\s+email" (seq_re [lit "example"; plus is_space; lit "email"]);
    mkPattern "sample\s+phone" (seq_re [lit "sample"; plus is_space; lit "phone"]);
    mkPattern "demo\s+card" (seq_re [lit "demo"; plus is_space; lit "card"]) ].

(** The attributes of [DataMasker]; the compiled tables are the tables. *)
Record DataMasker := mkMasker {
  masking_enabled : bool;
  logging_enabled : bool;
  patterns : list (string * list Pattern);
  exclusion_contexts : list Pattern }.

(** [__init__]: the two flags come from the environment. *)
Definition init (masking logging : bool) : DataMasker :=
  {| masking_enabled := masking;
     logging_enabled := logging;
     patterns := default_patterns;
     exclusion_contexts := default_exclusions |}.

(** One entry of [masking_log]. *)
Record LogEntry := mkLog {
  category : string;
  original_length : nat;
  pattern : string }.

(** [f"{{{{{category}}}}}"] *)
Definition token (category : string) : text :=
  list_ascii_of_string ("{{" ++ category ++ "}}").

Definition _is_excluded_context (m : DataMasker) (t : text) : bool :=
  existsb (λ p, search (p_re p) false t) (exclusion_contexts m).

(** The body of the loop over the patterns of a category: one substitution
    and one log entry for each match that [findall] reported. *)
Definition apply_pattern (cat : string) (st : text * list LogEntry) (p : Pattern)
    : text * list LogEntry :=
  fold_left
    (λ (acc : text * list LogEntry) (original : text),
       (sub (p_re p) (token cat) acc.1,
        (acc.2 ++ [mkLog cat (length original) (p_source p)])%list))
    (findall (p_re p) st.1) st.

Definition apply_category (st : text * list LogEntry) (c : string * list Pattern)
    : text * list LogEntry :=
  fold_left (apply_pattern c.1) c.2 st.

Definition mask_sensitive_data (m : DataMasker) (t : text) (preserve_context : bool)
    : text * list LogEntry :=
  if negb (masking_enabled m) || (match t with [] => true | _ => false end)
  then (t, [])
  else if preserve_context && _is_excluded_context m t
  then (t, [])
  else fold_left apply_category (patterns m) (t, []).

(** [_safe_log_data] *)
Definition _safe_log_data (data : text) (max_length : nat) : text :=
  let n := length data in
  if (n <=? 4)%nat then repeat "*"%char n
  else if (n <=? max_length)%nat
  then (firstn 2 data ++ repeat "*"%char (n - 4) ++ skipn (n - 2) data)%list
  else (firstn 2 data ++ repeat "*"%char 10 ++ skipn (n - 2) data)%list.

(** A text given as a string literal. *)
Definition txt (s : string) : text := list_ascii_of_string s.

(** *** Vocabulary of the statements about the tables *)

(** The patterns of a table with their categories, in the order the loops
    of [mask_sensitive_data] visit them. *)
Definition flat_patterns (tbl : list (string * list Pattern)) : list (string * Pattern) :=
  flat_map (λ c : string * list Pattern, map (pair c.1) c.2) tbl.

(** The loop body for one entry of [flat_patterns]. *)
Definition apply_flat (st : text * list LogEntry) (cp : string * Pattern)
    : text * list LogEntry :=
  apply_pattern cp.1 st cp.2.

(** The inside of a text that starts with an opening and ends with a
    closing brace. *)
Definition strip (t : text) : option text :=
  match t with
  | a :: rest =>
      if is_char "{" a && is_char "}" (List.last rest "{"%char)
      then Some (removelast rest) else None
  | [] => None
  end.

(** The conditions under which replacing the matches of [q] by the token of
    [cat] can create no match of [p]: [p] has no [$], consumes at least one
    character and never a brace, and matches nowhere inside the token; [q]
    consumes at least one character, ends with [\b] and starts with [\b] or
    a non-word character. *)
Definition compatible (p : re) (cat : string) (q : re) : bool :=
  eol_free p && avoids "{" p && avoids "}" p && nonempty p
  && match strip (token cat) with
     | Some u0 => nomatch p false (u0 ++ ["}"%char])%list
     | None => false
     end
  && nonempty q && ends_bnd q && starts_ok q.

Definition table_compatible (tbl : list (string * list Pattern)) : bool :=
  forallb (λ cp : string * Pattern,
    forallb (λ cq : string * Pattern, compatible (p_re cp.2) cq.1 (p_re cq.2))
            (flat_patterns tbl))
    (flat_patterns tbl).

(** A character that [\d] matches (on the code points 0 to 255: ['0'] to
    ['9']) or an at sign. *)
Definition digit_or_at : cls := union is_digit (one_of ["@"%char]).

(** The number of opening braces of a text. *)
Definition opens (s : text) : nat := length (List.filter (is_char "{"%char) s).

End Masking.

(** ** Input validator (validator.py) *)

Module Validator.
Import Regex.
Local Open Scope string_scope.

(** The attributes of [InputValidator] that the code reads: the two
    [int(os.getenv(...))] limits.  The pattern table is fixed. *)
Record InputValidator := mkValidator {
  max_message_length : Z;
  max_metadata_size : Z }.

Definition txt (s : string) : text := list_ascii_of_string s.

(** [(?:a|b|...)] *)
Fixpoint alts (l : list string) : re :=
  match l with
  | [] => Eps
  | [a] => lit a
  | a :: l' => Alt (lit a) (alts l')
  end.

Definition lazy_any : re := Rep false any_char 0 None.
Definition tag (name : string) : re :=
  seq_re [lit name; star (none_of [">"%char]); Chr (ci ">")].

(** [self.malicious_patterns], compiled with
    [re.IGNORECASE | re.MULTILINE | re.DOTALL]. *)
Definition malicious_patterns : list Pattern :=
  [ mkPattern "<script[^>]*>.*?</script>"
      (seq_re [tag "<script"; lazy_any; lit "</script>"]);
    mkPattern "javascript:" (lit "javascript:");
    mkPattern "on\w+\s*=" (seq_re [lit "on"; plus is_word; star is_space; Chr (ci "=")]);
    mkPattern "<iframe[^>]*>" (tag "<iframe");
    mkPattern "<object[^>]*>" (tag "<object");
    mkPattern "<embed[^>]*>" (tag "<embed");
    mkPattern "<link[^>]*>" (tag "<link");
    mkPattern "<meta[^>]*>" (tag "<meta");
    mkPattern "(?:union|select|insert|update|delete|drop|create|alter)\s+"
      (seq_re [alts ["union"; "select"; "insert"; "update"; "delete"; "drop";
                     "create"; "alter"]; plus is_space]);
    mkPattern "(?:or|and)\s+\d+\s*=\s*\d+"
      (seq_re [alts ["or"; "and"]; plus is_space; plus is_digit; star is_space;
               Chr (ci "="); star is_space; plus is_digit]);
    mkPattern "'\s*(?:or|and)\s*'"
      (seq_re [Chr (ci "'"); star is_space; alts ["or"; "and"]; star is_space;
               Chr (ci "'")]);
    mkPattern "--\s*$" (seq_re [lit "--"; star is_space; Eol]);
    mkPattern "/\*.*?\*/" (seq_re [lit "/*"; lazy_any; lit "*/"]);
    mkPattern "(?:;|&&|\|\|)\s*(?:rm|cat|ls|pwd|whoami|id)"
      (seq_re [alts [";"; "&&"; "||"]; star is_space;
               alts ["rm"; "cat"; "ls"; "pwd"; "whoami"; "id"]]);
    mkPattern "(?:\$\(|\`)" (alts ["$("; "`"]);
    mkPattern "\.\.[\\/]" (seq_re [lit ".."; Chr (one_of ["\"%char; "/"%char])]);
    mkPattern "(?:etc/passwd|windows/system32)"
      (alts ["etc/passwd"; "windows/system32"]) ].

(** One entry of [report["blocked_patterns"]]. *)
Record Blocked := mkBlocked {
  b_pattern : string;
  b_matches : nat;
  b_type : string }.

(** The warnings [validate_message] records. *)
Inductive Warning :=
| EscapedHtml (n : nat)              (* "Escaped {n} HTML-like patterns" *)
| SuspiciousKey (key : text).        (* "Suspicious metadata key: {key}" *)

Record Report := mkReport {
  original_length : nat;
  sanitized_length : nat;
  warnings : list Warning;
  blocked_patterns : list Blocked }.

(** The reasons [ValidationError] is raised with. *)
Inductive Failure :=
| ContentNone
| ContentNotString
| MessageTooLong (n : nat) (max : Z)
| MetadataNotDict
| MetadataTooLarge (n : nat) (max : Z)
| SessionIdType
| UserIdType.

(** The exceptions of the pipeline. *)
Inductive Exc :=
| RateLimitExceededE (e : RateLimit.RateLimitExceeded)
| ValidationErrorE (f : Failure)
| TypeErrorE
| AttributeErrorE
| CollaboratorError (what : text).

Inductive Outcome (A : Type) :=
| Ok (a : A)
| Raise (e : Exc).
Arguments Ok {A} a.
Arguments Raise {A} e.

(** The [content] of a message: a string, [None], or another value, of
    which the code observes the truth value and [len] ([None] when the
    value has no [len]). *)
Inductive Content :=
| CStr (s : text)
| CNone
| COther (truthy : bool) (len : option nat).

(** The [metadata] of a message: [None], a dictionary (its keys and the
    length of [str(metadata)]), or another value with its truth value. *)
Inductive Metadata :=
| MNone
| MDict (keys : list text) (repr_len : nat)
| MOther (truthy : bool).

Definition metadata_truthy (md : Metadata) : bool :=
  match md with
  | MNone => false
  | MDict keys _ => match keys with [] => false | _ => true end
  | MOther b => b
  end.

Definition _classify_pattern (pattern : string) : string :=
  let pattern_lower := py_lower (txt pattern) in
  let any_in (kws : list string) := existsb (λ k, contains (txt k) pattern_lower) kws in
  if any_in ["script"; "javascript"; "iframe"] then "XSS"
  else if any_in ["union"; "select"; "insert"] then "SQL_INJECTION"
  else if any_in ["rm"; "cat"; "ls"] then "COMMAND_INJECTION"
  else if any_in [".."; "etc/passwd"] then "PATH_TRAVERSAL"
  else "SUSPICIOUS".

Definition blocked_marker : text := txt "[BLOCKED]".

(** [_check_malicious_patterns]: every pattern is looked for in the
    original content and replaced in the text sanitized so far. *)
Definition check_one (content : text) (acc : text * list Blocked) (p : Pattern)
    : text * list Blocked :=
  match findall (p_re p) content with
  | [] => acc
  | matches =>
      (sub (p_re p) blocked_marker acc.1,
       (acc.2 ++ [mkBlocked (p_source p) (length matches)
                             (_classify_pattern (p_source p))])%list)
  end.

Definition _check_malicious_patterns (content : text) : text * list Blocked :=
  fold_left (check_one content) malicious_patterns (content, []).

(** [[\x00-\x08\x0B\x0C\x0E-\x1F\x7F]] *)
Definition is_control : cls := λ a,
  in_range 0 8 a || in_range 11 12 a || in_range 14 31 a || is_char "127" a.

Definition _normalize_whitespace (content : text) : text :=
  let content := sub (plus is_space) [" "%char] content in
  let content := strip_ws content in
  sub (Chr is_control) [] content.

(** [html.escape(content)] *)
Definition html_escape (s : text) : text :=
  flat_map (λ a,
    if is_char "&" a then txt "&amp;"
    else if is_char "<" a then txt "&lt;"
    else if is_char ">" a then txt "&gt;"
    else if is_char "034" a then txt "&quot;"   (* the double quote *)
    else if is_char "'" a then txt "&#x27;"
    else [a]) s.

(** [&[lg]t;[^&]*&[lg]t;], compiled without flags. *)
Definition html_like : re :=
  let lgt := seq_re [Chr (is_char "&"); Chr (one_of ["l"%char; "g"%char]);
                     Chr (is_char "t"); Chr (is_char ";")] in
  seq_re [lgt; star (none_of ["&"%char]); lgt].

Definition _sanitize_html (content : text) : text * list Warning :=
  let sanitized := html_escape content in
  match findall html_like sanitized with
  | [] => (sanitized, [])
  | l => (sanitized, [EscapedHtml (length l)])
  end.

Definition _encode_dangerous_chars (content : text) : text := content.

Definition dangerous_keys : list string := ["__"; "eval"; "exec"; "import"].

Definition _validate_metadata (v : InputValidator) (md : Metadata)
    : Outcome (list Warning) :=
  match md with
  | MDict keys repr_len =>
      if (max_metadata_size v <? Z.of_nat repr_len)%Z
      then Raise (ValidationErrorE (MetadataTooLarge repr_len (max_metadata_size v)))
      else Ok (flat_map (λ key,
                 if existsb (λ d, contains (txt d) (py_lower key)) dangerous_keys
                 then [SuspiciousKey key] else []) keys)
  | _ => Raise (ValidationErrorE MetadataNotDict)
  end.

(** The sanitization steps of [validate_message] for a string that passed
    the length check. *)
Definition sanitize (content : text) : text * list Blocked * list Warning :=
  let '(sanitized, blocked) := _check_malicious_patterns content in
  let sanitized := _normalize_whitespace sanitized in
  let '(sanitized, ws) := _sanitize_html sanitized in
  (_encode_dangerous_chars sanitized, blocked, ws).

Definition validate_message (v : InputValidator) (content : Content) (md : Metadata)
    : Outcome (text * Report) :=
  match content with
  | COther true None => Raise TypeErrorE       (* len(content) before the try *)
  | CNone => Raise (ValidationErrorE ContentNone)
  | COther _ _ => Raise (ValidationErrorE ContentNotString)
  | CStr s =>
      if (max_message_length v <? Z.of_nat (length s))%Z
      then Raise (ValidationErrorE (MessageTooLong (length s) (max_message_length v)))
      else
        let '(sanitized, blocked, ws) := sanitize s in
        let finish (ws' : list Warning) :=
          Ok (sanitized,
              {| original_length := length s;
                 sanitized_length := length sanitized;
                 warnings := (ws ++ ws')%list;
                 blocked_patterns := blocked |}) in
        if metadata_truthy md then
          match _validate_metadata v md with
          | Ok ws' => finish ws'
          | Raise e => Raise e
          end
        else finish []
  end.

(** [is_safe_for_llm] *)
Definition injection_patterns : list Pattern :=
  [ mkPattern "ignore\s+(?:previous|all)\s+instructions"
      (seq_re [lit "ignore"; plus is_space; alts ["previous"; "all"]; plus is_space;
               lit "instructions"]);
    mkPattern "you\s+are\s+now\s+a\s+different"
      (seq_re [lit "you"; plus is_space; lit "are"; plus is_space; lit "now";
               plus is_space; lit "a"; plus is_space; lit "different"]);
    mkPattern "roleplay\s+as\s+" (seq_re [lit "roleplay"; plus is_space; lit "as"; plus is_space]);
    mkPattern "pretend\s+(?:you\s+are|to\s+be)"
      (seq_re [lit "pretend"; plus is_space;
               Alt (seq_re [lit "you"; plus is_space; lit "are"])
                   (seq_re [lit "to"; plus is_space; lit "be"])]);
    mkPattern "system\s*:\s*" (seq_re [lit "system"; star is_space; Chr (ci ":"); star is_space]);
    mkPattern "(?:assistant|ai)\s*:\s*"
      (seq_re [alts ["assistant"; "ai"]; star is_space; Chr (ci ":"); star is_space]) ].

Inductive LlmWarning :=
| ContextLimit                        (* "Content may exceed LLM context limits" *)
| PromptInjection (pattern : string). (* "Potential prompt injection: {pattern}" *)

Definition is_safe_for_llm (content : text) : bool * list LlmWarning :=
  let w1 := if (1500 <? length content)%nat then [ContextLimit] else [] in
  let w2 := flat_map (λ p, if search (p_re p) false content
                           then [PromptInjection (p_source p)] else [])
                     injection_patterns in
  let warnings := (w1 ++ w2)%list in
  (match warnings with [] => true | _ => false end, warnings).

(** The [type] of a message: a string, a value that cannot be hashed (a
    list or an object of the JSON message), or another value, with its
    [str()]. *)
Inductive MsgType :=
| TStr (s : text)
| TUnhashable
| TOther (repr : text).

Definition allowed_types : list string :=
  ["user_message"; "assistant_message"; "session_start"; "evaluation_feedback"].

Inductive SessionWarning :=
| UnknownMessageType (t : MsgType).

Record SessionReport := mkSessionReport {
  validated_fields : list string;
  session_warnings : list SessionWarning }.

(** [validate_session_data] on the dictionary the pipeline builds,
    [{"user_id": user_id, "type": message_type}] with a string [user_id]:
    the membership test [msg_type not in allowed_types] raises [TypeError]
    for a value that cannot be hashed. *)
Definition validate_session_data (user_id : text) (msg_type : MsgType)
    : Outcome SessionReport :=
  match msg_type with
  | TUnhashable => Raise TypeErrorE
  | TStr s =>
      Ok {| validated_fields := ["user_id"; "type"];
            session_warnings :=
              if existsb (λ a, bool_decide (txt a = s)) allowed_types
              then [] else [UnknownMessageType msg_type] |}
  | TOther _ =>
      Ok {| validated_fields := ["user_id"; "type"];
            session_warnings := [UnknownMessageType msg_type] |}
  end.

(** *** Vocabulary of the statements *)

(** The characters that may occur in a sanitized message: no angle bracket,
    no quote, no control character, and no whitespace but the space. *)
Definition safe_char (a : ascii) : bool :=
  negb (is_char "<" a || is_char ">" a || is_char "034" a || is_char "'" a)
  && negb (is_control a)
  && (negb (is_space a) || is_char " " a).

End Validator.

(** ** Secure WebSocket manager (secure_websocket.py) *)

Module SecureWS.
Import Regex Validator.
Local Open Scope string_scope.

(** A WebSocket connection is known by its identity. *)
Definition WebSocket := nat.

(** An opaque value that is passed on unread (metadata of the model's
    answer, scores, the context fetched for the model). *)
Definition Blob := text.

(** The message dictionaries the manager sends.  A field that a message
    does not have is [None]; [o_error_details] is [Some None] for the key
    with the value [None]. *)
Record OutMsg := mkOut {
  o_type : string;
  o_content : Content;
  o_error_code : option string;
  o_error_details : option (option Exc);
  o_message_id : option nat;
  o_warnings : option (list LlmWarning);
  o_payload : option Blob }.

Definition plain (type : string) (content : string) : OutMsg :=
  mkOut type (CStr (txt content)) None None None None None.

(** What the manager does to the outside world, in order. *)
Inductive Event :=
| Accepted (ws : WebSocket)                       (* websocket.accept() *)
| Closed (ws : WebSocket) (code : nat) (reason : option Exc)
| Sent (ws : WebSocket) (m : OutMsg)              (* websocket.send_json(message) *)
| Masked (content : text)                         (* masker.mask_sensitive_data *)
| Saved (session_id : nat) (role : string) (content : Content)
                                                  (* db_manager.save_message *)
| Generated (user_message : text).                (* llm_service.generate_response *)

(** The answer of the model. *)
Record Evaluation := mkEval {
  ev_feedback : Content;
  ev_rest : Blob }.

Record LLMResponse := mkLLM {
  l_content : Content;
  l_metadata : Blob;
  l_evaluation : option Evaluation }.

(** The collaborators: what each call answers, [None] or [false] when it
    raises. *)
Record World := mkWorld {
  ws_accept : WebSocket → bool;
  ws_send : WebSocket → OutMsg → bool;
  db_save : nat → string → Content → option nat;
  db_context : nat → option Blob;
  llm_generate : text → Blob → option LLMResponse }.

(** [security_info], the audit entry of a processed message. *)
Record SecurityInfo := mkSecInfo {
  si_user_id : text;
  si_rate_limit_info : RateLimit.RateLimitInfo;
  si_validation_report : Report;
  si_masking_log : list Masking.LogEntry;
  si_is_safe : bool;
  si_llm_warnings : list LlmWarning;
  si_session_validation : SessionReport }.

Inductive SecurityEvent :=
| ConnectionEstablished (user_id : text) (session_id : nat)
    (info : RateLimit.RateLimitInfo)
| ConnectionDisconnected (user_id : text) (session_id : nat)
| MessageProcessed (info : SecurityInfo).

(** The attributes of [SecureWebSocketManager] and the level of the
    module's logger. *)
Record Manager := mkManager {
  masker : Masking.DataMasker;
  validator : InputValidator;
  rate_limiter : RateLimit.RateLimiter;
  active_connections : gmap nat (list WebSocket);
  security_events : list SecurityEvent;
  logger_level : Z }.

Definition set_limiter (m : Manager) (rl : RateLimit.RateLimiter) : Manager :=
  mkManager (masker m) (validator m) rl (active_connections m)
            (security_events m) (logger_level m).

Definition set_connections (m : Manager) (c : gmap nat (list WebSocket)) : Manager :=
  mkManager (masker m) (validator m) (rate_limiter m) c
            (security_events m) (logger_level m).

(** [_log_security_event]: append, and keep the last 500 entries once
    there are more than 1000. *)
Definition _log_security_event (m : Manager) (e : SecurityEvent) : Manager :=
  let events := (security_events m ++ [e])%list in
  mkManager (masker m) (validator m) (rate_limiter m) (active_connections m)
            (if (1000 <? length events)%nat
             then skipn (length events - 500) events else events)
            (logger_level m).

(** What [_process_message_security] returns. *)
Inductive SecurityResult :=
| Allowed (processed_content : text) (processed_metadata : Metadata)
    (security_info : SecurityInfo)
| Rejected (error_message : string) (error_code : string) (error_details : Exc).

Definition user_key (user_id : text) : string := string_of_list_ascii user_id.

(** [_process_message_security]; [t] and [st] are the clock readings of the
    rate limiter. *)
Definition _process_message_security (m : Manager) (t st : Q) (user_id : text)
    (message_type : MsgType) (content : Content) (metadata : Metadata)
    : Manager * list Event * SecurityResult :=
  let reject (m' : Manager) (evs : list Event) (e : Exc) :=
    (m', evs,
     match e with
     | RateLimitExceededE _ =>
         Rejected "Rate limit exceeded. Please wait before sending another message."
                  "RATE_LIMIT_EXCEEDED" e
     | ValidationErrorE _ =>
         Rejected "Message validation failed. Please check your input."
                  "VALIDATION_ERROR" e
     | _ =>
         Rejected "Security processing failed. Please try again."
                  "SECURITY_ERROR" e
     end) in
  match RateLimit.check_rate_limit (rate_limiter m) t st (user_key user_id)
          "websocket_message" with
  | (rl, RateLimit.Raises e) => reject (set_limiter m rl) [] (RateLimitExceededE e)
  | (rl, RateLimit.Returns _ rate_info) =>
      let m1 := set_limiter m rl in
      match validate_message (validator m1) content metadata with
      | Raise e => reject m1 [] e
      | Ok (sanitized_content, validation_report) =>
          let '(is_safe_for_llm, llm_warnings) := is_safe_for_llm sanitized_content in
          let '(masked_content, masking_log) :=
            Masking.mask_sensitive_data (masker m1) sanitized_content true in
          let evs := [Masked sanitized_content] in
          match validate_session_data user_id message_type with
          | Raise e => reject m1 evs e
          | Ok session_report =>
              let security_info :=
                {| si_user_id := user_id;
                   si_rate_limit_info := rate_info;
                   si_validation_report := validation_report;
                   si_masking_log := masking_log;
                   si_is_safe := is_safe_for_llm;
                   si_llm_warnings := llm_warnings;
                   si_session_validation := session_report |} in
              (_log_security_event m1 (MessageProcessed security_info), evs,
               Allowed masked_content metadata security_info)
          end
      end
  end.

(** [send_secure_message]: the content is validated, then the message is
    sent; every exception is caught and logged. *)
Definition send_secure_message (m : Manager) (ws : WebSocket) (msg : OutMsg)
    : list Event :=
  match validate_message (validator m) (o_content msg) MNone with
  | Ok (sanitized_content, _) =>
      [Sent ws (mkOut (o_type msg) (CStr sanitized_content) (o_error_code msg)
                      (o_error_details msg) (o_message_id msg) (o_warnings msg)
                      (o_payload msg))]
  | Raise _ => []
  end.

(** [list.remove(x)]: the first occurrence goes. *)
Fixpoint remove_first (x : WebSocket) (l : list WebSocket) : list WebSocket :=
  match l with
  | [] => []
  | y :: l' => if Nat.eqb x y then l' else y :: remove_first x l'
  end.

(** [broadcast_secure_message]: a validation failure is raised to the
    caller; a connection whose [send_json] raises is removed. *)
Definition broadcast_secure_message (w : World) (m : Manager) (session_id : nat)
    (msg : OutMsg) : Manager * list Event * Outcome unit :=
  match active_connections m !! session_id with
  | None => (m, [], Ok tt)
  | Some conns =>
      match validate_message (validator m) (o_content msg) MNone with
      | Raise e => (m, [], Raise e)
      | Ok (sanitized_content, _) =>
          let msg' := mkOut (o_type msg) (CStr sanitized_content) (o_error_code msg)
                            (o_error_details msg) (o_message_id msg)
                            (o_warnings msg) (o_payload msg) in
          let disconnected := List.filter (λ ws, negb (ws_send w ws msg')) conns in
          (set_connections m
             (<[session_id := fold_left (λ l ws, remove_first ws l) disconnected conns]>
                (active_connections m)),
           map (λ ws, Sent ws msg') conns, Ok tt)
      end
  end.

(** [{**metadata, ...}] needs a mapping. *)
Definition is_mapping (md : Metadata) : bool :=
  match md with MDict _ _ => true | _ => false end.

(** The body of the [try] of [_handle_secure_user_message]: the events up
    to the first exception, and whether there was one. *)
Definition user_message_body (w : World) (m : Manager) (ws : WebSocket)
    (session_id : nat) (content : text) (metadata : Metadata)
    (security_info : SecurityInfo) : list Event * bool :=
  if negb (is_mapping metadata) then ([], false)
  else
    let ev_save := Saved session_id "user" (CStr content) in
    match db_save w session_id "user" (CStr content) with
    | None => ([ev_save], false)
    | Some message_id =>
        let evs1 := (ev_save ::
          send_secure_message m ws
            (mkOut "message_received"
                   (CStr (txt "Message received and processed securely"))
                   None None (Some message_id) None None))%list in
        match db_context w session_id with
        | None => (evs1, false)
        | Some ctx =>
            if si_is_safe security_info then
              match llm_generate w content ctx with
              | None => ((evs1 ++ [Generated content])%list, false)
              | Some resp =>
                  let evs2 := (evs1 ++ [Generated content;
                                        Saved session_id "assistant" (l_content resp)])%list in
                  match db_save w session_id "assistant" (l_content resp) with
                  | None => (evs2, false)
                  | Some assistant_message_id =>
                      let evs3 := (evs2 ++
                        send_secure_message m ws
                          (mkOut "assistant_message" (l_content resp) None None
                                 (Some assistant_message_id) None
                                 (Some (l_metadata resp))))%list in
                      match l_evaluation resp with
                      | Some ev =>
                          ((evs3 ++
                            send_secure_message m ws
                              (mkOut "evaluation_feedback" (ev_feedback ev) None None
                                     None None (Some (ev_rest ev))))%list, true)
                      | None => (evs3, true)
                      end
                  end
              end
            else
              ((evs1 ++
                send_secure_message m ws
                  (mkOut "safety_warning"
                     (CStr (txt "Your message contains content that cannot be processed by our AI system."))
                     None None None (Some (si_llm_warnings security_info)) None))%list,
               true)
        end
    end.

Definition _handle_secure_user_message (w : World) (m : Manager) (ws : WebSocket)
    (session_id : nat) (content : text) (metadata : Metadata)
    (security_info : SecurityInfo) : list Event :=
  match user_message_body w m ws session_id content metadata security_info with
  | (evs, true) => evs
  | (evs, false) =>
      (evs ++ send_secure_message m ws
                (plain "error" "Error processing your message. Please try again."))%list
  end.

(** [_handle_secure_assistant_message]: nothing is caught here. *)
Definition _handle_secure_assistant_message (w : World) (m : Manager)
    (session_id : nat) (content : text) (metadata : Metadata)
    : Manager * list Event * Outcome unit :=
  let ev_save := Saved session_id "assistant" (CStr content) in
  match db_save w session_id "assistant" (CStr content) with
  | None => (m, [ev_save], Raise (CollaboratorError (txt "save_message")))
  | Some message_id =>
      let '(m', evs, r) :=
        broadcast_secure_message w m session_id
          (mkOut "assistant_message" (CStr content) None None (Some message_id)
                 None None) in
      (m', ev_save :: evs, r)
  end.

(** [str(data.get('type', 'undefined'))] in the reply to an unknown type. *)
Definition type_text (ty : MsgType) : text :=
  match ty with
  | TStr s => s
  | TUnhashable => txt "[...]"
  | TOther repr => repr
  end.

Definition _handle_unknown_message (m : Manager) (ws : WebSocket) (ty : MsgType)
    : list Event :=
  send_secure_message m ws
    (mkOut "error" (CStr (txt "Unknown message type: " ++ type_text ty)%list)
           None None None None None).

(** The JSON value a client sent: a dictionary, of which the code reads
    [type], [content] and [metadata], or something else. *)
Inductive Inbound :=
| NotADict
| Dict (type : MsgType) (content : Content) (metadata : Metadata).

Definition DEBUG : Z := 10.

Definition is_type (ty : MsgType) (name : string) : bool :=
  match ty with
  | TStr s => bool_decide (s = txt name)
  | _ => false
  end.

(** [handle_secure_message] *)
Definition handle_secure_message (w : World) (m : Manager) (t st : Q)
    (ws : WebSocket) (session_id : nat) (user_id : text) (data : Inbound)
    : Manager * list Event :=
  let on_error (m' : Manager) (evs : list Event) (e : Exc) :=
    (m', (evs ++ send_secure_message m' ws
            (mkOut "error" (CStr (txt "An error occurred processing your message"))
                   None
                   (Some (if (logger_level m' <=? DEBUG)%Z then Some e else None))
                   None None None))%list) in
  match data with
  | NotADict => on_error m [] AttributeErrorE
  | Dict message_type content metadata =>
      match _process_message_security m t st user_id message_type content metadata with
      | (m1, evs, Rejected error_message error_code _) =>
          (m1, (evs ++ send_secure_message m1 ws
                  (mkOut "security_error" (CStr (txt error_message))
                         (Some error_code) None None None None))%list)
      | (m1, evs, Allowed processed_content processed_metadata security_info) =>
          if is_type message_type "user_message" then
            (m1, (evs ++ _handle_secure_user_message w m1 ws session_id
                           processed_content processed_metadata security_info)%list)
          else if is_type message_type "assistant_message" then
            match _handle_secure_assistant_message w m1 session_id
                    processed_content processed_metadata with
            | (m2, evs', Ok _) => (m2, (evs ++ evs')%list)
            | (m2, evs', Raise e) => on_error m2 (evs ++ evs')%list e
            end
          else (m1, (evs ++ _handle_unknown_message m1 ws message_type)%list)
      end
  end.

(** [connect] *)
Definition connect (w : World) (m : Manager) (t st : Q) (ws : WebSocket)
    (session_id : nat) (user_id : text) : Manager * list Event :=
  match RateLimit.check_rate_limit (rate_limiter m) t st (user_key user_id)
          "websocket_message" with
  | (rl, RateLimit.Raises e) =>
      (set_limiter m rl, [Closed ws 4429 (Some (RateLimitExceededE e))])
  | (rl, RateLimit.Returns _ rate_info) =>
      let m1 := set_limiter m rl in
      if ws_accept w ws then
        let m2 := set_connections m1
                    (<[session_id := (default [] (active_connections m1 !! session_id)
                                      ++ [ws])%list]> (active_connections m1)) in
        let m3 := _log_security_event m2
                    (ConnectionEstablished user_id session_id rate_info) in
        (m3, Accepted ws ::
             send_secure_message m3 ws
               (plain "session_start" "Secure session started successfully"))
      else
        (m1, [Accepted ws; Closed ws 4500 (Some (CollaboratorError (txt "accept")))])
  end.

(** [disconnect] *)
Definition disconnect (m : Manager) (ws : WebSocket) (session_id : nat)
    (user_id : text) : Manager :=
  let conns :=
    match active_connections m !! session_id with
    | None => active_connections m
    | Some l =>
        match remove_first ws l with
        | [] => delete session_id (active_connections m)
        | l' => <[session_id := l']> (active_connections m)
        end
    end in
  _log_security_event (set_connections m conns)
    (ConnectionDisconnected user_id session_id).

(** [get_security_events(limit)]: [self.security_events[-limit:]] for a
    positive [limit]. *)
Definition get_security_events (m : Manager) (limit : nat) : list SecurityEvent :=
  skipn (length (security_events m) - limit) (security_events m).

(** *** Vocabulary of the statements *)


Definition is_masked (e : Event) : bool :=
  match e with Masked _ => true | _ => false end.
Definition is_saved (e : Event) : bool :=
  match e with Saved _ _ _ => true | _ => false end.
Definition is_generated (e : Event) : bool :=
  match e with Generated _ => true | _ => false end.




(** A manager as [SecureWebSocketManager()] builds it with the default
    environment, at clock reading [now]. *)
Definition default_manager (now : Q) (level : Z) : Manager :=
  {| masker := Masking.init true true;
     validator := mkValidator 2000 1000;
     rate_limiter := RateLimit.init 20 5 now;
     active_connections := ∅;
     security_events := [];
     logger_level := level |}.


End SecureWS.

(** * Properties *)

(** ** Rate limiter *)

Module RateLimitProps.
Import RateLimit.
Local Open Scope Q_scope.

Lemma Qle_bool_true (a b : Q) : Qle_bool a b = true ↔ a <= b.
Proof. apply Qle_bool_iff. Qed.

Lemma Qle_bool_false (a b : Q) : Qle_bool a b = false ↔ b < a.
Proof.
  split; intros H.
  - apply Qnot_le_lt. intros Hle. apply Qle_bool_iff in Hle. congruence.
  - destruct (Qle_bool a b) eqn:E; [|done].
    apply Qle_bool_iff in E. lra.
Qed.

Lemma get_limit_cases rl ep :
  get_limit rl ep = requests_per_minute rl
  ∨ get_limit rl ep = (requests_per_minute rl * 2)%Z
  ∨ get_limit rl ep = 10%Z
  ∨ get_limit rl ep = (requests_per_minute rl `div` 2)%Z.
Proof.
  unfold get_limit, endpoint_limits.
  destruct (decide (ep = "websocket_message")) as [->|?];
    [rewrite lookup_insert_eq; auto | rewrite lookup_insert_ne by done].
  destruct (decide (ep = "api_request")) as [->|?];
    [rewrite lookup_insert_eq; auto | rewrite lookup_insert_ne by done].
  destruct (decide (ep = "login")) as [->|?];
    [rewrite lookup_insert_eq; auto | rewrite lookup_insert_ne by done].
  destruct (decide (ep = "feedback")) as [->|?];
    [rewrite lookup_insert_eq; auto | rewrite lookup_insert_ne by done].
  rewrite lookup_empty. auto.
Qed.

Lemma endpoint_limits_Some rpm ep l :
  endpoint_limits rpm !! ep = Some l →
  (ep = "websocket_message" ∧ l = rpm)
  ∨ (ep = "api_request" ∧ l = (rpm * 2)%Z)
  ∨ (ep = "login" ∧ l = 10%Z)
  ∨ (ep = "feedback" ∧ l = (rpm `div` 2)%Z).
Proof.
  unfold endpoint_limits. intros H.
  repeat (apply lookup_insert_Some in H as [[<- <-]|[? H]]; [tauto|]).
  by rewrite lookup_empty in H.
Qed.

(** C7, as stated, fails on the default table: the login limit (10) is not
    strictly below the feedback limit (20 // 2 = 10). *)
Lemma login_limit_not_strictly_lowest :
  let rl := init 20 5 0 in
  endpoint_limits (requests_per_minute rl) !! "feedback" = Some 10%Z
  ∧ get_limit rl "feedback" = get_limit rl "login"
  ∧ ¬ (∀ ep, ep ≠ "login" →
         is_Some (endpoint_limits (requests_per_minute rl) !! ep) →
         (get_limit rl "login" < get_limit rl ep)%Z).
Proof.
  split; [reflexivity|]. split; [reflexivity|].
  intros H. specialize (H "feedback"). 
  assert (get_limit (init 20 5 0) "login" < get_limit (init 20 5 0) "feedback")%Z as Hlt.
  { apply H; [done|]. by eexists. }
  vm_compute in Hlt. discriminate.
Qed.

(** C7 (amended): with at least the default 20 requests per minute, the
    chat-message limit is strictly below the API limit, the login limit is
    the lowest of the table (strictly below the chat-message and API limits,
    and not above any configured limit), and an endpoint that is not in the
    table gets the default per-minute limit. *)
Theorem endpoint_limit_ordering rl (Hrpm : (20 <= requests_per_minute rl)%Z) :
  (get_limit rl "websocket_message" < get_limit rl "api_request")%Z
  ∧ (get_limit rl "login" < get_limit rl "websocket_message")%Z
  ∧ (get_limit rl "login" < get_limit rl "api_request")%Z
  ∧ (∀ ep l, endpoint_limits (requests_per_minute rl) !! ep = Some l →
       (get_limit rl "login" <= l)%Z)
  ∧ (∀ ep, endpoint_limits (requests_per_minute rl) !! ep = None →
       get_limit rl ep = requests_per_minute rl).
Proof.
  assert (get_limit rl "websocket_message" = requests_per_minute rl) as -> by reflexivity.
  assert (get_limit rl "api_request" = (requests_per_minute rl * 2)%Z) as -> by reflexivity.
  assert (get_limit rl "login" = 10%Z) as -> by reflexivity.
  repeat split; try lia.
  - intros ep l H. apply endpoint_limits_Some in H.
    destruct H as [[_ ->]|[[_ ->]|[[_ ->]|[_ ->]]]]; try lia.
    apply Z.div_le_lower_bound; lia.
  - intros ep H. unfold get_limit. by rewrite H.
Qed.

Lemma endpoint_limit_ordering_witness :
  (20 <= requests_per_minute (init 20 5 0))%Z
  ∧ (get_limit (init 20 5 0) "websocket_message" < get_limit (init 20 5 0) "api_request")%Z.
Proof.
  split; [simpl; lia|].
  apply (endpoint_limit_ordering (init 20 5 0)). simpl; lia.
Defined.

(** *** What one check does to the state *)

Lemma maybe_cleanup_config rl t st :
  requests_per_minute (maybe_cleanup rl t st) = requests_per_minute rl
  ∧ burst_allowance (maybe_cleanup rl t st) = burst_allowance rl.
Proof. unfold maybe_cleanup. by destruct (sweep_due rl t). Qed.

Lemma get_limit_maybe_cleanup rl t st ep :
  get_limit (maybe_cleanup rl t st) ep = get_limit rl ep.
Proof. unfold get_limit. by rewrite (proj1 (maybe_cleanup_config rl t st)). Qed.

Lemma bucket_of_set_bucket rl u ep b u' ep' :
  bucket_of (set_bucket rl u ep b) u' ep' =
  if decide (u = u' ∧ ep = ep') then Some b else bucket_of rl u' ep'.
Proof.
  unfold bucket_of, set_bucket; simpl.
  destruct (decide (u = u')) as [<-|Hu].
  - rewrite lookup_insert_eq; simpl.
    destruct (decide (ep = ep')) as [<-|He].
    + rewrite lookup_insert_eq. by rewrite decide_True.
    + rewrite lookup_insert_ne by done. rewrite decide_False by tauto.
      destruct (buckets rl !! u); simpl; [done|apply lookup_empty].
  - rewrite lookup_insert_ne by done. by rewrite decide_False by tauto.
Qed.

Lemma bucket_of_log_request rl u ep t a u' ep' :
  bucket_of (_log_request rl u ep t a) u' ep' = bucket_of rl u' ep'.
Proof. reflexivity. Qed.

(** The bucket the check works on, after the refill. *)
Definition refilled (rl : RateLimiter) (t st : Q) (u ep : string) : Bucket :=
  let rl1 := maybe_cleanup rl t st in
  _refill_bucket rl1 (bucket_or_new rl1 u ep (get_limit rl1 ep) t) (get_limit rl1 ep) t.

Lemma check_rate_limit_allowed rl t st u ep :
  Qle_bool 1 (tokens (refilled rl t st u ep)) = true →
  let b := refilled rl t st u ep in
  let rl1 := maybe_cleanup rl t st in
  check_rate_limit rl t st u ep =
    (_log_request (set_bucket rl1 u ep (mkBucket (tokens b - 1) (last_refill b))) u ep t true,
     Returns true (mkInfo u ep (get_limit rl1 ep) (tokens b) (_get_reset_time rl1 b t))).
Proof. unfold check_rate_limit, refilled. intros ->. reflexivity. Qed.

Lemma check_rate_limit_denied rl t st u ep :
  Qle_bool 1 (tokens (refilled rl t st u ep)) = false →
  let b := refilled rl t st u ep in
  let rl1 := maybe_cleanup rl t st in
  check_rate_limit rl t st u ep =
    (_log_request (set_bucket rl1 u ep b) u ep t false,
     Raises (_format_rate_limit_error u ep
               (mkInfo u ep (get_limit rl1 ep) (tokens b) (_get_reset_time rl1 b t)))).
Proof. unfold check_rate_limit, refilled. intros ->. reflexivity. Qed.



(** *** The token-bucket invariant *)

Lemma config_ok_limit rl ep : config_ok rl → (0 <= get_limit rl ep)%Z.
Proof.
  intros [Hr _].
  destruct (get_limit_cases rl ep) as [-> | [-> | [-> | ->]]]; try lia.
  apply Z.div_pos; lia.
Qed.

Lemma inject_Z_nonneg z : (0 <= z)%Z → 0 <= inject_Z z.
Proof. intros H. change 0 with (inject_Z 0). by rewrite <- Zle_Qle. Qed.

Lemma div60 e : e / 60 == e * (1 # 60).
Proof. field. Qed.




Lemma py_min_le_r a b : py_min a b <= b.
Proof. unfold py_min. destruct (Qlt_le_dec b a); lra. Qed.



Lemma bucket_of_sweep rl st u ep b :
  bucket_of (_cleanup_old_entries rl st) u ep = Some b →
  bucket_of rl u ep = Some b ∧ stale st b = false.
Proof.
  unfold bucket_of, _cleanup_old_entries; simpl.
  rewrite lookup_omap.
  destruct (buckets rl !! u) as [ub|]; simpl; [|done].
  unfold sweep_buckets. case_decide; simpl; [done|].
  rewrite lookup_omap. destruct (ub !! ep) as [b'|]; simpl; [|done].
  destruct (stale st b') eqn:E; [done|]. by intros [= <-].
Qed.

Lemma bucket_of_maybe_cleanup rl t st u ep b :
  bucket_of (maybe_cleanup rl t st) u ep = Some b → bucket_of rl u ep = Some b.
Proof.
  unfold maybe_cleanup. destruct (sweep_due rl t); [|done].
  intros H. by apply (bucket_of_sweep rl st).
Qed.







Lemma bucket_of_get_user_stats rl t u u' ep' :
  bucket_of (get_user_stats rl t u).1 u' ep' =
  if decide (u = u')
  then refill_for_stats rl t ep' <$> bucket_of rl u' ep'
  else bucket_of rl u' ep'.
Proof.
  unfold bucket_of, get_user_stats; cbn [fst buckets].
  case_decide as Hd.
  - subst u'. rewrite lookup_alter_eq.
    destruct (buckets rl !! u) as [ub|]; cbn; [|done].
    rewrite map_lookup_imap. by destruct (ub !! ep').
  - by rewrite lookup_alter_ne.
Qed.







(** *** Exhausting a bucket with rapid calls, and its refill *)

Lemma check_rate_limit_config rl t st u ep :
  requests_per_minute (check_rate_limit rl t st u ep).1 = requests_per_minute rl
  ∧ burst_allowance (check_rate_limit rl t st u ep).1 = burst_allowance rl.
Proof.
  unfold check_rate_limit.
  destruct (Qle_bool 1 _); cbn; apply maybe_cleanup_config.
Qed.

Lemma get_limit_check rl t st u ep ep' :
  get_limit (check_rate_limit rl t st u ep).1 ep' = get_limit rl ep'.
Proof. unfold get_limit. by rewrite (proj1 (check_rate_limit_config rl t st u ep)). Qed.

Lemma sweep_due_after_cleanup rl t st : sweep_due (maybe_cleanup rl t st) t = false.
Proof.
  unfold maybe_cleanup. destruct (sweep_due rl t) eqn:E; [|done].
  unfold sweep_due, cleanup_interval; cbn [last_cleanup set_last_cleanup].
  apply negb_false_iff, Qle_bool_true. lra.
Qed.

Lemma sweep_due_check rl t st u ep :
  sweep_due (check_rate_limit rl t st u ep).1 t = false.
Proof.
  pose proof (sweep_due_after_cleanup rl t st) as H.
  unfold check_rate_limit. by destruct (Qle_bool 1 _).
Qed.

Lemma maybe_cleanup_not_due rl t st : sweep_due rl t = false → maybe_cleanup rl t st = rl.
Proof. unfold maybe_cleanup. by intros ->. Qed.

Lemma bucket_or_new_spec rl u ep limit t :
  bucket_or_new rl u ep limit t =
  default (mkBucket (inject_Z limit) t) (bucket_of rl u ep).
Proof.
  unfold bucket_or_new, bucket_of.
  destruct (buckets rl !! u); cbn; [done|]. by rewrite lookup_empty.
Qed.

Lemma bucket_of_check_same rl t st u ep :
  ∃ b, bucket_of (check_rate_limit rl t st u ep).1 u ep = Some b
       ∧ last_refill b = t
       ∧ (if Qle_bool 1 (tokens (refilled rl t st u ep))
          then tokens b = tokens (refilled rl t st u ep) - 1
          else tokens b = tokens (refilled rl t st u ep)).
Proof.
  destruct (Qle_bool 1 (tokens (refilled rl t st u ep))) eqn:E.
  - rewrite (check_rate_limit_allowed rl t st u ep E). cbn [fst].
    rewrite bucket_of_log_request, bucket_of_set_bucket, decide_True by done.
    eexists. split; [done|]. split; [|done]. reflexivity.
  - rewrite (check_rate_limit_denied rl t st u ep E). cbn [fst].
    rewrite bucket_of_log_request, bucket_of_set_bucket, decide_True by done.
    eexists. split; [done|]. split; [|done]. reflexivity.
Qed.

Lemma check_result_by_tokens rl t st u ep :
  is_allowed (check_rate_limit rl t st u ep).2 = Qle_bool 1 (tokens (refilled rl t st u ep))
  ∧ is_raise (check_rate_limit rl t st u ep).2 = negb (Qle_bool 1 (tokens (refilled rl t st u ep))).
Proof.
  destruct (Qle_bool 1 (tokens (refilled rl t st u ep))) eqn:E.
  - by rewrite (check_rate_limit_allowed rl t st u ep E).
  - by rewrite (check_rate_limit_denied rl t st u ep E).
Qed.

(** The refill at the very clock reading of the last refill adds nothing. *)
Lemma refilled_same_time rl t st u ep b :
  sweep_due rl t = false → bucket_of rl u ep = Some b → last_refill b = t →
  tokens b <= inject_Z (get_limit rl ep + burst_allowance rl) →
  tokens (refilled rl t st u ep) == tokens b.
Proof.
  intros Hs Hb Hl Hle. unfold refilled.
  rewrite maybe_cleanup_not_due by done.
  rewrite bucket_or_new_spec, Hb. cbn [from_option id].
  unfold _refill_bucket, tokens_to_add, py_min. cbn [tokens]. rewrite Hl.
  destruct (Qlt_le_dec _ _) as [Hlt|Hge].
  - rewrite div60. ring.
  - rewrite div60 in Hge. 
    assert (tokens b + (t - t) * (1 # 60) * inject_Z (get_limit rl ep) == tokens b) as Heq by ring.
    rewrite Heq in Hge. lra.
Qed.

Lemma refilled_fresh rl t st u ep :
  bucket_of rl u ep = None → (0 <= burst_allowance rl)%Z →
  tokens (refilled rl t st u ep) == inject_Z (get_limit rl ep).
Proof.
  intros Hb Hbu. unfold refilled.
  assert (bucket_of (maybe_cleanup rl t st) u ep = None) as Hb'.
  { destruct (bucket_of (maybe_cleanup rl t st) u ep) eqn:E; [|done].
    apply bucket_of_maybe_cleanup in E. congruence. }
  rewrite bucket_or_new_spec, Hb'. cbn [from_option id].
  rewrite get_limit_maybe_cleanup.
  unfold _refill_bucket, tokens_to_add, py_min. cbn [tokens last_refill].
  rewrite (proj2 (maybe_cleanup_config rl t st)).
  destruct (Qlt_le_dec _ _) as [Hlt|Hge].
  - rewrite div60. ring.
  - rewrite div60 in Hge. rewrite inject_Z_plus in *.
    pose proof (inject_Z_nonneg _ Hbu).
    assert (inject_Z (get_limit rl ep) + (t - t) * (1 # 60) * inject_Z (get_limit rl ep)
            == inject_Z (get_limit rl ep)) as Heq by ring.
    rewrite Heq in Hge. lra.
Qed.

Lemma run_checks_cons rl u c cs :
  let r := check_rate_limit rl (c_time c) (c_sweep c) u (c_endpoint c) in
  (run_checks rl u (c :: cs)).1 = (run_checks r.1 u cs).1
  ∧ (run_checks rl u (c :: cs)).2 = r.2 :: (run_checks r.1 u cs).2.
Proof.
  cbn. destruct (check_rate_limit _ _ _ _ _) as [rl1 r]. cbn.
  by destruct (run_checks rl1 u cs).
Qed.

Lemma rapid_run u ep t0 cs : ∀ rl (n : nat) b,
  Forall (rapid t0 ep) cs →
  sweep_due rl t0 = false →
  bucket_of rl u ep = Some b → last_refill b = t0 →
  tokens b == inject_Z (Z.of_nat n) →
  (Z.of_nat n <= get_limit rl ep + burst_allowance rl)%Z →
  map is_allowed (run_checks rl u cs).2
    = repeat true (min n (length cs)) ++ repeat false (length cs - n)
  ∧ map is_raise (run_checks rl u cs).2 = map negb (map is_allowed (run_checks rl u cs).2)
  ∧ sweep_due (run_checks rl u cs).1 t0 = false
  ∧ requests_per_minute (run_checks rl u cs).1 = requests_per_minute rl
  ∧ burst_allowance (run_checks rl u cs).1 = burst_allowance rl
  ∧ ∃ b', bucket_of (run_checks rl u cs).1 u ep = Some b'
          ∧ last_refill b' = t0
          ∧ tokens b' == inject_Z (Z.of_nat (n - min n (length cs))).
Proof.
  induction cs as [|c cs IH]; intros rl n b Hr Hs Hb Hl Ht Hn.
  - cbn. rewrite Nat.min_0_r, Nat.sub_0_r. repeat split; try done. by exists b.
  - apply Forall_cons in Hr as [[Hct Hce] Hr].
    destruct (run_checks_cons rl u c cs) as [-> ->]. rewrite Hct, Hce.
    set (st := c_sweep c).
    assert (tokens (refilled rl t0 st u ep) == inject_Z (Z.of_nat n)) as Hrf.
    { rewrite <- Ht. apply refilled_same_time; try done.
      rewrite Ht. by rewrite <- Zle_Qle. }
    destruct (check_result_by_tokens rl t0 st u ep) as [Ha Hx].
    destruct (bucket_of_check_same rl t0 st u ep) as (b1 & Hb1 & Hl1 & Ht1).
    destruct (check_rate_limit_config rl t0 st u ep) as [Hc1 Hc2].
    pose proof (sweep_due_check rl t0 st u ep) as Hs1.
    cbn [map length]. rewrite Ha, Hx.
    destruct n as [|m].
    + assert (Qle_bool 1 (tokens (refilled rl t0 st u ep)) = false) as E.
      { apply Qle_bool_false. rewrite Hrf. reflexivity. }
      rewrite E in *.
      destruct (IH _ 0%nat b1 Hr Hs1 Hb1 Hl1) as (I1 & I2 & I3 & I4 & I5 & I6).
      { by rewrite Ht1, Hrf. }
      { rewrite get_limit_check, Hc2. done. }
      split; [rewrite I1; cbn [Nat.min Nat.sub app repeat]; by rewrite Nat.sub_0_r|].
      split; [cbn [map negb]; by rewrite I2|].
      split; [done|]. split; [congruence|]. split; [congruence|].
      exact I6.
    + assert (Qle_bool 1 (tokens (refilled rl t0 st u ep)) = true) as E.
      { apply Qle_bool_true. rewrite Hrf. change 1 with (inject_Z 1).
        rewrite <- Zle_Qle. lia. }
      rewrite E in *.
      destruct (IH _ m b1 Hr Hs1 Hb1 Hl1) as (I1 & I2 & I3 & I4 & I5 & I6).
      { rewrite Ht1, Hrf, Nat2Z.inj_succ. unfold Z.succ.
        rewrite inject_Z_plus. ring. }
      { rewrite get_limit_check, Hc2. lia. }
      split; [rewrite I1; done|].
      split; [cbn [map negb]; by rewrite I2|].
      split; [done|]. split; [congruence|]. split; [congruence|].
      exact I6.
Qed.

Lemma map_negb_repeat b k : map negb (repeat b k) = repeat (negb b) k.
Proof. induction k; cbn; congruence. Qed.

Lemma refilled_after_minute rl t st u ep b :
  get_limit rl ep = 20%Z → burst_allowance rl = 5%Z →
  bucket_of rl u ep = Some b → 0 <= tokens b → last_refill b + 60 <= t →
  1 <= tokens (refilled rl t st u ep).
Proof.
  intros Hlim Hbu Hb H0 Ht. unfold refilled.
  rewrite get_limit_maybe_cleanup, Hlim, bucket_or_new_spec.
  unfold _refill_bucket, tokens_to_add, py_min. cbn [tokens].
  rewrite (proj2 (maybe_cleanup_config rl t st)), Hbu.
  destruct (bucket_of (maybe_cleanup rl t st) u ep) as [b'|] eqn:E;
    cbn [from_option id tokens last_refill].
  - apply bucket_of_maybe_cleanup in E. assert (b' = b) as -> by congruence.
    destruct (Qlt_le_dec _ _) as [Hlt|Hge]; [|vm_compute; discriminate].
    rewrite div60. change (inject_Z 20) with 20. lra.
  - destruct (Qlt_le_dec _ _) as [Hlt|Hge]; [|vm_compute; discriminate].
    rewrite div60. change (inject_Z 20) with 20. lra.
Qed.

(** C3: with a limit of 20 and a burst allowance of 5, of 25 checks a user
    makes on an endpoint it has no bucket for, with no elapsed time between
    them, the first 20 are allowed and the other 5 raise, as does every
    further check at that clock reading; the first check made at least 60
    seconds later is allowed again. *)
Theorem rapid_burst_then_refill rl u ep t0 cs t st
    (Hrpm : requests_per_minute rl = 20%Z)
    (Hburst : burst_allowance rl = 5%Z)
    (Hlim : get_limit rl ep = 20%Z)
    (Hfresh : bucket_of rl u ep = None)
    (Hrapid : Forall (rapid t0 ep) cs)
    (Hlen : length cs = 25%nat)
    (Hwait : t0 + 60 <= t) :
  map is_allowed (run_checks rl u cs).2 = repeat true 20 ++ repeat false 5
  ∧ map is_raise (run_checks rl u cs).2 = repeat false 20 ++ repeat true 5
  ∧ (∀ cs', Forall (rapid t0 ep) cs' →
       map is_raise (run_checks (run_checks rl u cs).1 u cs').2
       = repeat true (length cs'))
  ∧ is_allowed (check_rate_limit (run_checks rl u cs).1 t st u ep).2 = true.
Proof.
  destruct cs as [|c cs]; [done|]. injection Hlen as Hlen.
  apply Forall_cons in Hrapid as [[Hct Hce] Hr].
  destruct (run_checks_cons rl u c cs) as [-> ->]. rewrite Hct, Hce.
  set (st0 := c_sweep c).
  assert (tokens (refilled rl t0 st0 u ep) == 20) as Hrf.
  { rewrite refilled_fresh, Hlim; [done|done|lia]. }
  destruct (check_result_by_tokens rl t0 st0 u ep) as [Ha Hx].
  destruct (bucket_of_check_same rl t0 st0 u ep) as (b1 & Hb1 & Hl1 & Ht1).
  destruct (check_rate_limit_config rl t0 st0 u ep) as [Hc1 Hc2].
  pose proof (sweep_due_check rl t0 st0 u ep) as Hs1.
  assert (Qle_bool 1 (tokens (refilled rl t0 st0 u ep)) = true) as E.
  { apply Qle_bool_true. rewrite Hrf. vm_compute; discriminate. }
  rewrite E in *.
  destruct (rapid_run u ep t0 cs _ 19%nat b1 Hr Hs1 Hb1 Hl1)
    as (I1 & I2 & I3 & I4 & I5 & b2 & Hb2 & Hl2 & Ht2).
  { rewrite Ht1, Hrf. vm_compute; reflexivity. }
  { rewrite get_limit_check, Hc2, Hlim, Hburst. lia. }
  rewrite Hlen in *. cbn [Nat.min Nat.sub] in I1, Ht2.
  set (rl1 := (run_checks (check_rate_limit rl t0 st0 u ep).1 u cs).1) in *.
  assert (get_limit rl1 ep = 20%Z) as Hlim1.
  { unfold get_limit. rewrite I4, Hc1. exact Hlim. }
  assert (burst_allowance rl1 = 5%Z) as Hbu1 by congruence.
  split; [cbn [map]; by rewrite Ha, I1|].
  split; [cbn [map]; by rewrite Hx, I2, I1|].
  split.
  - intros cs' Hr'.
    destruct (rapid_run u ep t0 cs' rl1 0%nat b2 Hr' I3 Hb2 Hl2)
      as (J1 & J2 & _).
    { rewrite Ht2. vm_compute; reflexivity. }
    { rewrite Hlim1, Hbu1. lia. }
    rewrite J2, J1. cbn [Nat.min repeat app]. rewrite Nat.sub_0_r.
    apply map_negb_repeat.
  - rewrite (proj1 (check_result_by_tokens rl1 t st u ep)).
    apply Qle_bool_true.
    apply (refilled_after_minute rl1 t st u ep b2); try done.
    + rewrite Ht2. vm_compute; discriminate.
    + rewrite Hl2. done.
Qed.

Lemma rapid_burst_then_refill_witness :
  let rl := init 20 5 0 in
  let cs := repeat (mkCall 100 100 "websocket_message") 25 in
  map is_allowed (run_checks rl "alice" cs).2 = repeat true 20 ++ repeat false 5
  ∧ map is_raise (run_checks rl "alice" cs).2 = repeat false 20 ++ repeat true 5
  ∧ (∀ cs', Forall (rapid 100 "websocket_message") cs' →
       map is_raise (run_checks (run_checks rl "alice" cs).1 "alice" cs').2
       = repeat true (length cs'))
  ∧ is_allowed (check_rate_limit (run_checks rl "alice" cs).1 160 160
                  "alice" "websocket_message").2 = true.
Proof.
  intros rl cs.
  refine (rapid_burst_then_refill rl "alice" "websocket_message" 100 cs 160 160
            eq_refl eq_refl eq_refl eq_refl _ eq_refl _).
  - repeat constructor.
  - vm_compute; discriminate.
Defined.

(** *** Isolation between users *)

Lemma agree_except_refl u1 rl : agree_except u1 rl rl.
Proof. by repeat split. Qed.

Lemma agree_except_trans u1 a b c :
  agree_except u1 a b → agree_except u1 b c → agree_except u1 a c.
Proof.
  intros (A1 & A2 & A3 & A4) (B1 & B2 & B3 & B4).
  split; [congruence|]. split; [congruence|]. split; [congruence|].
  intros u Hu. destruct (A4 u Hu), (B4 u Hu). split; congruence.
Qed.

Lemma agree_except_sym u1 a b : agree_except u1 a b → agree_except u1 b a.
Proof.
  intros (A1 & A2 & A3 & A4). repeat split; try done.
  all: by destruct (A4 u H).
Qed.

Lemma agree_except_sweep_due u1 a b t :
  agree_except u1 a b → sweep_due a t = sweep_due b t.
Proof. intros (_ & _ & A3 & _). unfold sweep_due. by rewrite A3. Qed.

Lemma agree_except_get_limit u1 a b ep :
  agree_except u1 a b → get_limit a ep = get_limit b ep.
Proof. intros (A1 & _). unfold get_limit. by rewrite A1. Qed.

Lemma agree_except_maybe_cleanup u1 a b t st :
  agree_except u1 a b →
  agree_except u1 (maybe_cleanup a t st) (maybe_cleanup b t st).
Proof.
  intros A. unfold maybe_cleanup.
  rewrite <- (agree_except_sweep_due u1 a b t A).
  destruct (sweep_due a t); [|done].
  destruct A as (A1 & A2 & A3 & A4).
  split; [done|]. split; [done|]. split; [done|].
  intros u Hu. destruct (A4 u Hu) as [Hb Hh]. cbn.
  by rewrite !lookup_omap, Hb, Hh.
Qed.

(** Storing a bucket and logging a request for [u] touch [u]'s entries only. *)
Lemma store_lookup_other rl u ep b t h u' :
  u' ≠ u →
  buckets (_log_request (set_bucket rl u ep b) u ep t h) !! u' = buckets rl !! u'
  ∧ request_history (_log_request (set_bucket rl u ep b) u ep t h) !! u'
    = request_history rl !! u'.
Proof. intros Hu. cbn. by rewrite !lookup_insert_ne. Qed.

Lemma agree_except_store u1 a b u ep bk t h :
  agree_except u1 a b →
  agree_except u1 (_log_request (set_bucket a u ep bk) u ep t h)
                  (_log_request (set_bucket b u ep bk) u ep t h).
Proof.
  intros (A1 & A2 & A3 & A4).
  split; [done|]. split; [done|]. split; [done|].
  intros u' Hu'. destruct (decide (u' = u)) as [->|Hne].
  - destruct (A4 u Hu') as [Hb Hh]. cbn.
    by rewrite !lookup_insert_eq, Hb, Hh.
  - destruct (store_lookup_other a u ep bk t h u' Hne) as [-> ->].
    destruct (store_lookup_other b u ep bk t h u' Hne) as [-> ->].
    by apply A4.
Qed.

Lemma agree_except_refilled u1 a b t st u ep :
  agree_except u1 a b → u ≠ u1 →
  refilled a t st u ep = refilled b t st u ep.
Proof.
  intros A Hu. pose proof (agree_except_maybe_cleanup u1 a b t st A) as A'.
  unfold refilled.
  rewrite (agree_except_get_limit u1 _ _ ep A').
  destruct A' as (_ & A2 & _ & A4). destruct (A4 u Hu) as [Hb _].
  unfold bucket_or_new, _refill_bucket. by rewrite Hb, A2.
Qed.

(** A check by a user other than [u1] cannot see the difference. *)
Lemma check_agree_except u1 a b t st u ep :
  agree_except u1 a b → u ≠ u1 →
  (check_rate_limit a t st u ep).2 = (check_rate_limit b t st u ep).2
  ∧ agree_except u1 (check_rate_limit a t st u ep).1 (check_rate_limit b t st u ep).1.
Proof.
  intros A Hu.
  pose proof (agree_except_refilled u1 a b t st u ep A Hu) as Hr.
  pose proof (agree_except_maybe_cleanup u1 a b t st A) as A'.
  pose proof (agree_except_get_limit u1 _ _ ep A') as Hl.
  destruct (Qle_bool 1 (tokens (refilled a t st u ep))) eqn:E.
  - rewrite (check_rate_limit_allowed a t st u ep E).
    rewrite Hr in E. rewrite (check_rate_limit_allowed b t st u ep E).
    cbn [fst snd]. rewrite Hr, Hl. split.
    + unfold _get_reset_time. by rewrite (proj1 A').
    + by apply agree_except_store.
  - rewrite (check_rate_limit_denied a t st u ep E).
    rewrite Hr in E. rewrite (check_rate_limit_denied b t st u ep E).
    cbn [fst snd]. rewrite Hr, Hl. split.
    + unfold _get_reset_time. by rewrite (proj1 A').
    + by apply agree_except_store.
Qed.

Lemma run_checks_agree_except u1 u cs : ∀ a b,
  agree_except u1 a b → u ≠ u1 →
  (run_checks a u cs).2 = (run_checks b u cs).2
  ∧ agree_except u1 (run_checks a u cs).1 (run_checks b u cs).1.
Proof.
  induction cs as [|c cs IH]; intros a b A Hu; [done|].
  destruct (run_checks_cons a u c cs) as [-> ->].
  destruct (run_checks_cons b u c cs) as [-> ->].
  destruct (check_agree_except u1 a b (c_time c) (c_sweep c) u (c_endpoint c) A Hu)
    as [-> A1].
  destruct (IH _ _ A1 Hu) as [-> A2]. done.
Qed.

(** A check by [u1] that triggers no sweep changes [u1]'s entries only. *)
Lemma check_no_sweep_agree rl t st u1 ep :
  sweep_due rl t = false →
  agree_except u1 rl (check_rate_limit rl t st u1 ep).1.
Proof.
  intros Hs.
  assert (∀ b h, agree_except u1 rl
            (_log_request (set_bucket (maybe_cleanup rl t st) u1 ep b) u1 ep t h)) as H.
  { intros b h. rewrite maybe_cleanup_not_due by done.
    split; [done|]. split; [done|]. split; [done|].
    intros u Hu. by destruct (store_lookup_other rl u1 ep b t h u Hu) as [-> ->]. }
  unfold check_rate_limit. destruct (Qle_bool 1 _); apply H.
Qed.

Lemma run_checks_no_sweep_agree u1 cs : ∀ rl,
  Forall (λ c, sweep_due rl (c_time c) = false) cs →
  agree_except u1 rl (run_checks rl u1 cs).1.
Proof.
  induction cs as [|c cs IH]; intros rl Hns; [apply agree_except_refl|].
  apply Forall_cons in Hns as [Hc Hns].
  destruct (run_checks_cons rl u1 c cs) as [-> _].
  pose proof (check_no_sweep_agree rl (c_time c) (c_sweep c) u1 (c_endpoint c) Hc) as A.
  eapply agree_except_trans; [exact A|]. apply IH.
  eapply Forall_impl; [exact Hns|]. intros c' Hc'. cbn in Hc'.
  by rewrite <- (agree_except_sweep_due u1 _ _ (c_time c') A).
Qed.

(** C1, as stated, fails: a check by one user can trigger the periodic
    sweep, which is global.  User "u2" makes one check at time 0.  If "u1"
    then makes a check at time 3500 (a sweep is due and finds the bucket of
    "u2" still fresh), the 21st of 21 checks of "u2" at time 3700 is
    allowed; had "u1" made no call, the first of these checks would sweep
    the bucket of "u2" away and the 21st would raise.  A check of "u1" at time
    4000 deletes the bucket of "u2". *)
Lemma isolation_broken_by_sweep :
  let ws := "websocket_message" in
  let rl := (check_rate_limit (init 20 5 0) 0 0 "u2" ws).1 in
  let rl1 := (run_checks rl "u1" [mkCall 3500 3500 ws]).1 in
  let rl2 := (run_checks rl "u1" [mkCall 4000 4000 ws]).1 in
  let later := repeat (mkCall 3700 3700 ws) 21 in
  "u1" ≠ "u2"
  ∧ map is_allowed (run_checks rl1 "u2" later).2 = repeat true 21
  ∧ map is_allowed (run_checks rl "u2" later).2 = repeat true 20 ++ [false]
  ∧ is_Some (bucket_of rl "u2" ws)
  ∧ bucket_of rl2 "u2" ws = None.
Proof.
  cbv zeta. split; [done|].
  split; [by vm_compute|]. split; [by vm_compute|].
  split; [|by vm_compute].
  assert (bucket_of (check_rate_limit (init 20 5 0) 0 0 "u2" "websocket_message").1
            "u2" "websocket_message" = Some (mkBucket (1140 # 60) 0)) as ->
    by (by vm_compute).
  by eexists.
Qed.

(** C1 (amended): for two distinct users, a sequence of checks by [u1] none
    of which triggers the periodic sweep leaves the buckets and the request
    history of [u2] unchanged, and every later sequence of checks by [u2]
    has the outcomes it would have had without the calls of [u1]. *)
Theorem isolation_without_sweep rl u1 u2 cs
    (Hne : u1 ≠ u2)
    (Hns : Forall (λ c, sweep_due rl (c_time c) = false) cs) :
  buckets (run_checks rl u1 cs).1 !! u2 = buckets rl !! u2
  ∧ request_history (run_checks rl u1 cs).1 !! u2 = request_history rl !! u2
  ∧ ∀ cs2, (run_checks (run_checks rl u1 cs).1 u2 cs2).2 = (run_checks rl u2 cs2).2.
Proof.
  pose proof (run_checks_no_sweep_agree u1 cs rl Hns) as A.
  assert (u2 ≠ u1) as Hne' by congruence.
  destruct (proj2 (proj2 (proj2 A)) u2 Hne') as [Hb Hh].
  split; [done|]. split; [done|].
  intros cs2.
  apply (run_checks_agree_except u1 u2 cs2); [|done].
  by apply agree_except_sym.
Qed.

Lemma isolation_without_sweep_witness :
  let rl := init 20 5 0 in
  let cs := repeat (mkCall 10 10 "websocket_message") 30 in
  buckets (run_checks rl "u1" cs).1 !! "u2" = buckets rl !! "u2"
  ∧ request_history (run_checks rl "u1" cs).1 !! "u2" = request_history rl !! "u2"
  ∧ ∀ cs2, (run_checks (run_checks rl "u1" cs).1 "u2" cs2).2 = (run_checks rl "u2" cs2).2.
Proof.
  intros rl cs.
  refine (isolation_without_sweep rl "u1" "u2" cs _ _).
  - discriminate.
  - repeat constructor.
Defined.

(** *** Statistics *)

(** Refilling at [t] and again at [t' >= t] gives the tokens of one refill
    at [t']. *)
Lemma get_user_stats_frame rl t u :
  request_history (get_user_stats rl t u).1 = request_history rl
  ∧ last_cleanup (get_user_stats rl t u).1 = last_cleanup rl
  ∧ requests_per_minute (get_user_stats rl t u).1 = requests_per_minute rl
  ∧ burst_allowance (get_user_stats rl t u).1 = burst_allowance rl.
Proof. done. Qed.

(** C8, as stated, fails for [get_user_stats]: it refills the buckets of
    the queried user in place, and a bucket refreshed that way survives a
    sweep that would otherwise have removed it.  After 20 checks at time 0
    and a statistics query at time 3500, the 21st of 21 checks at time 3700
    is allowed; without the query it raises. *)
Lemma user_stats_writes_buckets :
  let ws := "websocket_message" in
  let rl := (run_checks (init 20 5 0) "u" (repeat (mkCall 0 0 ws) 20)).1 in
  let rl' := (get_user_stats rl 3500 "u").1 in
  let later := repeat (mkCall 3700 3700 ws) 21 in
  last_refill <$> bucket_of rl "u" ws = Some 0
  ∧ bucket_of rl' "u" ws = Some (mkBucket 25 3500)
  ∧ buckets rl' ≠ buckets rl
  ∧ map is_allowed (run_checks rl' "u" later).2 = repeat true 21
  ∧ map is_allowed (run_checks rl "u" later).2 = repeat true 20 ++ [false].
Proof.
  cbv zeta.
  assert (∀ a b : RateLimiter,
            last_refill <$> bucket_of a "u" "websocket_message" = Some 0 →
            bucket_of b "u" "websocket_message" = Some (mkBucket 25 3500) →
            buckets b ≠ buckets a) as Hneq.
  { intros a b Ha Hb Heq. unfold bucket_of in *. rewrite Heq in Hb.
    rewrite Hb in Ha. discriminate. }
  split; [by vm_compute|]. split; [by vm_compute|].
  split; [apply Hneq; by vm_compute|].
  split; by vm_compute.
Qed.

(** C8 (amended): [get_system_stats] leaves the limiter unchanged.  For a
    [requests_per_minute] that is not zero (at zero the reset time of a
    bucket with less than one token cannot be computed and the query
    stops), [get_user_stats] leaves the request history, the configuration,
    the time of the last sweep and the buckets of all other users
    unchanged, and replaces each bucket of the queried user by its refill
    at the time of the query; it creates no bucket, and for a user without
    buckets it changes nothing.  What a later check answers is not part of
    the statement: the refill moves [last_refill], and the code adds the
    tokens of the two intervals in two steps. *)
Theorem stats_effects rl t (Hrpm : requests_per_minute rl ≠ 0%Z) :
  (get_system_stats rl t).1 = rl
  ∧ (∀ u, request_history (get_user_stats rl t u).1 = request_history rl
          ∧ last_cleanup (get_user_stats rl t u).1 = last_cleanup rl
          ∧ requests_per_minute (get_user_stats rl t u).1 = requests_per_minute rl
          ∧ burst_allowance (get_user_stats rl t u).1 = burst_allowance rl)
  ∧ (∀ u u', u' ≠ u →
       buckets (get_user_stats rl t u).1 !! u' = buckets rl !! u')
  ∧ (∀ u ep, bucket_of (get_user_stats rl t u).1 u ep
             = refill_for_stats rl t ep <$> bucket_of rl u ep)
  ∧ (∀ u, buckets rl !! u = None → (get_user_stats rl t u).1 = rl).
Proof.
  split; [done|]. split; [intros; apply get_user_stats_frame|].
  split; [|split].
  - intros u u' Hne. cbn. by rewrite lookup_alter_ne.
  - intros u ep. rewrite bucket_of_get_user_stats. by rewrite decide_True.
  - intros u Hu. destruct rl as [rpm burst bs hs lc]. cbn in *. f_equal.
    apply map_eq. intros k. destruct (decide (k = u)) as [->|Hne].
    + by rewrite lookup_alter_eq, Hu.
    + by rewrite lookup_alter_ne.
Qed.

Lemma stats_effects_witness :
  let rl := (check_rate_limit (init 20 5 0) 0 0 "u" "login").1 in
  (get_system_stats rl 30).1 = rl
  ∧ bucket_of (get_user_stats rl 30 "u").1 "u" "login"
    = refill_for_stats rl 30 "login" <$> bucket_of rl "u" "login"
  ∧ (get_user_stats rl 30 "v").1 = rl.
Proof.
  intros rl.
  assert (requests_per_minute rl ≠ 0%Z) as Hrpm by (vm_compute; discriminate).
  destruct (stats_effects rl 30 Hrpm) as (H1 & _ & _ & H4 & H5).
  split; [exact H1|]. split; [exact (H4 "u" "login")|].
  apply H5. vm_compute. reflexivity.
Defined.

End RateLimitProps.

(** ** Regular expressions *)

Module RegexProps.
Import Regex.

Lemma in_lens_Seq a b pw s k :
  In k (lens (Seq a b) pw s) ↔
  ∃ k1 k2, In k1 (lens a pw s)
           ∧ In k2 (lens b (pw_after pw s k1) (skipn k1 s))
           ∧ k = k1 + k2.
Proof.
  unfold lens. cbn [run]. rewrite in_map_iff. split.
  - intros ([k' c] & Hk & Hin). cbn in Hk. subst k'.
    apply in_flat_map in Hin as ([k1 c1] & H1 & H2).
    apply in_map_iff in H2 as ([k2 c2] & Heq & H2). cbn in Heq.
    injection Heq as Hk _. exists k1, k2. repeat split.
    + apply in_map_iff. by exists (k1, c1).
    + apply in_map_iff. by exists (k2, c2).
    + done.
  - intros (k1 & k2 & H1 & H2 & ->).
    apply in_map_iff in H1 as ([k1' c1] & Hk1 & H1). cbn in Hk1. subst k1'.
    apply in_map_iff in H2 as ([k2' c2] & Hk2 & H2). cbn in Hk2. subst k2'.
    eexists (k1 + k2, _). split; [done|].
    apply in_flat_map. exists (k1, c1). split; [done|].
    apply in_map_iff. exists (k2, c2). split; [|done]. reflexivity.
Qed.

Lemma in_lens_Alt a b pw s k :
  In k (lens (Alt a b) pw s) ↔ In k (lens a pw s) ∨ In k (lens b pw s).
Proof. unfold lens. cbn [run]. rewrite map_app. apply in_app_iff. Qed.

Lemma in_lens_Opt a pw s k :
  In k (lens (Opt a) pw s) ↔ In k (lens a pw s) ∨ k = 0.
Proof.
  unfold lens. cbn [run]. rewrite map_app, in_app_iff. cbn. naive_solver.
Qed.

Lemma lens_Grp a pw s : lens (Grp a) pw s = lens a pw s.
Proof. unfold lens. cbn [run]. rewrite map_map. by apply map_ext. Qed.

Lemma lens_Rep g c lo hi pw s :
  lens (Rep g c lo hi) pw s = counts g lo (bounded (span c s) hi).
Proof. unfold lens. cbn [run]. rewrite map_map. cbn. apply map_id. Qed.

Lemma in_counts g lo n k : In k (counts g lo n) ↔ lo ≤ k ≤ n.
Proof.
  unfold counts. destruct g; rewrite <- ?in_rev, in_seq; lia.
Qed.

Lemma in_lens_Rep g c lo hi pw s k :
  In k (lens (Rep g c lo hi) pw s) ↔ lo ≤ k ≤ bounded (span c s) hi.
Proof. rewrite lens_Rep. apply in_counts. Qed.

Lemma in_lens_Chr c pw s k :
  In k (lens (Chr c) pw s) ↔ k = 1 ∧ ∃ a s', s = a :: s' ∧ c a = true.
Proof.
  unfold lens. cbn [run]. destruct s as [|a s']; cbn.
  - split; [done|]. by intros [_ (? & ? & ? & _)].
  - destruct (c a) eqn:E; cbn.
    + split.
      * intros [<-|[]]. split; [done|]. by exists a, s'.
      * intros [-> _]. by left.
    + split; [done|]. intros [_ (a' & s'' & [= <- <-] & Hc)]. congruence.
Qed.

Lemma in_lens_Bnd pw s k :
  In k (lens Bnd pw s) ↔ k = 0 ∧ xorb pw (wnext s) = true.
Proof.
  unfold lens. cbn [run]. destruct (xorb pw (wnext s)); cbn; naive_solver.
Qed.

Lemma in_lens_Eps pw s k : In k (lens Eps pw s) ↔ k = 0.
Proof. unfold lens. cbn. naive_solver. Qed.

Lemma span_le c s : span c s ≤ length s.
Proof. induction s as [|a s IH]; cbn; [lia|]. destruct (c a); cbn; lia. Qed.

Lemma bounded_le n hi : bounded n hi ≤ n.
Proof. destruct hi; cbn; lia. Qed.

(** A match consumes no more than there is. *)
Lemma lens_le r : ∀ pw s k, In k (lens r pw s) → k ≤ length s.
Proof.
  induction r as [|c| | |a IHa b IHb|a IHa b IHb|a IHa|g c lo hi|a IHa];
    intros pw s k Hk.
  - apply in_lens_Eps in Hk. lia.
  - apply in_lens_Chr in Hk as [-> (a & s' & -> & _)]. cbn. lia.
  - apply in_lens_Bnd in Hk. lia.
  - unfold lens in Hk. cbn in Hk. destruct s as [|a s]; cbn in Hk.
    + naive_solver lia.
    + destruct (is_char _ a); cbn in Hk; naive_solver lia.
  - apply in_lens_Seq in Hk as (k1 & k2 & H1 & H2 & ->).
    apply IHa in H1. apply IHb in H2. rewrite length_skipn in H2. lia.
  - apply in_lens_Alt in Hk as [H|H]; eauto.
  - apply in_lens_Opt in Hk as [H| ->]; [eauto|lia].
  - apply in_lens_Rep in Hk.
    pose proof (span_le c s). pose proof (bounded_le (span c s) hi). lia.
  - rewrite lens_Grp in Hk. eauto.
Qed.

(** *** A match depends on its text and on the word boundaries around it *)

Lemma wnext_app m rest : wnext (m ++ rest) = nextw m (wnext rest).
Proof. by destruct m. Qed.

Lemma nextw_app m1 m2 nw : nextw (m1 ++ m2) nw = nextw m1 (nextw m2 nw).
Proof. by destruct m1. Qed.

Lemma pw_after_app pw m rest k :
  k ≤ length m → pw_after pw (m ++ rest) k = pw_after pw m k.
Proof.
  destruct k as [|k]; [done|]. intros Hk. cbn.
  rewrite nth_error_app1 by lia. done.
Qed.

Lemma wend_nonempty pw pw' m : m ≠ [] → wend pw m = wend pw' m.
Proof. destruct m; [done|]. intros _. reflexivity. Qed.

Lemma wend_app pw m1 m2 : wend pw (m1 ++ m2) = wend (wend pw m1) m2.
Proof.
  unfold wend. destruct m2 as [|b m2].
  - rewrite app_nil_r. reflexivity.
  - rewrite length_app. cbn [length].
    replace (length m1 + S (length m2)) with (S (length m1 + length m2)) by lia.
    cbn [pw_after]. rewrite nth_error_app2 by lia.
    replace (length m1 + length m2 - length m1) with (length m2) by lia.
    reflexivity.
Qed.

Lemma pw_after_wend pw m rest : pw_after pw (m ++ rest) (length m) = wend pw m.
Proof. by apply pw_after_app. Qed.

Lemma ctx_ok_left m1 m2 pw nw pw' nw' :
  ctx_ok (m1 ++ m2) pw nw pw' nw' →
  ctx_ok m1 pw (nextw m2 nw) pw' (nextw m2 nw').
Proof.
  unfold ctx_ok. intros [H1 H2]. split.
  - by rewrite !nextw_app in H1.
  - destruct m1 as [|a m1].
    + exact H1.
    + destruct m2 as [|b m2]; [by rewrite app_nil_r in H2|].
      cbn [nextw]. by rewrite (wend_nonempty pw pw').
Qed.

Lemma ctx_ok_right m1 m2 pw nw pw' nw' :
  ctx_ok (m1 ++ m2) pw nw pw' nw' →
  ctx_ok m2 (wend pw m1) nw (wend pw' m1) nw'.
Proof.
  intros H. split.
  - apply (ctx_ok_left m1 m2 pw nw pw' nw' H).
  - unfold ctx_ok in H. destruct H as [_ H2]. by rewrite !wend_app in H2.
Qed.

Lemma span_ge c s k :
  k ≤ span c s ↔ k ≤ length s ∧ forallb c (firstn k s) = true.
Proof.
  revert k. induction s as [|a s IH]; intros k; cbn.
  - destruct k; cbn; naive_solver lia.
  - destruct k as [|k]; cbn; [naive_solver lia|].
    destruct (c a); cbn; [|naive_solver lia].
    rewrite <- Nat.succ_le_mono, IH. naive_solver lia.
Qed.

Lemma bounded_ge k n hi :
  k ≤ bounded n hi ↔ k ≤ n ∧ match hi with Some h => k ≤ h | None => True end.
Proof. destruct hi; cbn; lia. Qed.

Lemma transfer r :
  eol_free r = true →
  ∀ m rest rest' pw pw',
    In (length m) (lens r pw (m ++ rest)) →
    ctx_ok m pw (wnext rest) pw' (wnext rest') →
    In (length m) (lens r pw' (m ++ rest')).
Proof.
  induction r as [|c| | |a IHa b IHb|a IHa b IHb|a IHa|g c lo hi|a IHa];
    cbn [eol_free]; intros He m rest rest' pw pw' Hin Hctx.
  - done.
  - apply in_lens_Chr in Hin as [Hl (a & s' & Hs & Hc)].
    destruct m as [|a' [|? ?]]; try done. cbn in Hs. injection Hs as -> _.
    apply in_lens_Chr. split; [done|]. by exists a, rest'.
  - apply in_lens_Bnd in Hin as [Hl Hx].
    destruct m; [|done]. apply in_lens_Bnd. split; [done|].
    unfold ctx_ok in Hctx. destruct Hctx as [H1 _]. cbn in *. auto.
  - done.
  - apply andb_true_iff in He as [Hea Heb].
    apply in_lens_Seq in Hin as (k1 & k2 & H1 & H2 & Hk).
    pose proof (lens_le _ _ _ _ H2) as Hle. rewrite length_skipn, length_app in Hle.
    assert (k1 ≤ length m) as Hk1 by lia.
    assert (length (firstn k1 m) = k1) as Hl1 by (rewrite length_firstn; lia).
    assert (length (skipn k1 m) = k2) as Hl2 by (rewrite length_skipn; lia).
    pose proof (firstn_skipn k1 m) as Hm.
    set (m1 := firstn k1 m) in *. set (m2 := skipn k1 m) in *.
    clearbody m1 m2. subst k1 k2 m.
    rewrite <- app_assoc in H1, H2.
    rewrite pw_after_wend, drop_app_length in H2.
    rewrite length_app. apply in_lens_Seq. exists (length m1), (length m2).
    rewrite <- app_assoc, pw_after_wend, drop_app_length.
    split; [|split; [|done]].
    + apply (IHa Hea m1 (m2 ++ rest) (m2 ++ rest') pw pw' H1).
      rewrite !wnext_app. by apply ctx_ok_left.
    + apply (IHb Heb m2 rest rest' _ _ H2). by apply ctx_ok_right.
  - apply andb_true_iff in He as [Hea Heb].
    apply in_lens_Alt. apply in_lens_Alt in Hin as [H|H]; eauto.
  - apply in_lens_Opt. apply in_lens_Opt in Hin as [H|H]; eauto.
  - apply in_lens_Rep. apply in_lens_Rep in Hin as [Hlo Hhi].
    split; [done|]. apply bounded_ge in Hhi as [Hs Hh].
    apply bounded_ge. split; [|done].
    apply span_ge in Hs as [_ Hf]. apply span_ge.
    rewrite length_app. split; [lia|].
    by rewrite take_app_length in *.
  - rewrite lens_Grp in *. eauto.
Qed.

(** *** What the syntactic tests guarantee *)

Lemma firstn_plus {A} (s : list A) k1 k2 :
  firstn (k1 + k2) s = firstn k1 s ++ firstn k2 (skipn k1 s).
Proof.
  revert s. induction k1 as [|k1 IH]; intros s; [done|].
  destruct s as [|a s]; cbn; [by rewrite firstn_nil|]. by rewrite IH.
Qed.

Lemma pw_after_plus pw s k1 k2 :
  pw_after pw s (k1 + k2) = pw_after (pw_after pw s k1) (skipn k1 s) k2.
Proof.
  destruct k2 as [|k2]; [by rewrite Nat.add_0_r|].
  replace (k1 + S k2) with (S (k1 + k2)) by lia. cbn [pw_after].
  f_equal. revert s. induction k1 as [|k1 IH]; intros s; [done|].
  destruct s as [|a s]; cbn; [by destruct k2|]. apply IH.
Qed.

Lemma forallb_In {A} (f : A → bool) l x : forallb f l = true → In x l → f x = true.
Proof. intros H Hx. by apply (proj1 (forallb_forall f l) H). Qed.

Lemma avoids_spec x r :
  avoids x r = true → ∀ pw s k, In k (lens r pw s) → ¬ In x (firstn k s).
Proof.
  induction r as [|c| | |a IHa b IHb|a IHa b IHb|a IHa|g c lo hi|a IHa];
    cbn [avoids]; intros Ha pw s k Hin Hx.
  - apply in_lens_Eps in Hin as ->. by rewrite firstn_O in Hx.
  - apply in_lens_Chr in Hin as [-> (a & s' & -> & Hc)].
    cbn in Hx. destruct Hx as [->|[]]. by rewrite Hc in Ha.
  - apply in_lens_Bnd in Hin as [-> _]. by rewrite firstn_O in Hx.
  - assert (k = 0) as ->.
    { unfold lens in Hin. cbn in Hin. destruct s as [|a s]; cbn in Hin.
      - by destruct Hin as [<-|[]].
      - destruct (is_char _ a); cbn in Hin; [by destruct Hin as [<-|[]]|done]. }
    by rewrite firstn_O in Hx.
  - apply andb_true_iff in Ha as [Haa Hab].
    apply in_lens_Seq in Hin as (k1 & k2 & H1 & H2 & ->).
    rewrite firstn_plus in Hx. apply in_app_iff in Hx as [Hx|Hx].
    + by eapply IHa.
    + by eapply IHb.
  - apply andb_true_iff in Ha as [Haa Hab].
    apply in_lens_Alt in Hin as [H|H]; [by eapply IHa|by eapply IHb].
  - apply in_lens_Opt in Hin as [H| ->]; [by eapply IHa|by rewrite firstn_O in Hx].
  - apply in_lens_Rep in Hin as [_ Hhi]. apply bounded_ge in Hhi as [Hs _].
    apply span_ge in Hs as [_ Hf].
    rewrite (forallb_In _ _ _ Hf Hx) in Ha. done.
  - rewrite lens_Grp in Hin. by eapply IHa.
Qed.

Lemma nonempty_spec r :
  nonempty r = true → ∀ pw s k, In k (lens r pw s) → 0 < k.
Proof.
  induction r as [|c| | |a IHa b IHb|a IHa b IHb|a IHa|g c lo hi|a IHa];
    cbn [nonempty]; intros Hn pw s k Hin; try done.
  - apply in_lens_Chr in Hin as [-> _]. lia.
  - apply in_lens_Seq in Hin as (k1 & k2 & H1 & H2 & ->).
    apply orb_true_iff in Hn as [Hn|Hn].
    + specialize (IHa Hn _ _ _ H1). lia.
    + specialize (IHb Hn _ _ _ H2). lia.
  - apply andb_true_iff in Hn as [Hna Hnb].
    apply in_lens_Alt in Hin as [H|H]; eauto.
  - apply in_lens_Rep in Hin as [Hlo _].
    apply negb_true_iff, Nat.eqb_neq in Hn. lia.
  - rewrite lens_Grp in Hin. eauto.
Qed.

Lemma ends_bnd_spec r :
  ends_bnd r = true → ∀ pw s k, In k (lens r pw s) →
  xorb (pw_after pw s k) (wnext (skipn k s)) = true.
Proof.
  induction r as [|c| | |a IHa b IHb|a IHa b IHb|a IHa|g c lo hi|a IHa];
    cbn [ends_bnd]; intros He pw s k Hin; try done.
  - by apply in_lens_Bnd in Hin as [-> H].
  - apply in_lens_Seq in Hin as (k1 & k2 & H1 & H2 & ->).
    specialize (IHb He _ _ _ H2).
    by rewrite pw_after_plus, <- drop_drop.
Qed.

Lemma in_all_chars a : In a all_chars.
Proof.
  unfold all_chars. apply in_map_iff. exists (nat_of_ascii a).
  split; [apply ascii_nat_embedding|].
  apply in_seq. pose proof (nat_ascii_bounded a). lia.
Qed.

Lemma never_word_spec c a : never_word c = true → c a = true → is_word a = false.
Proof.
  intros H Hc. pose proof (forallb_In _ _ a H (in_all_chars a)) as Ha.
  cbn beta in Ha. rewrite Hc in Ha. by destruct (is_word a).
Qed.

Lemma starts_ok_spec r :
  starts_ok r = true → ∀ pw s k, In k (lens r pw s) → pw = true → wnext s = false.
Proof.
  destruct r as [|c| | |a b|a b|a|g c lo hi|a]; try done.
  destruct a as [|c| | |? ?|? ?|?|? ? ? ?|?]; try done; cbn [starts_ok];
    intros Hs pw s k Hin ->;
    apply in_lens_Seq in Hin as (k1 & k2 & H1 & _).
  - apply in_lens_Chr in H1 as [_ (a & s' & -> & Hc)]. cbn.
    by eapply never_word_spec.
  - apply in_lens_Bnd in H1 as [_ Hx]. by destruct (wnext s).
Qed.

(** *** Texts without a match *)

Lemma nil_no_In {A} (l : list A) : (∀ x, ¬ In x l) → l = [].
Proof. destruct l as [|a l]; [done|]. intros H. destruct (H a). by left. Qed.

Lemma nomatch_head r pw s : nomatch r pw s = true → lens r pw s = [].
Proof. destruct s; cbn; by destruct (lens r pw _). Qed.

Lemma nomatch_tail r pw a s : nomatch r pw (a :: s) = true → nomatch r (is_word a) s = true.
Proof. cbn. by destruct (lens r pw _). Qed.

Lemma nomatch_intro r pw s :
  lens r pw s = [] →
  match s with [] => True | a :: s' => nomatch r (is_word a) s' = true end →
  nomatch r pw s = true.
Proof. intros H1 H2. destruct s; cbn; by rewrite H1. Qed.

Lemma nomatch_drop r k : ∀ pw s,
  nomatch r pw s = true → k ≤ length s →
  nomatch r (pw_after pw s k) (skipn k s) = true.
Proof.
  induction k as [|k IH]; intros pw s H Hk; [done|].
  destruct s as [|a s]; [cbn in Hk; lia|].
  apply nomatch_tail in H. cbn in Hk.
  specialize (IH _ _ H ltac:(lia)).
  destruct k; [done|]. exact IH.
Qed.

Lemma filter_all {A} (l : list A) : List.filter (λ _, true) l = l.
Proof. induction l; cbn; congruence. Qed.

Lemma first_match_free r pw s : first_match r false pw s = head (run r pw s).
Proof. unfold first_match. cbn. by rewrite filter_all. Qed.

Lemma lens_nil r pw s : lens r pw s = [] ↔ run r pw s = [].
Proof. unfold lens. destruct (run r pw s); naive_solver. Qed.

Lemma scan_step_miss fuel r pw s :
  lens r pw s = [] →
  scan (S fuel) r false pw s =
  match s with [] => [] | a :: s' => Keep a :: scan fuel r false (is_word a) s' end.
Proof.
  intros H. apply lens_nil in H. cbn [scan]. by rewrite first_match_free, H.
Qed.

Lemma scan_step_hit fuel r pw s x l :
  nonempty r = true → run r pw s = x :: l →
  0 < x.1 ∧ In x.1 (lens r pw s)
  ∧ scan (S fuel) r false pw s =
    hit_of s x :: scan fuel r false (pw_after pw s x.1) (skipn x.1 s).
Proof.
  intros Hn H.
  assert (In x.1 (lens r pw s)) as Hin.
  { unfold lens. rewrite H. by left. }
  pose proof (nonempty_spec r Hn _ _ _ Hin) as Hpos.
  split; [done|]. split; [done|].
  cbn [scan]. rewrite first_match_free, H. cbn [head].
  destruct x.1; [lia|done].
Qed.

(** On a text without a match the scan keeps every character: [findall]
    finds nothing and [sub] returns the text. *)
Lemma scan_nomatch r fuel : ∀ pw s,
  nomatch r pw s = true → length s < fuel →
  scan fuel r false pw s = map Keep s.
Proof.
  induction fuel as [|fuel IH]; intros pw s H Hf; [lia|].
  rewrite scan_step_miss by (by apply nomatch_head).
  destruct s as [|a s]; [done|]. cbn. f_equal.
  apply IH; [by eapply nomatch_tail|cbn in Hf; lia].
Qed.

Lemma render_keep repl s : render repl (map Keep s) = s.
Proof.
  induction s as [|a s IH]; [done|].
  unfold render in *. cbn [map flat_map app]. by rewrite IH.
Qed.

Lemma groups_keep r s : groups r (map Keep s) = [].
Proof. by induction s. Qed.

Lemma nomatch_sub r repl s : nomatch r false s = true → sub r repl s = s.
Proof.
  intros H. unfold sub, scan_text.
  rewrite scan_nomatch; [apply render_keep|done|lia].
Qed.

Lemma nomatch_findall r s : nomatch r false s = true → findall r s = [].
Proof.
  intros H. unfold findall, scan_text.
  rewrite scan_nomatch; [apply groups_keep|done|lia].
Qed.

(** A scan that reports no match went over a text without a match. *)
Lemma groups_nil_nomatch r fuel : ∀ pw s,
  groups r (scan fuel r false pw s) = [] → length s < fuel →
  nomatch r pw s = true.
Proof.
  induction fuel as [|fuel IH]; intros pw s H Hf; [lia|].
  cbn [scan] in H. rewrite first_match_free in H.
  destruct (run r pw s) as [|x l] eqn:E; cbn [head] in H; [|done].
  apply nomatch_intro; [by apply lens_nil|].
  destruct s as [|a s]; [done|].
  cbn in H. apply IH; [done|cbn in Hf; lia].
Qed.

Lemma findall_nil_nomatch r s : findall r s = [] → nomatch r false s = true.
Proof. intros H. apply (groups_nil_nomatch r _ _ _ H). lia. Qed.

(** A block [u0 ++ [x]] whose last character no match of [r] can contain
    hides what follows it: if [r] matches nowhere in the block and nowhere
    after it, it matches nowhere in the two put together. *)
Lemma nomatch_app_block r x restY : 
  eol_free r = true → avoids x r = true →
  ∀ u0 pw,
    nomatch r pw (u0 ++ [x]) = true →
    nomatch r (is_word x) restY = true →
    nomatch r pw ((u0 ++ [x]) ++ restY) = true.
Proof.
  intros He Ha u0. induction u0 as [|a u0 IH]; intros pw Hu Hr.
  - apply nomatch_intro; [|done].
    apply nil_no_In. intros k Hk.
    destruct k as [|k].
    + pose proof (transfer r He [] ([x] ++ restY) [x] pw pw Hk) as Ht.
      rewrite (nomatch_head _ _ _ Hu) in Ht. apply Ht. by split.
    + apply (avoids_spec x r Ha _ _ _ Hk). by left.
  - apply nomatch_intro.
    + apply nil_no_In. intros k Hk.
      destruct (decide (k < length ((a :: u0) ++ [x]))) as [Hlt|Hge].
      * pose proof (firstn_skipn k ((a :: u0) ++ [x])) as Hsplit.
        set (m := firstn k ((a :: u0) ++ [x])) in *.
        set (u2 := skipn k ((a :: u0) ++ [x])) in *.
        assert (length m = k) as Hm by (unfold m; rewrite length_firstn; lia).
        assert (u2 ≠ []) as Hu2.
        { intros E. assert (length u2 = 0) as Hl by (by rewrite E).
          unfold u2 in Hl. rewrite length_skipn in Hl. lia. }
        rewrite <- Hsplit, <- app_assoc, <- Hm in Hk.
        pose proof (transfer r He m (u2 ++ restY) u2 pw pw Hk) as Ht.
        rewrite Hsplit, (nomatch_head _ _ _ Hu) in Ht. apply Ht.
        destruct u2; [done|]. by split.
      * apply (avoids_spec x r Ha _ _ _ Hk).
        rewrite firstn_app. apply in_app_iff. left.
        rewrite firstn_all2 by lia. apply in_app_iff. right. by left.
    + apply nomatch_tail in Hu. by apply IH.
Qed.

(** *** Substituting a bracketed token leaves no match behind *)

Section Clean.

(** [p] is the pattern that is looked for, [q] the one whose matches are
    replaced by [tok], a text that starts with an opening and ends with a
    closing brace. *)
Variables (p q : re) (u0 : text).
Let open_brace : ascii := "{"%char.
Let close_brace : ascii := "}"%char.
Let tok : text := open_brace :: u0 ++ [close_brace].

Hypothesis Hpe : eol_free p = true.
Hypothesis Hpo : avoids open_brace p = true.
Hypothesis Hpc : avoids close_brace p = true.
Hypothesis Hpn : nonempty p = true.
Hypothesis Hquiet : nomatch p false (u0 ++ [close_brace]) = true.
Hypothesis Hqn : nonempty q = true.
Hypothesis Hqe : ends_bnd q = true.
Hypothesis Hqs : starts_ok q = true.

Lemma render_hit s x items :
  render tok (hit_of s x :: items) = tok ++ render tok items.
Proof. reflexivity. Qed.

Lemma render_keep_cons a items :
  render tok (Keep a :: items) = a :: render tok items.
Proof. reflexivity. Qed.

Lemma nomatch_token pw restY :
  nomatch p false restY = true → nomatch p pw (tok ++ restY) = true.
Proof.
  intros Hr. apply nomatch_intro.
  - apply nil_no_In. intros k Hk.
    pose proof (nonempty_spec p Hpn _ _ _ Hk) as Hpos.
    apply (avoids_spec open_brace p Hpo _ _ _ Hk).
    destruct k; [lia|]. by left.
  - cbn [tok app].
    change (is_word open_brace) with false.
    by apply (nomatch_app_block p close_brace restY Hpe Hpc u0 false).
Qed.

(** A brace-free prefix of the output of the scan is a prefix of its input,
    and a word boundary after it in the output is one in the input. *)
Lemma scan_prefix m : ∀ fuel s pw restY,
  length s < fuel →
  render tok (scan fuel q false pw s) = m ++ restY →
  ¬ In open_brace m →
  ∃ restX, s = m ++ restX
    ∧ (wnext restY = wnext restX
       ∨ (wnext restY = false ∧ (wend pw m = true → wnext restX = false))).
Proof.
  induction m as [|c m IH]; intros fuel s pw restY Hf Hout Hm.
  - exists s. split; [done|].
    destruct fuel as [|fuel]; [lia|].
    destruct (run q pw s) as [|x l] eqn:E.
    + rewrite scan_step_miss in Hout by (by apply lens_nil).
      left. destruct s as [|a s]; cbn in Hout; by subst restY.
    + destruct (scan_step_hit fuel q pw s x l Hqn E) as (Hpos & Hin & Hs).
      rewrite Hs, render_hit in Hout. cbn in Hout. subst restY.
      right. split; [done|]. intros Hpw.
      by apply (starts_ok_spec q Hqs pw s _ Hin).
  - destruct fuel as [|fuel]; [lia|].
    destruct (run q pw s) as [|x l] eqn:E.
    + rewrite scan_step_miss in Hout by (by apply lens_nil).
      destruct s as [|a s]; [done|].
      rewrite render_keep_cons in Hout. cbn in Hout. injection Hout as -> Hout.
      destruct (IH fuel s (is_word c) restY) as (restX & -> & HD);
        [cbn in Hf; lia|done|by intros ?; apply Hm; right|].
      exists restX. split; [done|].
      change (wend pw (c :: m)) with (wend pw ([c] ++ m)).
      by rewrite wend_app.
    + destruct (scan_step_hit fuel q pw s x l Hqn E) as (_ & _ & Hs).
      rewrite Hs, render_hit in Hout. cbn in Hout. injection Hout as <- _.
      destruct Hm. by left.
Qed.

Lemma clean_aux : ∀ fuel s pwX pwY,
  length s < fuel →
  (pwY = pwX ∨ (pwY = false ∧ xorb pwX (wnext s) = true)) →
  (p = q ∨ nomatch p pwX s = true) →
  nomatch p pwY (render tok (scan fuel q false pwX s)) = true.
Proof.
  induction fuel as [|fuel IH]; intros s pwX pwY Hf H1 H2; [lia|].
  destruct (run q pwX s) as [|x l] eqn:E.
  - assert (lens q pwX s = []) as Hq0 by (by apply lens_nil).
    assert (lens p pwX s = []) as Hp0.
    { destruct H2 as [->|H2]; [done|by apply nomatch_head]. }
    pose proof (scan_step_miss fuel q pwX s Hq0) as Hstep.
    apply nomatch_intro.
    + apply nil_no_In. intros k Hk.
      pose proof (nonempty_spec p Hpn _ _ _ Hk) as Hpos.
      pose proof (lens_le _ _ _ _ Hk) as Hle.
      pose proof (avoids_spec open_brace p Hpo _ _ _ Hk) as Hm.
      pose proof (firstn_skipn k (render tok (scan (S fuel) q false pwX s))) as Hsplit.
      set (m := firstn k _) in *. set (restY := skipn k _) in *.
      assert (length m = k) as Hlm by (unfold m; rewrite length_firstn; lia).
      destruct (scan_prefix m (S fuel) s pwX restY Hf (eq_sym Hsplit) Hm)
        as (restX & Hs & HD).
      rewrite <- Hsplit, <- Hlm in Hk.
      assert (In (length m) (lens p pwX (m ++ restX))) as Hin.
      { apply (transfer p Hpe m restY restX pwY pwX Hk).
        destruct m as [|c m']; [cbn in Hlm; lia|].
        split.
        - cbn [nextw]. destruct H1 as [->|[-> Hx]]; [done|].
          intros _. by rewrite Hs in Hx.
        - rewrite (wend_nonempty pwY pwX) by done.
          destruct HD as [->|[-> HD]]; [done|].
          intros Hx. rewrite xorb_false_r in Hx. by rewrite Hx, HD. }
      rewrite <- Hs, Hp0 in Hin. done.
    + rewrite Hstep. destruct s as [|a s]; [done|].
      rewrite render_keep_cons. apply IH; [cbn in Hf; lia|by left|].
      destruct H2 as [->|H2]; [by left|right; by eapply nomatch_tail].
  - destruct (scan_step_hit fuel q pwX s x l Hqn E) as (Hpos & Hin & ->).
    rewrite render_hit. apply nomatch_token.
    pose proof (lens_le _ _ _ _ Hin) as Hle.
    apply IH.
    + rewrite length_skipn. lia.
    + right. split; [done|]. exact (ends_bnd_spec q Hqe _ _ _ Hin).
    + destruct H2 as [->|H2]; [by left|right; by apply nomatch_drop].
Qed.

Lemma sub_clean s :
  (p = q ∨ nomatch p false s = true) → nomatch p false (sub q tok s) = true.
Proof.
  intros H. unfold sub, scan_text. apply clean_aux; [lia|by left|done].
Qed.

End Clean.

End RegexProps.

(** ** Data masker *)

Module MaskingProps.
Import Regex RegexProps Masking.

Lemma default_table_compatible : table_compatible default_patterns = true.
Proof. by vm_compute. Qed.

Lemma strip_spec t u0 : strip t = Some u0 → t = "{"%char :: u0 ++ ["}"%char].
Proof.
  destruct t as [|a rest]; [done|]. unfold strip.
  destruct (is_char "{" a) eqn:Ea; [|done].
  destruct (is_char "}" (List.last rest "{"%char)) eqn:Eb; [|done].
  cbn. intros [= <-].
  assert (∀ x y, is_char x y = true → x = y) as Heq.
  { intros x y H. unfold is_char, code in H. apply N.eqb_eq in H.
    rewrite <- (ascii_N_embedding x), <- (ascii_N_embedding y). by rewrite H. }
  apply Heq in Ea as <-. apply Heq in Eb.
  destruct rest as [|b rest]; [done|].
  f_equal. rewrite Eb. by apply app_removelast_last.
Qed.

(** The conditions of [compatible], unpacked. *)
Lemma compatible_clean p cat q s :
  compatible p cat q = true →
  (p = q ∨ nomatch p false s = true) →
  nomatch p false (sub q (token cat) s) = true.
Proof.
  unfold compatible. intros H Hs.
  repeat (apply andb_true_iff in H as [H ?]).
  destruct (strip (token cat)) as [u0|] eqn:E; [|done].
  rewrite (strip_spec _ _ E).
  by apply sub_clean.
Qed.

(** The text after the loop body for one pattern: the text itself when
    [findall] found nothing, else one substitution (the repeated ones
    change nothing). *)
Lemma fold_sub_text q tok (l : list text) cat src : ∀ st : text * list LogEntry,
  (fold_left
     (λ (acc : text * list LogEntry) (original : text),
        (sub q tok acc.1, acc.2 ++ [mkLog cat (length original) src]))
     l st).1 = Nat.iter (length l) (sub q tok) st.1.
Proof.
  induction l as [|x l IH]; intros st; [done|].
  cbn [fold_left length]. rewrite IH. cbn [fst].
  by rewrite Nat.iter_succ_r.
Qed.

Lemma iter_sub_clean q cat n s :
  compatible q cat q = true →
  Nat.iter (S n) (sub q (token cat)) s = sub q (token cat) s.
Proof.
  intros Hc. induction n as [|n IH]; [done|].
  rewrite Nat.iter_succ, IH.
  apply nomatch_sub. apply compatible_clean; [done|by left].
Qed.

Lemma apply_pattern_text cat st q :
  compatible (p_re q) cat (p_re q) = true →
  (apply_pattern cat st q).1 =
  match findall (p_re q) st.1 with
  | [] => st.1
  | _ => sub (p_re q) (token cat) st.1
  end.
Proof.
  intros Hc. unfold apply_pattern. rewrite fold_sub_text.
  destruct (findall (p_re q) st.1) as [|x l]; [done|].
  by apply iter_sub_clean.
Qed.

Lemma apply_pattern_clean p cat st q :
  compatible p cat (p_re q) = true →
  compatible (p_re q) cat (p_re q) = true →
  (p = p_re q ∨ nomatch p false st.1 = true) →
  nomatch p false (apply_pattern cat st q).1 = true.
Proof.
  intros Hpq Hqq H. rewrite apply_pattern_text by done.
  destruct (findall (p_re q) st.1) as [|x l] eqn:E.
  - destruct H as [->|H]; [|done]. by apply findall_nil_nomatch.
  - by apply compatible_clean.
Qed.

(** On a text without a match the loop body changes neither the text nor
    the log. *)
Lemma apply_pattern_id cat st q :
  nomatch (p_re q) false st.1 = true → apply_pattern cat st q = st.
Proof.
  intros H. unfold apply_pattern. by rewrite nomatch_findall.
Qed.

Lemma fold_categories tbl : ∀ st,
  fold_left apply_category tbl st = fold_left apply_flat (flat_patterns tbl) st.
Proof.
  induction tbl as [|[cat ps] tbl IH]; intros st; [done|].
  cbn [fold_left flat_patterns flat_map]. rewrite fold_left_app, IH.
  f_equal. unfold apply_category. cbn [fst snd].
  generalize st. induction ps as [|p ps IHp]; intros st'; [done|].
  cbn [fold_left map]. apply IHp.
Qed.

Lemma fold_flat_clean (all : list (string * Pattern)) :
  (∀ cp cq, In cp all → In cq all →
     compatible (p_re cp.2) cq.1 (p_re cq.2) = true) →
  ∀ todo seen st,
    (∀ x, In x (seen ++ todo) → In x all) →
    (∀ cp, In cp seen → nomatch (p_re cp.2) false st.1 = true) →
    ∀ cp, In cp (seen ++ todo) →
      nomatch (p_re cp.2) false (fold_left apply_flat todo st).1 = true.
Proof.
  intros Hall todo. induction todo as [|cq todo IH]; intros seen st Hsub Hseen cp Hcp.
  - rewrite app_nil_r in Hcp. by apply Hseen.
  - cbn [fold_left].
    apply (IH (seen ++ [cq])).
    + intros x Hx. apply Hsub. by rewrite <- app_assoc in Hx.
    + intros cp' Hcp'. unfold apply_flat.
      assert (In cq all) as Hq by (apply Hsub, in_app_iff; right; by left).
      apply in_app_iff in Hcp' as [Hcp'|[<-|[]]].
      * apply apply_pattern_clean.
        -- apply Hall; [|done]. apply Hsub, in_app_iff. by left.
        -- by apply Hall.
        -- right. by apply Hseen.
      * apply apply_pattern_clean; [by apply Hall|by apply Hall|by left].
    + by rewrite <- app_assoc.
Qed.

Lemma fold_flat_id todo : ∀ st,
  (∀ cp, In cp todo → nomatch (p_re cp.2) false st.1 = true) →
  fold_left apply_flat todo st = st.
Proof.
  induction todo as [|cq todo IH]; intros st H; [done|].
  cbn [fold_left]. unfold apply_flat at 2.
  rewrite apply_pattern_id by (apply H; by left).
  apply IH. intros cp Hcp. apply H. by right.
Qed.

Lemma table_compatible_spec tbl :
  table_compatible tbl = true →
  ∀ cp cq, In cp (flat_patterns tbl) → In cq (flat_patterns tbl) →
    compatible (p_re cp.2) cq.1 (p_re cq.2) = true.
Proof.
  unfold table_compatible. intros H cp cq Hp Hq.
  pose proof (forallb_In _ _ cp H Hp) as H1. cbn beta in H1.
  exact (forallb_In _ _ cq H1 Hq).
Qed.

(** After the loops over a compatible table no pattern of the table matches
    anywhere in the masked text, and masking that text again changes
    nothing. *)
Lemma masked_text_clean tbl st :
  table_compatible tbl = true →
  ∀ cp, In cp (flat_patterns tbl) →
    nomatch (p_re cp.2) false (fold_left apply_category tbl st).1 = true.
Proof.
  intros Hc cp Hcp. rewrite fold_categories.
  apply (fold_flat_clean (flat_patterns tbl) (table_compatible_spec tbl Hc)
           (flat_patterns tbl) [] st); try done.
Qed.

Lemma second_pass_id tbl st log :
  table_compatible tbl = true →
  fold_left apply_category tbl ((fold_left apply_category tbl st).1, log)
  = ((fold_left apply_category tbl st).1, log).
Proof.
  intros Hc. rewrite (fold_categories tbl (_, log)).
  apply fold_flat_id. intros cp Hcp. cbn [fst].
  by apply masked_text_clean.
Qed.

(** C5: masking is idempotent.  For the built-in tables, whatever the two
    configuration flags and the [preserve_context] argument, masking the
    text that [mask_sensitive_data] returned gives that text back with an
    empty log. *)
Theorem masking_idempotent (masking logging : bool) (t : text) (preserve_context : bool) :
  mask_sensitive_data (init masking logging)
    (mask_sensitive_data (init masking logging) t preserve_context).1
    preserve_context
  = ((mask_sensitive_data (init masking logging) t preserve_context).1, []).
Proof.
  set (m := init masking logging).
  assert (∀ t', mask_sensitive_data m t' preserve_context = (t', [])
                ∨ mask_sensitive_data m t' preserve_context
                  = fold_left apply_category default_patterns (t', [])) as Hcases.
  { intros t'. unfold mask_sensitive_data.
    destruct (negb (masking_enabled m) || _); [by left|].
    destruct (preserve_context && _); [by left|by right]. }
  destruct (Hcases t) as [H | ->].
  - rewrite H. cbn [fst]. exact H.
  - destruct (Hcases (fold_left apply_category default_patterns (t, [])).1)
      as [-> | ->]; [done|].
    apply second_pass_id, default_table_compatible.
Qed.

(** C6: context exclusion.  A text in which an exclusion context is found
    is returned unchanged, with an empty log, when [preserve_context] is
    set; the text "This is a test account AC-000000 for demo" is such a
    text, although the account pattern matches in it (without
    [preserve_context] it is masked). *)
Theorem context_exclusion_skips_masking (m : DataMasker) (t : text)
    (Hex : _is_excluded_context m t = true) :
  mask_sensitive_data m t true = (t, [])
  ∧ (∀ masking logging,
       mask_sensitive_data (init masking logging)
         (txt "This is a test account AC-000000 for demo") true
       = (txt "This is a test account AC-000000 for demo", []))
  ∧ (mask_sensitive_data (init true true)
       (txt "This is a test account AC-000000 for demo") false).1
    = txt "This is a test account {{ACCOUNT}} for demo".
Proof.
  split; [|split].
  - unfold mask_sensitive_data. rewrite Hex.
    by destruct (negb (masking_enabled m) || _).
  - intros [] logging; by vm_compute.
  - by vm_compute.
Qed.

Lemma context_exclusion_skips_masking_witness :
  mask_sensitive_data (init true true)
    (txt "This is a test account AC-000000 for demo") true
  = (txt "This is a test account AC-000000 for demo", []).
Proof.
  refine (proj1 (context_exclusion_skips_masking (init true true)
                   (txt "This is a test account AC-000000 for demo") _)).
  by vm_compute.
Defined.

End MaskingProps.

(** ** Secure WebSocket manager *)

Module SecureWSProps.
Import Regex Validator SecureWS.
Local Open Scope string_scope.





















End SecureWSProps.

(** ** Rate limiter: further properties *)

Module RateLimitMore.
Import RateLimit RateLimitProps.
Local Open Scope Q_scope.






Lemma sweep_buckets_lookup now ub ub' ep :
  sweep_buckets now ub = Some ub' →
  ub' !! ep = ub !! ep ≫= (λ b, if stale now b then None else Some b).
Proof.
  unfold sweep_buckets. case_decide; [done|]. intros [= <-]. apply lookup_omap.
Qed.

Lemma stale_false now b : stale now b = false ↔ now - last_refill b <= 3600.
Proof. unfold stale. rewrite negb_false_iff. apply Qle_bool_true. Qed.

Lemma bucket_of_sweep_iff rl now u ep b :
  bucket_of (_cleanup_old_entries rl now) u ep = Some b
  ↔ bucket_of rl u ep = Some b ∧ now - last_refill b <= 3600.
Proof.
  split.
  - intros H. apply bucket_of_sweep in H as [H1 H2]. split; [done|]. by apply stale_false.
  - intros [H1 H2]. apply stale_false in H2.
    unfold bucket_of, _cleanup_old_entries in *; cbn in *.
    rewrite lookup_omap.
    destruct (buckets rl !! u) as [ub|]; cbn in *; [|done].
    unfold sweep_buckets. case_decide as Hd.
    + exfalso. assert (omap (λ b, if stale now b then None else Some b) ub !! ep = Some b) as Hl.
      { rewrite lookup_omap, H1. cbn. by rewrite H2. }
      rewrite Hd in Hl. by rewrite lookup_empty in Hl.
    + cbn. rewrite lookup_omap, H1. cbn. by rewrite H2.
Qed.

Lemma filter_filter {A} (f : A → bool) l : List.filter f (List.filter f l) = List.filter f l.
Proof.
  induction l as [|a l IH]; [done|]. cbn. destruct (f a) eqn:E; [|done].
  cbn. by rewrite E, IH.
Qed.

Lemma sweep_history_idem c h h' : sweep_history c h = Some h' → sweep_history c h' = Some h'.
Proof.
  unfold sweep_history. destruct (List.filter _ h) as [|e l] eqn:E; [done|].
  intros [= <-]. rewrite <- E, filter_filter, E. done.
Qed.

Lemma sweep_buckets_idem now ub ub' :
  sweep_buckets now ub = Some ub' → sweep_buckets now ub' = Some ub'.
Proof.
  intros H. pose proof H as H0. unfold sweep_buckets in H. case_decide as Hd; [done|].
  injection H as H.
  assert (omap (λ b, if stale now b then None else Some b) ub' = ub') as Hid.
  { apply map_eq. intros ep. rewrite lookup_omap.
    rewrite (sweep_buckets_lookup now ub ub' ep H0).
    destruct (ub !! ep) as [b|]; cbn; [|done].
    destruct (stale now b) eqn:E; cbn; [done|]. by rewrite E. }
  unfold sweep_buckets. rewrite Hid. rewrite decide_False; [done|]. by rewrite <- H.
Qed.

(** X2: the sweep keeps exactly the buckets refilled within the last hour, as
    they are, and the history entries of the last hour; it leaves no user
    with an empty table; a second sweep at the same time changes nothing. *)
Theorem sweep_postcondition rl now :
  (∀ u ep b, bucket_of (_cleanup_old_entries rl now) u ep = Some b
             ↔ bucket_of rl u ep = Some b ∧ now - last_refill b <= 3600)
  ∧ (∀ u, buckets (_cleanup_old_entries rl now) !! u ≠ Some ∅)
  ∧ (∀ u h, request_history (_cleanup_old_entries rl now) !! u = Some h →
       h ≠ [] ∧ h = List.filter (newer_than (now - 3600))
                      (default [] (request_history rl !! u)))
  ∧ _cleanup_old_entries (_cleanup_old_entries rl now) now = _cleanup_old_entries rl now.
Proof.
  split; [intros; apply bucket_of_sweep_iff|]. split; [|split].
  - intros u. cbn. rewrite lookup_omap.
    destruct (buckets rl !! u) as [ub|]; cbn; [|done].
    unfold sweep_buckets. case_decide; [done|]. congruence.
  - intros u h. cbn. rewrite lookup_omap.
    destruct (request_history rl !! u) as [h0|]; cbn; [|done].
    unfold sweep_history. destruct (List.filter _ h0) eqn:E; [done|].
    intros [= <-]. done.
  - unfold _cleanup_old_entries at 1 3. cbn. f_equal.
    + apply map_eq. intros u. rewrite !lookup_omap.
      destruct (buckets rl !! u) as [ub|]; cbn; [|done].
      destruct (sweep_buckets now ub) as [ub'|] eqn:E; cbn; [|done].
      by apply (sweep_buckets_idem now ub).
    + apply map_eq. intros u. rewrite !lookup_omap.
      destruct (request_history rl !! u) as [h|]; cbn; [|done].
      destruct (sweep_history (now - 3600) h) as [h'|] eqn:E; cbn; [|done].
      by apply (sweep_history_idem _ h).
Qed.


(** *** Administrative reset *)

Lemma get_limit_reset rl now u oe ep :
  get_limit (reset_user_limits rl now u oe) ep = get_limit rl ep
  ∧ burst_allowance (reset_user_limits rl now u oe) = burst_allowance rl.
Proof.
  unfold reset_user_limits.
  destruct oe as [[|a e]|]; try done.
  destruct (buckets rl !! u) as [ub|]; [|done].
  by destruct (ub !! String a e).
Qed.

(** X3: a reset of all endpoints (no endpoint, or the empty string) removes the
    buckets and the history of the user and of nobody else, and the next
    check of the user, on an endpoint with a limit of at least one, is
    allowed with a full bucket. *)
Theorem reset_all_restores rl now t st u ep
    (Hlimit : (1 <= get_limit rl ep)%Z) (Hburst : (0 <= burst_allowance rl)%Z) :
  reset_user_limits rl now u (Some "") = reset_user_limits rl now u None
  ∧ buckets (reset_user_limits rl now u None) !! u = None
  ∧ request_history (reset_user_limits rl now u None) !! u = None
  ∧ (∀ u', u' ≠ u →
       buckets (reset_user_limits rl now u None) !! u' = buckets rl !! u'
       ∧ request_history (reset_user_limits rl now u None) !! u'
         = request_history rl !! u')
  ∧ is_allowed (check_rate_limit (reset_user_limits rl now u None) t st u ep).2 = true
  ∧ tokens (refilled (reset_user_limits rl now u None) t st u ep)
    == inject_Z (get_limit rl ep).
Proof.
  split; [done|]. split; [apply lookup_delete_eq|]. split; [apply lookup_delete_eq|].
  split.
  { intros u' Hu. cbn. by rewrite !lookup_delete_ne. }
  assert (tokens (refilled (reset_user_limits rl now u None) t st u ep)
          == inject_Z (get_limit rl ep)) as Heq.
  { apply (refilled_fresh (reset_user_limits rl now u None)); [|done].
    unfold bucket_of. cbn. by rewrite lookup_delete_eq. }
  split; [|done].
  rewrite (proj1 (check_result_by_tokens _ t st u ep)).
  apply Qle_bool_true. rewrite Heq. change 1 with (inject_Z 1).
  by rewrite <- Zle_Qle.
Qed.

Lemma reset_all_restores_witness :
  let rl := (run_checks (init 20 5 0) "alice"
               (repeat (mkCall 0 0 "websocket_message") 25)).1 in
  is_allowed (check_rate_limit rl 0 0 "alice" "websocket_message").2 = false
  ∧ is_allowed (check_rate_limit (reset_user_limits rl 0 "alice" None) 0 0
                  "alice" "websocket_message").2 = true.
Proof.
  intros rl. split; [by vm_compute|].
  refine (proj1 (proj2 (proj2 (proj2 (proj2
            (reset_all_restores rl 0 0 0 "alice" "websocket_message" _ _)))))).
  - vm_compute. discriminate.
  - vm_compute. discriminate.
Defined.

(** X4: a reset of one endpoint refills the bucket of that endpoint if the user
    has one and creates none; every other bucket and the history stay. *)
Theorem reset_endpoint_effect rl now u a e :
  (bucket_of rl u (String a e) = None →
     reset_user_limits rl now u (Some (String a e)) = rl)
  ∧ (is_Some (bucket_of rl u (String a e)) →
     bucket_of (reset_user_limits rl now u (Some (String a e))) u (String a e)
     = Some (mkBucket (inject_Z (get_limit rl (String a e))) now))
  ∧ (∀ u' ep', ¬ (u = u' ∧ String a e = ep') →
     bucket_of (reset_user_limits rl now u (Some (String a e))) u' ep'
     = bucket_of rl u' ep')
  ∧ request_history (reset_user_limits rl now u (Some (String a e)))
    = request_history rl.
Proof.
  unfold reset_user_limits, bucket_of.
  destruct (buckets rl !! u) as [ub|] eqn:Eu; cbn.
  - destruct (ub !! String a e) as [b|] eqn:Ee.
    + split; [done|]. split.
      * intros _. cbn. rewrite lookup_insert_eq. cbn. by rewrite Eu, lookup_insert_eq.
      * split; [|done]. intros u' ep' Hne.
        pose proof (bucket_of_set_bucket rl u (String a e)
                      (mkBucket (inject_Z (get_limit rl (String a e))) now) u' ep') as H.
        unfold bucket_of in H. rewrite H. by rewrite decide_False.
    + split; [done|]. split; [by intros [? ?]|]. done.
  - split; [done|]. split; [by intros [? ?]|]. done.
Qed.

(** *** How many rapid requests a bucket admits *)

Lemma rapid_run_first u ep t0 c cs rl (n : nat) :
  rapid t0 ep c → Forall (rapid t0 ep) cs →
  tokens (refilled rl t0 (c_sweep c) u ep) == inject_Z (Z.of_nat n) →
  (Z.of_nat n <= get_limit rl ep + burst_allowance rl)%Z →
  map is_allowed (run_checks rl u (c :: cs)).2
  = repeat true (min n (S (length cs))) ++ repeat false (S (length cs) - n).
Proof.
  intros [Hct Hce] Hr Hrf Hn.
  destruct (run_checks_cons rl u c cs) as [_ ->]. rewrite Hct, Hce.
  set (st := c_sweep c) in *.
  destruct (check_result_by_tokens rl t0 st u ep) as [Ha _].
  destruct (bucket_of_check_same rl t0 st u ep) as (b1 & Hb1 & Hl1 & Ht1).
  destruct (check_rate_limit_config rl t0 st u ep) as [Hc1 Hc2].
  pose proof (sweep_due_check rl t0 st u ep) as Hs1.
  cbn [map]. rewrite Ha.
  destruct n as [|m].
  - assert (Qle_bool 1 (tokens (refilled rl t0 st u ep)) = false) as E.
    { apply Qle_bool_false. rewrite Hrf. reflexivity. }
    rewrite E in *.
    destruct (rapid_run u ep t0 cs _ 0%nat b1 Hr Hs1 Hb1 Hl1) as (I1 & _).
    { by rewrite Ht1, Hrf. }
    { rewrite get_limit_check, Hc2. done. }
    rewrite I1. cbn [Nat.min Nat.sub app repeat]. by rewrite Nat.sub_0_r.
  - assert (Qle_bool 1 (tokens (refilled rl t0 st u ep)) = true) as E.
    { apply Qle_bool_true. rewrite Hrf. change 1 with (inject_Z 1).
      rewrite <- Zle_Qle. lia. }
    rewrite E in *.
    destruct (rapid_run u ep t0 cs _ m b1 Hr Hs1 Hb1 Hl1) as (I1 & _).
    { rewrite Ht1, Hrf, Nat2Z.inj_succ. unfold Z.succ.
      rewrite inject_Z_plus. ring. }
    { rewrite get_limit_check, Hc2. lia. }
    rewrite I1. done.
Qed.

(** X5: a new bucket admits exactly [limit] requests made with no elapsed time
    between them: the burst allowance is not available to a new bucket.
    [requests_per_minute] is not zero: the reset time of a denied request
    divides by it. *)
Theorem fresh_bucket_admits_limit rl u ep t0 cs
    (Hrpm : requests_per_minute rl ≠ 0%Z)
    (Hburst : (0 <= burst_allowance rl)%Z)
    (Hlimit : (0 <= get_limit rl ep)%Z)
    (Hfresh : bucket_of rl u ep = None)
    (Hrapid : Forall (rapid t0 ep) cs) :
  map is_allowed (run_checks rl u cs).2
  = repeat true (min (Z.to_nat (get_limit rl ep)) (length cs))
    ++ repeat false (length cs - Z.to_nat (get_limit rl ep)).
Proof.
  destruct cs as [|c cs]; [by rewrite Nat.min_0_r|].
  apply Forall_cons in Hrapid as [Hc Hr].
  apply (rapid_run_first u ep t0 c cs rl); try done.
  - rewrite refilled_fresh by done. by rewrite Z2Nat.id.
  - rewrite Z2Nat.id by done. lia.
Qed.

Lemma fresh_bucket_admits_limit_witness :
  map is_allowed
    (run_checks (init 20 5 0) "alice" (repeat (mkCall 7 7 "login") 12)).2
  = repeat true (min (Z.to_nat (get_limit (init 20 5 0) "login"))
                     (length (repeat (mkCall 7 7 "login") 12)))
    ++ repeat false (length (repeat (mkCall 7 7 "login") 12)
                     - Z.to_nat (get_limit (init 20 5 0) "login")).
Proof.
  refine (fresh_bucket_admits_limit (init 20 5 0) "alice" "login" 7
            (repeat (mkCall 7 7 "login") 12) _ _ _ eq_refl _).
  - vm_compute. discriminate.
  - vm_compute. discriminate.
  - vm_compute. discriminate.
  - repeat constructor.
Defined.

(** X6: a bucket that has been idle long enough for its refill to pass the
    cap by at least one token admits exactly [limit + burst_allowance]
    rapid requests, when no sweep is due and [requests_per_minute] is not
    zero.  With the margin of one token the refill is cut to the cap, a
    whole number, however the sum is rounded; a refill that only just
    reaches the cap is not covered. *)
Theorem idle_bucket_admits_burst rl u ep t cs b
    (Hrpm : requests_per_minute rl ≠ 0%Z)
    (Hcfg : config_ok rl)
    (Hbucket : bucket_of rl u ep = Some b)
    (Hns : sweep_due rl t = false)
    (Hidle : inject_Z (get_limit rl ep + burst_allowance rl) + 1
             <= tokens b + tokens_to_add (t - last_refill b) (get_limit rl ep))
    (Hrapid : Forall (rapid t ep) cs) :
  map is_allowed (run_checks rl u cs).2
  = repeat true (min (Z.to_nat (get_limit rl ep + burst_allowance rl)) (length cs))
    ++ repeat false (length cs - Z.to_nat (get_limit rl ep + burst_allowance rl)).
Proof.
  pose proof (config_ok_limit rl ep Hcfg) as Hl. destruct Hcfg as [_ Hb].
  destruct cs as [|c cs]; [by rewrite Nat.min_0_r|].
  apply Forall_cons in Hrapid as [Hc Hr].
  apply (rapid_run_first u ep t c cs rl); try done.
  - rewrite Z2Nat.id by lia. unfold refilled.
    rewrite maybe_cleanup_not_due by done.
    rewrite bucket_or_new_spec, Hbucket. cbn [from_option id].
    unfold _refill_bucket, py_min. cbn [tokens].
    destruct (Qlt_le_dec _ _) as [Hlt|Hge]; [lra|reflexivity].
  - rewrite Z2Nat.id by lia. lia.
Qed.

Lemma idle_bucket_admits_burst_witness :
  let rl := (run_checks (init 20 5 0) "alice"
               (repeat (mkCall 0 0 "websocket_message") 20)).1 in
  let cs := repeat (mkCall 200 200 "websocket_message") 30 in
  map is_allowed (run_checks rl "alice" cs).2
  = repeat true (min (Z.to_nat (get_limit rl "websocket_message" + burst_allowance rl))
                     (length cs))
    ++ repeat false (length cs
                     - Z.to_nat (get_limit rl "websocket_message" + burst_allowance rl)).
Proof.
  intros rl cs.
  assert (bucket_of rl "alice" "websocket_message"
          = Some (mkBucket (0 # 365615844006297600000000000000000000) 0)) as Hb
    by (by vm_compute).
  refine (idle_bucket_admits_burst rl "alice" "websocket_message" 200 cs _ _ _ Hb _ _ _).
  - vm_compute. discriminate.
  - split; vm_compute; discriminate.
  - by vm_compute.
  - vm_compute. discriminate.
  - repeat constructor.
Defined.


(** *** Statistics *)

Lemma filter_length_le {A} (f : A → bool) l : (length (List.filter f l) ≤ length l)%nat.
Proof. induction l as [|x l IH]; cbn; [done|]. destruct (f x); cbn; lia. Qed.

(** X7: the report of [get_user_stats]: the last minute is counted within the
    hour; there is one entry for each bucket of the user, with the limit of
    its endpoint and the tokens that the call has stored in the bucket; the
    reset time is given exactly when less than one token is left; and when
    no sweep is due, the entry tells the outcome of a check made at the same
    clock reading. *)
Theorem user_stats_report rl t u
    (Hrpm : requests_per_minute rl ≠ 0%Z) :
  (us_requests_last_minute (get_user_stats rl t u).2
   ≤ us_total_requests_last_hour (get_user_stats rl t u).2)%nat
  ∧ (∀ ep, us_token_buckets (get_user_stats rl t u).2 !! ep = None
           ↔ bucket_of rl u ep = None)
  ∧ (∀ ep ti, us_token_buckets (get_user_stats rl t u).2 !! ep = Some ti →
       t_limit ti = get_limit rl ep
       ∧ (∃ b, bucket_of (get_user_stats rl t u).1 u ep = Some b
               ∧ t_tokens_remaining ti = tokens b
               ∧ last_refill b = t)
       ∧ (t_reset_time ti = None ↔ 1 <= t_tokens_remaining ti)
       ∧ (sweep_due rl t = false → ∀ st,
            is_allowed (check_rate_limit rl t st u ep).2
            = Qle_bool 1 (t_tokens_remaining ti))).
Proof.
  split; [apply filter_length_le|].
  assert (∀ ep, us_token_buckets (get_user_stats rl t u).2 !! ep
                = (λ b, mkTokenInfo (tokens (refill_for_stats rl t ep b))
                          (get_limit rl ep)
                          (_get_reset_time rl (refill_for_stats rl t ep b) t))
                  <$> bucket_of rl u ep) as Hlk.
  { intros ep. cbn. rewrite !map_lookup_imap. unfold bucket_of.
    destruct (buckets rl !! u) as [ub|]; cbn; [|by rewrite lookup_empty].
    by destruct (ub !! ep). }
  split.
  { intros ep. rewrite Hlk. by destruct (bucket_of rl u ep). }
  intros ep ti Hti. rewrite Hlk in Hti.
  destruct (bucket_of rl u ep) as [b|] eqn:Hb; [|done].
  cbn in Hti. injection Hti as <-. cbn [t_limit t_tokens_remaining t_reset_time].
  split; [done|]. split; [|split].
  - exists (refill_for_stats rl t ep b). split; [|done].
    rewrite bucket_of_get_user_stats, decide_True by done. by rewrite Hb.
  - unfold _get_reset_time.
    destruct (Qle_bool 1 _) eqn:E.
    + split; [|done]. intros _. by apply Qle_bool_true.
    + split; [done|]. intros H. apply Qle_bool_false in E.
      exfalso. apply (Qlt_not_le _ _ E). exact H.
  - intros Hns st.
    rewrite (proj1 (check_result_by_tokens rl t st u ep)). unfold refilled.
    rewrite maybe_cleanup_not_due by done.
    rewrite bucket_or_new_spec, Hb. done.
Qed.

Lemma user_stats_report_witness :
  let rl := (run_checks (init 20 5 0) "alice" (repeat (mkCall 0 0 "login") 10)).1 in
  us_token_buckets (get_user_stats rl 3 "alice").2 !! "login"
  = Some (mkTokenInfo (18139852800000000000 # 36279705600000000000) 10 (Some (120 # 20)))
  ∧ is_allowed (check_rate_limit rl 3 3 "alice" "login").2 = false.
Proof.
  intros rl.
  assert (us_token_buckets (get_user_stats rl 3 "alice").2 !! "login"
          = Some (mkTokenInfo (18139852800000000000 # 36279705600000000000) 10 (Some (120 # 20)))) as Hti.
  { vm_compute. reflexivity. }
  split; [exact Hti|].
  assert (requests_per_minute rl ≠ 0%Z) as Hrpm by (vm_compute; discriminate).
  assert (sweep_due rl 3 = false) as Hns by (vm_compute; reflexivity).
  exact (proj2 (proj2 (proj2 (proj2 (proj2 (user_stats_report rl 3 "alice" Hrpm))
           "login" _ Hti))) Hns 3).
Defined.

Lemma fold_filter_le (f : HistoryEntry → bool) (m : gmap string (list HistoryEntry)) :
  (map_fold (λ _ h acc, (length (List.filter f h) + acc)%nat) 0%nat m
   ≤ map_fold (λ _ h acc, (length h + acc)%nat) 0%nat m)%nat.
Proof.
  induction m as [|k h m Hk Hf IH] using map_first_key_ind.
  - by rewrite !map_fold_empty.
  - rewrite !map_fold_insert_first_key by done.
    pose proof (filter_length_le f h). lia.
Qed.

(** X8: [get_system_stats] raises exactly when [requests_per_minute] is zero.
    Otherwise the requests of the last minute are counted within those
    logged and the capacity is that of five users; the load is zero exactly
    when no request was logged in the last minute, and for a positive
    [requests_per_minute] it is not negative and it is at most 100 exactly
    when the requests of the last minute are within the capacity.  The
    digits of the load are not part of the statement: the code divides and
    multiplies in floating point. *)
Theorem system_stats_report rl t :
  ((get_system_stats rl t).2 = None ↔ requests_per_minute rl = 0%Z)
  ∧ (∀ s, (get_system_stats rl t).2 = Some s →
       (ss_requests_per_minute_system s ≤ ss_total_requests_last_hour s)%nat
       ∧ ss_active_users s = size (buckets rl)
       ∧ ss_system_capacity s = (5 * requests_per_minute rl)%Z
       ∧ (ss_load_percentage s == 0 ↔ ss_requests_per_minute_system s = 0%nat)
       ∧ (request_history rl = ∅ → ss_requests_per_minute_system s = 0%nat)
       ∧ ((0 < requests_per_minute rl)%Z →
          0 <= ss_load_percentage s
          ∧ (ss_load_percentage s <= 100
             ↔ (Z.of_nat (ss_requests_per_minute_system s) <= ss_system_capacity s)%Z))).
Proof.
  unfold get_system_stats. cbn [snd].
  destruct (decide _) as [H0|Hn0].
  - split; [|done]. split; [lia|done].
  - split; [split; [done|lia]|].
    intros s [= <-].
    cbn [ss_requests_per_minute_system ss_total_requests_last_hour ss_active_users
         ss_system_capacity ss_load_percentage].
    split; [apply fold_filter_le|]. split; [done|]. split; [lia|].
    assert (¬ inject_Z (requests_per_minute rl * 5) == 0) as Hne.
    { change 0 with (inject_Z 0). rewrite inject_Z_injective. done. }
    set (r := map_fold _ 0%nat (request_history rl)).
    assert (inject_Z (Z.of_nat r)
            == inject_Z (Z.of_nat r) / inject_Z (requests_per_minute rl * 5) * 100
               * inject_Z (requests_per_minute rl * 5) * (1 # 100)) as Hr
      by (field; done).
    split; [|split].
    + split.
      * intros Hz. rewrite Hz in Hr.
        assert (inject_Z (Z.of_nat r) == inject_Z 0) as Hr0
          by (rewrite Hr; change (inject_Z 0) with 0; ring).
        rewrite inject_Z_injective in Hr0. lia.
      * intros ->. change (inject_Z (Z.of_nat 0)) with 0. field. done.
    + intros Hh. subst r. rewrite Hh. apply map_fold_empty.
    + intros Hpos.
      assert (0 < inject_Z (requests_per_minute rl * 5)) as Hc.
      { change 0 with (inject_Z 0). rewrite <- Zlt_Qlt. lia. }
      assert (0 <= inject_Z (Z.of_nat r)) as Ha by (apply inject_Z_nonneg; lia).
      rewrite (Zle_Qle (Z.of_nat r)).
      set (a := inject_Z (Z.of_nat r)) in *.
      set (c := inject_Z (requests_per_minute rl * 5)) in *.
      assert (0 <= a / c) as Hx.
      { apply Qle_shift_div_l; [done|]. by rewrite Qmult_0_l. }
      assert (a == a / c * c) as Hac by (field; done).
      set (x := a / c) in *. clearbody x a c.
      split; [lra|]. split.
      * intros Hle. rewrite Hac.
        assert (x <= 1) as Hx1 by lra.
        assert (0 <= (1 - x) * c) as Hm by (apply Qmult_le_0_compat; lra).
        lra.
      * intros Hle. rewrite Hac in Hle.
        destruct (Qlt_le_dec 1 x) as [Hgt|Hle1]; [|lra].
        assert (0 < (x - 1) * c) as Hm by (apply Qmult_lt_0_compat; lra).
        lra.
Qed.

End RateLimitMore.

(** ** Data masker: further properties *)

Module MaskingMore.
Import Regex Masking RegexProps MaskingProps.

Lemma is_char_eq c a : is_char c a = true → c = a.
Proof.
  unfold is_char, code. intros H. apply N.eqb_eq in H.
  rewrite <- (ascii_N_embedding c), <- (ascii_N_embedding a). by rewrite H.
Qed.

Lemma subclass_spec c d a : subclass c d = true → c a = true → d a = true.
Proof.
  intros H Hc. pose proof (forallb_In _ _ a H (in_all_chars a)) as Hi.
  cbn in Hi. by rewrite Hc in Hi.
Qed.

Lemma needs_spec d r :
  needs d r = true → ∀ pw s k, In k (lens r pw s) → existsb d (firstn k s) = true.
Proof.
  induction r as [|c| | |a IHa b IHb|a IHa b IHb|a IHa|g c lo hi|a IHa];
    cbn [needs]; intros Hn pw s k Hin; try done.
  - apply in_lens_Chr in Hin as [-> (a & s' & -> & Hc)].
    cbn. by rewrite (subclass_spec c d a Hn Hc).
  - apply in_lens_Seq in Hin as (k1 & k2 & H1 & H2 & ->).
    rewrite firstn_plus, existsb_app.
    apply orb_true_iff in Hn as [Hn|Hn].
    + by rewrite (IHa Hn _ _ _ H1).
    + rewrite (IHb Hn _ _ _ H2). apply orb_true_r.
  - apply andb_true_iff in Hn as [Hna Hnb].
    apply in_lens_Alt in Hin as [H|H]; [by eapply IHa|by eapply IHb].
  - apply andb_true_iff in Hn as [Hlo Hsub].
    apply in_lens_Rep in Hin as [Hlo' Hhi]. apply bounded_ge in Hhi as [Hs _].
    apply span_ge in Hs as [Hlen Hf].
    destruct k as [|k]; [destruct lo; [done|lia]|].
    destruct s as [|a s]; [cbn in Hlen; lia|].
    cbn in Hf |- *. apply andb_true_iff in Hf as [Hc _].
    by rewrite (subclass_spec c d a Hsub Hc).
  - rewrite lens_Grp in Hin. by eapply IHa.
Qed.

Lemma existsb_firstn_false {A} (f : A → bool) k : ∀ s,
  forallb (λ a, negb (f a)) s = true → existsb f (firstn k s) = false.
Proof.
  induction k as [|k IH]; intros [|a s]; cbn; try done.
  intros H. apply andb_true_iff in H as [Ha Hs].
  apply negb_true_iff in Ha. rewrite Ha. by apply IH.
Qed.

Lemma needs_nomatch d r :
  needs d r = true → ∀ s pw,
  forallb (λ a, negb (d a)) s = true → nomatch r pw s = true.
Proof.
  intros Hn. induction s as [|a s IH]; intros pw Hs.
  - apply nomatch_intro; [|done].
    apply nil_no_In. intros k Hk.
    pose proof (needs_spec d r Hn _ _ _ Hk) as H. by destruct k.
  - apply nomatch_intro.
    + apply nil_no_In. intros k Hk.
      pose proof (needs_spec d r Hn _ _ _ Hk) as H.
      by rewrite existsb_firstn_false in H.
    + apply IH. cbn in Hs. by apply andb_true_iff in Hs as [_ ?].
Qed.

Lemma mask_cases m t pc :
  (mask_sensitive_data m t pc = (t, [])
   ∧ (masking_enabled m = false ∨ t = [] ∨ pc && _is_excluded_context m t = true))
  ∨ (mask_sensitive_data m t pc = fold_left apply_flat (flat_patterns (patterns m)) (t, [])
     ∧ masking_enabled m = true ∧ pc && _is_excluded_context m t = false).
Proof.
  unfold mask_sensitive_data.
  destruct (masking_enabled m); cbn [negb orb].
  - destruct t as [|a t]; [left; auto|].
    destruct (pc && _) eqn:E; [left; auto|right].
    by rewrite fold_categories.
  - left; auto.
Qed.

Lemma default_needs_digit_or_at :
  forallb (λ cp : string * Pattern, needs digit_or_at (p_re cp.2))
          (flat_patterns default_patterns) = true.
Proof. vm_compute. reflexivity. Qed.

(** X9: a text of characters with code points 0 to 255 in which no character
    is matched by [\d] (there: ['0'] to ['9']) and none is an at sign is
    returned as it is, with an empty log: every pattern of the table needs
    one of them.  A text with a decimal digit of another script is outside
    the statement, and the code does mask such digits. *)
Theorem plain_text_unchanged masking logging t pc
    (Hplain : forallb (λ a, negb (digit_or_at a)) t = true) :
  mask_sensitive_data (init masking logging) t pc = (t, []).
Proof.
  destruct (mask_cases (init masking logging) t pc) as [[H _]|[H _]]; [done|].
  rewrite H. apply fold_flat_id. intros cp Hcp. cbn [fst].
  apply (needs_nomatch digit_or_at); [|done].
  exact (forallb_In _ _ cp default_needs_digit_or_at Hcp).
Qed.

Lemma plain_text_unchanged_witness :
  mask_sensitive_data (init true true)
    (txt "Normal conversation without sensitive data") true
  = (txt "Normal conversation without sensitive data", []).
Proof.
  apply (plain_text_unchanged true true
           (txt "Normal conversation without sensitive data") true).
  vm_compute. reflexivity.
Defined.

Lemma search_nomatch r : ∀ s pw, search r pw s = negb (nomatch r pw s).
Proof.
  induction s as [|a s IH]; intros pw; cbn [search nomatch]; unfold lens;
    destruct (run r pw _) as [|x l]; cbn; try done.
Qed.

Lemma in_flat_patterns tbl cat ps p :
  In (cat, ps) tbl → In p ps → In (cat, p) (flat_patterns tbl).
Proof.
  intros Hc Hp. apply in_flat_map. exists (cat, ps). split; [done|].
  cbn. by apply in_map.
Qed.

(** X10: when masking runs, no pattern of the table matches anywhere in the
    masked text: [findall] finds nothing and [search] fails. *)
Theorem no_pattern_survives logging t pc cat ps p
    (Hrun : pc && _is_excluded_context (init true logging) t = false)
    (Hcat : In (cat, ps) default_patterns) (Hp : In p ps) :
  findall (p_re p) (mask_sensitive_data (init true logging) t pc).1 = []
  ∧ search (p_re p) false (mask_sensitive_data (init true logging) t pc).1 = false.
Proof.
  assert (nomatch (p_re p) false (mask_sensitive_data (init true logging) t pc).1 = true)
    as Hnm.
  { pose proof (in_flat_patterns _ _ _ _ Hcat Hp) as Hin.
    destruct (mask_cases (init true logging) t pc) as [[-> Hc]|[-> _]]; cbn [fst].
    - destruct Hc as [Hc|[->|Hc]]; [done| |congruence].
      pose proof (masked_text_clean default_patterns ([], [])
                    default_table_compatible _ Hin) as H.
      assert (fold_left apply_category default_patterns ([], []) = ([], [])) as E
        by (vm_compute; reflexivity).
      by rewrite E in H.
    - cbn [patterns init]. rewrite <- fold_categories.
      exact (masked_text_clean default_patterns _ default_table_compatible _ Hin). }
  split; [by apply nomatch_findall|].
  by rewrite search_nomatch, Hnm.
Qed.

Lemma no_pattern_survives_witness :
  let p := mkPattern "\b\d{15,16}\b" (seq_re [Bnd; times is_digit 15 16; Bnd]) in
  let t := txt "card 4444333322221111, phone 555-123-4567" in
  findall (p_re p) (mask_sensitive_data (init true true) t false).1 = []
  ∧ search (p_re p) false (mask_sensitive_data (init true true) t false).1 = false.
Proof.
  intros p t.
  refine (no_pattern_survives true t false "CARD" card_patterns p eq_refl _ _).
  - right; left; reflexivity.
  - right; left; reflexivity.
Defined.

(** *** The log accounts for the tokens *)

Lemma opens_app s1 s2 : opens (s1 ++ s2) = opens s1 + opens s2.
Proof. unfold opens. by rewrite List.filter_app, length_app. Qed.

Lemma opens_none s : ¬ In "{"%char s → opens s = 0.
Proof.
  unfold opens. induction s as [|a s IH]; [done|]. intros Hn. cbn.
  destruct (is_char "{" a) eqn:E.
  - apply is_char_eq in E. exfalso. apply Hn. by left.
  - apply IH. intros H. apply Hn. by right.
Qed.

Lemma render_Keep tok a items : render tok (Keep a :: items) = [a] ++ render tok items.
Proof. done. Qed.
Lemma render_Hit tok w g items : render tok (Hit w g :: items) = tok ++ render tok items.
Proof. done. Qed.
Lemma groups_Keep r a items : groups r (Keep a :: items) = groups r items.
Proof. done. Qed.
Lemma groups_Hit r w g items :
  length (groups r (Hit w g :: items)) = S (length (groups r items)).
Proof. done. Qed.

Lemma scan_count r tok :
  nonempty r = true → avoids "{" r = true →
  ∀ fuel pw s, length s < fuel →
    opens (render tok (scan fuel r false pw s))
    = opens s + opens tok * length (groups r (scan fuel r false pw s)).
Proof.
  intros Hn Ha. induction fuel as [|fuel IH]; intros pw s Hlen; [lia|].
  destruct (run r pw s) as [|x l] eqn:E.
  - assert (lens r pw s = []) as Hl by by apply lens_nil.
    rewrite (scan_step_miss fuel r pw s Hl).
    destruct s as [|a s]; [cbn; lia|].
    rewrite render_Keep, groups_Keep, opens_app.
    rewrite IH by (cbn in Hlen; lia).
    change (a :: s) with ([a] ++ s). rewrite opens_app. lia.
  - destruct (scan_step_hit fuel r pw s x l Hn E) as (Hpos & Hin & ->).
    unfold hit_of. rewrite render_Hit, groups_Hit, opens_app.
    pose proof (lens_le r _ _ _ Hin) as Hle.
    rewrite IH by (rewrite length_skipn; lia).
    assert (opens s = opens (firstn x.1 s) + opens (skipn x.1 s)) as ->
      by (by rewrite <- opens_app, firstn_skipn).
    rewrite (opens_none (firstn x.1 s)) by by eapply avoids_spec.
    lia.
Qed.

Lemma sub_count r tok s :
  nonempty r = true → avoids "{" r = true →
  opens (sub r tok s) = opens s + opens tok * length (findall r s).
Proof.
  intros Hn Ha. unfold sub, findall, scan_text. apply scan_count; [done|done|lia].
Qed.

Lemma fold_log {A} (f : text → text) (g : A → LogEntry) (l : list A) :
  ∀ st : text * list LogEntry,
  (fold_left (λ acc o, (f acc.1, acc.2 ++ [g o])) l st).2 = st.2 ++ map g l.
Proof.
  induction l as [|o l IH]; intros st; cbn [fold_left map].
  - by rewrite app_nil_r.
  - rewrite IH. cbn [snd]. by rewrite <- app_assoc.
Qed.

Lemma apply_pattern_log cat st q :
  (apply_pattern cat st q).2
  = st.2 ++ map (λ o, mkLog cat (length o) (p_source q)) (findall (p_re q) st.1).
Proof. unfold apply_pattern. apply (fold_log _ (λ o, mkLog cat (length o) (p_source q))). Qed.

Lemma compatible_parts p cat q :
  compatible p cat q = true → avoids "{" p = true ∧ nonempty p = true.
Proof.
  unfold compatible. rewrite !andb_true_iff. tauto.
Qed.

Lemma apply_pattern_count cat st q :
  compatible (p_re q) cat (p_re q) = true → opens (token cat) = 2 →
  opens (apply_pattern cat st q).1 + 2 * length st.2
  = opens st.1 + 2 * length (apply_pattern cat st q).2.
Proof.
  intros Hc Ht. destruct (compatible_parts _ _ _ Hc) as [Ha Hn].
  rewrite apply_pattern_log, (apply_pattern_text cat st q Hc), length_app, length_map.
  destruct (findall (p_re q) st.1) as [|o l] eqn:E; [cbn; lia|].
  rewrite sub_count, Ht, E by done. lia.
Qed.

Lemma apply_pattern_same cat st q :
  length (apply_pattern cat st q).2 ≤ length st.2 → apply_pattern cat st q = st.
Proof.
  rewrite apply_pattern_log, length_app, length_map. intros H.
  unfold apply_pattern.
  destruct (findall (p_re q) st.1) as [|o l]; [done|cbn in H; lia].
Qed.

Lemma fold_flat_count todo : ∀ st,
  (∀ cp, In cp todo →
     compatible (p_re cp.2) cp.1 (p_re cp.2) = true ∧ opens (token cp.1) = 2) →
  opens (fold_left apply_flat todo st).1 + 2 * length st.2
  = opens st.1 + 2 * length (fold_left apply_flat todo st).2
  ∧ length st.2 ≤ length (fold_left apply_flat todo st).2
  ∧ (length (fold_left apply_flat todo st).2 ≤ length st.2 →
     fold_left apply_flat todo st = st).
Proof.
  induction todo as [|cp todo IH]; intros st Hall; cbn [fold_left].
  - split; [done|]. split; done.
  - destruct (Hall cp (or_introl eq_refl)) as [Hc Ht].
    destruct (IH (apply_flat st cp) (λ x Hx, Hall x (or_intror Hx))) as (I1 & I2 & I3).
    pose proof (apply_pattern_count cp.1 st cp.2 Hc Ht) as J1.
    pose proof (apply_pattern_log cp.1 st cp.2) as J2.
    assert (length st.2 ≤ length (apply_flat st cp).2) as J3.
    { unfold apply_flat. rewrite J2, length_app. lia. }
    unfold apply_flat in *.
    split; [lia|]. split; [lia|].
    intros Hle.
    assert (apply_pattern cp.1 st cp.2 = st) as E by (apply apply_pattern_same; lia).
    rewrite E in *. apply I3. lia.
Qed.

Lemma fold_flat_entries (all : list (string * Pattern)) todo : ∀ st,
  (∀ cp, In cp todo → In cp all) →
  Forall (λ e, In (category e, pattern e)
                  (map (λ cp : string * Pattern, (cp.1, p_source cp.2)) all)) st.2 →
  Forall (λ e, In (category e, pattern e)
                  (map (λ cp : string * Pattern, (cp.1, p_source cp.2)) all))
         (fold_left apply_flat todo st).2.
Proof.
  induction todo as [|cp todo IH]; intros st Hsub Hst; [done|].
  cbn [fold_left]. apply IH; [intros x Hx; apply Hsub; by right|].
  unfold apply_flat. rewrite apply_pattern_log. apply Forall_app. split; [done|].
  apply Forall_forall. intros e He.
  apply list_elem_of_In, in_map_iff in He as (o & <- & _).
  cbn [category pattern]. apply in_map_iff. exists cp. split; [done|].
  apply Hsub. by left.
Qed.

Lemma default_self_compatible :
  ∀ cp, In cp (flat_patterns default_patterns) →
    compatible (p_re cp.2) cp.1 (p_re cp.2) = true ∧ opens (token cp.1) = 2.
Proof.
  intros cp Hcp. split.
  - by apply (table_compatible_spec default_patterns default_table_compatible).
  - assert (forallb (λ cp : string * Pattern, Nat.eqb (opens (token cp.1)) 2)
              (flat_patterns default_patterns) = true) as H
      by (vm_compute; reflexivity).
    apply Nat.eqb_eq. exact (forallb_In _ _ cp H Hcp).
Qed.

(** X11: the log accounts for the tokens: the masked text has two opening braces
    more than the input for each entry of the log; the log is empty exactly
    when the text is returned unchanged; and each entry carries a category
    of the table and the source of a pattern of that category. *)
Theorem log_accounts_for_tokens masking logging t pc :
  opens (mask_sensitive_data (init masking logging) t pc).1
  = opens t + 2 * length (mask_sensitive_data (init masking logging) t pc).2
  ∧ ((mask_sensitive_data (init masking logging) t pc).2 = []
     ↔ (mask_sensitive_data (init masking logging) t pc).1 = t)
  ∧ Forall (λ e, ∃ ps p, In (category e, ps) default_patterns ∧ In p ps
                         ∧ pattern e = p_source p)
           (mask_sensitive_data (init masking logging) t pc).2.
Proof.
  destruct (mask_cases (init masking logging) t pc) as [[-> _]|[-> _]].
  { cbn [fst snd length]. split; [lia|]. split; [done|]. constructor. }
  cbn [patterns init].
  destruct (fold_flat_count (flat_patterns default_patterns) (t, [])
              default_self_compatible) as (I1 & I2 & I3).
  cbn [fst snd length] in I1, I2, I3.
  split; [lia|]. split; [split|].
  - intros E. rewrite I3; [done|]. rewrite E. cbn. lia.
  - intros E. rewrite E in I1.
    destruct (fold_left apply_flat _ _).2; [done|cbn in I1; lia].
  - pose proof (fold_flat_entries (flat_patterns default_patterns)
                  (flat_patterns default_patterns) (t, []) (λ _ H, H)) as H.
    eapply Forall_impl; [apply H; constructor|].
    intros e He. cbn beta in He.
    apply in_map_iff in He as ([cat p] & [= Hc Hs] & Hin).
    apply in_flat_map in Hin as ([cat' ps] & Hin & Hp).
    cbn in Hp. apply in_map_iff in Hp as (p' & [= <- <-] & Hp).
    exists ps, p'. cbn in Hc, Hs. by rewrite <- Hc, <- Hs.
Qed.

End MaskingMore.

(** ** Input validator: further properties *)

Module ValidatorMore.
Import Regex Validator RegexProps MaskingMore.

Lemma forallb_incl {A} (P : A → bool) (out s : list A) :
  (∀ x, In x out → In x s) → forallb P s = true → forallb P out = true.
Proof.
  intros Hin Hs. apply forallb_forall. intros x Hx.
  exact (proj1 (forallb_forall P s) Hs x (Hin x Hx)).
Qed.

Lemma in_lstrip x s : In x (lstrip s) → In x s.
Proof.
  induction s as [|a s IH]; [done|]. cbn. destruct (is_space a); [|done].
  intros H. right. by apply IH.
Qed.

Lemma in_strip_ws x s : In x (strip_ws s) → In x s.
Proof.
  unfold strip_ws. intros H.
  apply in_rev in H. apply in_lstrip in H. apply in_rev in H. by apply in_lstrip in H.
Qed.

(** The characters of the text built by [sub]: those of the replacement,
    and the characters of the input at which the pattern does not start. *)
Lemma scan_forallb r repl (c P : ascii → bool) :
  nonempty r = true →
  (∀ pw a s', lens r pw (a :: s') = [] → c a = false) →
  forallb P repl = true →
  ∀ fuel pw s,
    forallb (λ a, c a || P a) s = true →
    forallb P (render repl (scan fuel r false pw s)) = true.
Proof.
  intros Hn Hmiss Hrepl. induction fuel as [|fuel IH]; intros pw s Hs; [done|].
  destruct (run r pw s) as [|x l] eqn:E.
  - assert (lens r pw s = []) as Hl by by apply lens_nil.
    rewrite (scan_step_miss fuel r pw s Hl).
    destruct s as [|a s]; [done|].
    rewrite render_Keep, forallb_app. cbn in Hs |- *.
    apply andb_true_iff in Hs as [Ha Hs].
    rewrite (Hmiss _ _ _ Hl) in Ha. cbn in Ha. rewrite Ha. cbn.
    by apply IH.
  - destruct (scan_step_hit fuel r pw s x l Hn E) as (_ & _ & ->).
    unfold hit_of. rewrite render_Hit, forallb_app, Hrepl. cbn.
    apply IH. apply (forallb_incl _ _ s); [|done].
    intros y Hy. rewrite <- (firstn_skipn x.1 s). apply in_or_app. by right.
Qed.

Lemma plus_miss c pw a s' : lens (plus c) pw (a :: s') = [] → c a = false.
Proof.
  intros Hl. destruct (c a) eqn:E; [|done].
  assert (In 1 (lens (plus c) pw (a :: s'))) as Hin.
  { apply in_lens_Rep. cbn. rewrite E. lia. }
  by rewrite Hl in Hin.
Qed.

Lemma Chr_miss c pw a s' : lens (Chr c) pw (a :: s') = [] → c a = false.
Proof.
  intros Hl. destruct (c a) eqn:E; [|done].
  assert (In 1 (lens (Chr c) pw (a :: s'))) as Hin.
  { apply in_lens_Chr. split; [done|]. by exists a, s'. }
  by rewrite Hl in Hin.
Qed.

Lemma normalize_chars s :
  forallb (λ a, negb (is_control a) && (negb (is_space a) || is_char " " a))
          (_normalize_whitespace s) = true.
Proof.
  unfold _normalize_whitespace, sub, scan_text.
  apply (scan_forallb (Chr is_control) [] is_control); [done|apply Chr_miss|done|].
  apply (forallb_incl _ _ (sub (plus is_space) [" "%char] s));
    [intros x; exact (in_strip_ws x (sub (plus is_space) [" "%char] s))|].
  assert (forallb (λ a, negb (is_space a) || is_char " " a)
            (sub (plus is_space) [" "%char] s) = true) as H.
  { unfold sub, scan_text.
    apply (scan_forallb (plus is_space) [" "%char] is_space); [done|apply plus_miss|done|].
    apply forallb_forall. intros a _. by destruct (is_space a). }
  apply forallb_forall. intros a Ha.
  pose proof (proj1 (forallb_forall _ _) H a Ha) as Hp. cbn beta in Hp.
  rewrite Hp. destruct (is_control a); done.
Qed.

Lemma html_escape_safe s :
  forallb (λ a, negb (is_control a) && (negb (is_space a) || is_char " " a)) s = true →
  forallb safe_char (html_escape s) = true.
Proof.
  induction s as [|a s IH]; [done|]. intros H. cbn [forallb] in H.
  apply andb_true_iff in H as [Ha Hs].
  change (html_escape (a :: s)) with
    ((if is_char "&" a then txt "&amp;"
      else if is_char "<" a then txt "&lt;"
      else if is_char ">" a then txt "&gt;"
      else if is_char "034" a then txt "&quot;"
      else if is_char "'" a then txt "&#x27;"
      else [a]) ++ html_escape s).
  rewrite forallb_app, (IH Hs), andb_true_r.
  destruct (is_char "&" a); [done|].
  destruct (is_char "<" a) eqn:E1; [done|].
  destruct (is_char ">" a) eqn:E2; [done|].
  destruct (is_char "034" a) eqn:E3; [done|].
  destruct (is_char "'" a) eqn:E4; [done|].
  cbn [forallb]. unfold safe_char. rewrite E1, E2, E3, E4. cbn [orb negb andb].
  by rewrite andb_true_r.
Qed.

Lemma sanitize_text s :
  (sanitize s).1.1 = html_escape (_normalize_whitespace (_check_malicious_patterns s).1)
  ∧ (sanitize s).1.2 = (_check_malicious_patterns s).2.
Proof.
  unfold sanitize. destruct (_check_malicious_patterns s) as [x b]. cbn [fst snd].
  unfold _sanitize_html, _encode_dangerous_chars.
  by destruct (findall html_like _).
Qed.

Lemma validate_message_Ok v s md out report :
  validate_message v (CStr s) md = Ok (out, report) →
  out = (sanitize s).1.1
  ∧ original_length report = length s
  ∧ sanitized_length report = length out
  ∧ blocked_patterns report = (sanitize s).1.2.
Proof.
  unfold validate_message.
  destruct (_ <? _)%Z; [done|].
  destruct (sanitize s) as [[x b] w]. cbn [fst snd].
  destruct (metadata_truthy md).
  - destruct (_validate_metadata v md); [|done]. by intros [= <- <-].
  - by intros [= <- <-].
Qed.

(** X12: a message that passes validation is returned over a restricted
    alphabet: it has no angle bracket, no quote, no control character and
    no whitespace other than the space; the report carries the lengths of
    the input and of the output. *)
Theorem sanitized_alphabet v s md out report
    (Hok : validate_message v (CStr s) md = Ok (out, report)) :
  forallb safe_char out = true
  ∧ original_length report = length s
  ∧ sanitized_length report = length out.
Proof.
  destruct (validate_message_Ok v s md out report Hok) as (-> & H1 & H2 & _).
  split; [|done].
  rewrite (proj1 (sanitize_text s)). apply html_escape_safe, normalize_chars.
Qed.

Lemma sanitized_alphabet_witness :
  ∃ out report,
    validate_message (mkValidator 2000 1000)
      (CStr (txt "Is  <b>this</b> 'fine'?")) MNone = Ok (out, report)
    ∧ forallb safe_char out = true
    ∧ original_length report = 23
    ∧ sanitized_length report = length out.
Proof.
  eexists _, _. split; [vm_compute; reflexivity|].
  refine (sanitized_alphabet (mkValidator 2000 1000)
            (txt "Is  <b>this</b> 'fine'?") MNone _ _ _).
  vm_compute. reflexivity.
Defined.

(** X13: which string messages are accepted: those within the length limit whose
    metadata is falsy, of any type, or a dictionary whose text is within
    the size limit.  Nothing but a [ValidationError] is raised for a
    string. *)
Theorem validate_message_accepts v s md :
  ((∃ r, validate_message v (CStr s) md = Ok r)
   ↔ (Z.of_nat (length s) <= max_message_length v)%Z
     ∧ (metadata_truthy md = false
        ∨ ∃ keys n, md = MDict keys n ∧ (Z.of_nat n <= max_metadata_size v)%Z))
  ∧ (∀ e, validate_message v (CStr s) md = Raise e → ∃ f, e = ValidationErrorE f).
Proof.
  unfold validate_message.
  destruct (Z.ltb_spec (max_message_length v) (Z.of_nat (length s))) as [Hlt|Hle].
  { split; [|intros e [= <-]; by eexists].
    split; [by intros [r ?]|]. intros [? _]. lia. }
  destruct (sanitize s) as [[x b] w].
  destruct (metadata_truthy md) eqn:Hm.
  - destruct md as [|keys n|tr]; cbn [_validate_metadata].
    + done.
    + destruct (Z.ltb_spec (max_metadata_size v) (Z.of_nat n)) as [Hlt|Hle'].
      * split; [|intros e [= <-]; by eexists].
        split; [by intros [r ?]|]. intros [_ [?|(k & n' & [= <- <-] & ?)]]; [done|lia].
      * split; [|done]. split; [|by eexists].
        intros _. split; [done|]. right. by exists keys, n.
    + split; [|intros e [= <-]; by eexists].
      split; [by intros [r ?]|]. intros [_ [?|(k & n' & ? & ?)]]; done.
  - split; [|done]. split; [|by eexists]. intros _. split; [done|by left].
Qed.

(** *** The report of blocked patterns *)

Lemma findall_nil_iff r s : findall r s = [] ↔ nomatch r false s = true.
Proof. split; [apply findall_nil_nomatch|apply nomatch_findall]. Qed.

Lemma check_one_cases s acc p :
  (findall (p_re p) s = [] ∧ nomatch (p_re p) false s = true ∧ check_one s acc p = acc)
  ∨ (findall (p_re p) s ≠ [] ∧ nomatch (p_re p) false s = false
     ∧ (check_one s acc p).2
       = acc.2 ++ [mkBlocked (p_source p) (length (findall (p_re p) s))
                             (_classify_pattern (p_source p))]).
Proof.
  unfold check_one. destruct (findall (p_re p) s) as [|o os] eqn:E.
  - left. by apply findall_nil_iff in E.
  - right. split; [done|]. split; [|done].
    destruct (nomatch (p_re p) false s) eqn:Hn; [|done].
    apply findall_nil_iff in Hn. congruence.
Qed.

Lemma check_fold s (l : list Pattern) : ∀ acc,
  map b_pattern (fold_left (check_one s) l acc).2
  = map b_pattern acc.2
    ++ map p_source (List.filter (λ p, negb (nomatch (p_re p) false s)) l)
  ∧ (∀ Q : Blocked → Prop,
       Forall Q acc.2 →
       (∀ p, In p l → findall (p_re p) s ≠ [] →
          Q (mkBlocked (p_source p) (length (findall (p_re p) s))
                       (_classify_pattern (p_source p)))) →
       Forall Q (fold_left (check_one s) l acc).2)
  ∧ (length (fold_left (check_one s) l acc).2 ≤ length acc.2 →
     fold_left (check_one s) l acc = acc)
  ∧ length acc.2 ≤ length (fold_left (check_one s) l acc).2.
Proof.
  induction l as [|p l IH]; intros acc; cbn [fold_left List.filter map].
  - rewrite app_nil_r. split; [done|]. split; [done|]. split; done.
  - destruct (IH (check_one s acc p)) as (I1 & I2 & I3 & I4).
    destruct (check_one_cases s acc p) as [(E & Hn & Hacc)|(E & Hn & Hacc)];
      rewrite Hn; cbn [negb].
    + rewrite Hacc in *. split; [done|]. split; [|split; done].
      intros Q HQ Hall. apply I2; [done|]. intros q Hq. apply Hall. by right.
    + rewrite Hacc in I1, I2, I4. rewrite length_app in I4. cbn [length] in I4.
      split; [|split; [|split]].
      * rewrite I1, map_app. cbn [map b_pattern]. by rewrite <- app_assoc.
      * intros Q HQ Hall. apply I2.
        -- apply Forall_app. split; [done|]. constructor; [|done].
           by apply (Hall p (or_introl eq_refl)).
        -- intros q Hq. apply Hall. by right.
      * intros Hle. exfalso. lia.
      * lia.
Qed.

(** X14: the report of [_check_malicious_patterns] lists, in the order of the
    table, the patterns that match somewhere in the original content, each
    with the number of its matches, which is at least one, and with its
    type; when nothing is reported the content is returned as it is. *)
Theorem blocked_report s :
  map b_pattern (_check_malicious_patterns s).2
  = map p_source (List.filter (λ p, negb (nomatch (p_re p) false s)) malicious_patterns)
  ∧ Forall (λ b, 1 ≤ b_matches b
                 ∧ ∃ p, In p malicious_patterns
                        ∧ b = mkBlocked (p_source p) (length (findall (p_re p) s))
                                        (_classify_pattern (p_source p)))
           (_check_malicious_patterns s).2
  ∧ ((_check_malicious_patterns s).2 = [] → (_check_malicious_patterns s).1 = s).
Proof.
  unfold _check_malicious_patterns.
  destruct (check_fold s malicious_patterns (s, [])) as (I1 & I2 & I3 & _).
  split; [exact I1|]. split.
  - apply I2; [constructor|]. intros p Hp Hne. split.
    + cbn [b_matches]. destruct (findall (p_re p) s); [done|cbn [length]; lia].
    + by exists p.
  - intros E. rewrite I3; [done|]. rewrite E. cbn. lia.
Qed.

End ValidatorMore.

(** ** Secure WebSocket manager: further properties *)

Module SecureWSMore.
Import Regex Validator SecureWS SecureWSProps.
Local Open Scope string_scope.

(** *** What the security pipeline returns *)

Lemma returns_allowed rl t st u ep a ri :
  (RateLimit.check_rate_limit rl t st u ep).2 = RateLimit.Returns a ri →
  RateLimit.is_allowed (RateLimit.check_rate_limit rl t st u ep).2 = true.
Proof.
  intros E. destruct (RateLimitProps.check_result_by_tokens rl t st u ep) as [Ha Hr].
  rewrite E in Hr. cbn in Hr. rewrite Ha.
  by destruct (Qle_bool 1 _).
Qed.

Lemma process_cases m t st uid ty content md :
  let c := RateLimit.check_rate_limit (rate_limiter m) t st (user_key uid)
             "websocket_message" in
  let r := _process_message_security m t st uid ty content md in
  rate_limiter r.1.1 = c.1
  ∧ masker r.1.1 = masker m
  ∧ active_connections r.1.1 = active_connections m
  ∧ (security_events r.1.1 = security_events m
     ∨ ∃ e, security_events r.1.1
            = security_events (_log_security_event (set_limiter m c.1) e))
  ∧ (∀ x, In (Masked x) r.1.2 →
       ∃ report, validate_message (validator m) content md = Ok (x, report))
  ∧ (∀ e, In e r.1.2 → is_masked e = true)
  ∧ (∀ pc pm info, r.2 = Allowed pc pm info →
       ∃ sanitized report,
         RateLimit.is_allowed c.2 = true
         ∧ validate_message (validator m) content md = Ok (sanitized, report)
         ∧ pc = (Masking.mask_sensitive_data (masker m) sanitized true).1
         ∧ pm = md
         ∧ si_is_safe info = (is_safe_for_llm sanitized).1).
Proof.
  intros c r. subst c r. unfold _process_message_security.
  destruct (RateLimit.check_rate_limit _ _ _ _ _) as [rl [a ri|e]] eqn:Ec; cbn [fst snd].
  2:{ cbn. split; [done|]. split; [done|]. split; [done|]. split; [by left|].
      split; [by intros ? []|]. split; [by intros ? []|]. done. }
  pose proof (returns_allowed (rate_limiter m) t st (user_key uid)
                "websocket_message" a ri) as Ha.
  rewrite Ec in Ha. specialize (Ha eq_refl). cbn [snd] in Ha.
  cbn [validator set_limiter].
  destruct (validate_message (validator m) content md) as [[san rep]|e] eqn:Ev.
  2:{ destruct e; cbn; (split; [done|]); (split; [done|]); (split; [done|]);
        (split; [by left|]); (split; [by intros ? []|]); (split; [by intros ? []|]); done. }
  destruct (is_safe_for_llm san) as [sf lw] eqn:Es.
  change (masker (set_limiter m rl)) with (masker m).
  destruct (Masking.mask_sensitive_data (masker m) san true) as [mc ml] eqn:Em.
  destruct (validate_session_data uid ty) as [sr|e] eqn:Esd.
  - cbn [fst snd]. split; [done|]. split; [reflexivity|]. split; [reflexivity|].
    split; [right; by eexists|].
    split; [intros x [[= <-]|[]]; by eexists|].
    split; [intros x [<-|[]]; done|].
    intros pc pm info [= <- <- <-]. exists san, rep. cbn [si_is_safe fst snd].
    rewrite Em, Es. split; [exact Ha|]. split; [done|]. split; [done|]. split; done.
  - destruct e; cbn; (split; [done|]); (split; [done|]); (split; [done|]);
      (split; [by left|]);
      (split; [intros x [[= <-]|[]]; by eexists|]);
      (split; [intros x [<-|[]]; done|]); done.
Qed.


(** *** The events of the handlers *)

Lemma send_events (P : Event → Prop) m ws msg :
  (∀ msg', P (Sent ws msg')) → Forall P (send_secure_message m ws msg).
Proof.
  intros HP. unfold send_secure_message.
  destruct (validate_message _ _ _) as [[san rep]|e]; [|constructor].
  constructor; [apply HP|constructor].
Qed.

Ltac events :=
  repeat first
    [ apply Forall_nil_2
    | apply Forall_cons_2; [cbn; auto|]
    | apply Forall_app_2
    | apply send_events; intros; cbn; auto ].

Lemma user_message_events w m ws sid content md info :
  Forall (λ e, match e with
               | Generated c => c = content ∧ si_is_safe info = true
               | Saved sid' role ct => sid' = sid ∧ (role = "user" → ct = CStr content)
               | Sent ws' _ => ws' = ws
               | _ => False
               end)
    (_handle_secure_user_message w m ws sid content md info).
Proof.
  unfold _handle_secure_user_message, user_message_body.
  destruct (negb (is_mapping md)); [events|].
  destruct (db_save w sid "user" (CStr content)); [|events].
  destruct (db_context w sid); [|events].
  destruct (si_is_safe info) eqn:Es; [|events].
  destruct (llm_generate w content _) as [resp|]; [|events].
  destruct (db_save w sid "assistant" (l_content resp)); [|events; split; [done|discriminate]].
  destruct (l_evaluation resp); events; split; (done || discriminate).
Qed.

Lemma broadcast_frame w m sid msg :
  let r := broadcast_secure_message w m sid msg in
  rate_limiter r.1.1 = rate_limiter m
  ∧ security_events r.1.1 = security_events m
  ∧ masker r.1.1 = masker m
  ∧ Forall (λ e, ∃ ws' msg', e = Sent ws' msg') r.1.2.
Proof.
  unfold broadcast_secure_message.
  destruct (active_connections m !! sid) as [conns|]; [|cbn; by repeat split].
  destruct (validate_message _ _ _) as [[san rep]|e]; [|cbn; by repeat split].
  cbn. split; [done|]. split; [done|]. split; [done|].
  apply Forall_forall. intros e He. apply list_elem_of_In, in_map_iff in He as (x & <- & _).
  by eexists _, _.
Qed.

Lemma assistant_message_frame w m sid content md :
  let r := _handle_secure_assistant_message w m sid content md in
  rate_limiter r.1.1 = rate_limiter m
  ∧ security_events r.1.1 = security_events m
  ∧ masker r.1.1 = masker m
  ∧ Forall (λ e, match e with
                 | Saved sid' role ct => sid' = sid ∧ role = "assistant"
                 | Sent _ _ => True
                 | _ => False
                 end) r.1.2.
Proof.
  unfold _handle_secure_assistant_message.
  destruct (db_save w sid "assistant" (CStr content)) as [mid|].
  - pose proof (broadcast_frame w m sid
                  (mkOut "assistant_message" (CStr content) None None (Some mid) None None))
      as (H1 & H2 & H3 & H4).
    destruct (broadcast_secure_message _ _ _ _) as [[m' evs] r]. cbn [fst snd] in *.
    split; [done|]. split; [done|]. split; [done|].
    constructor; [done|]. eapply Forall_impl; [exact H4|].
    by intros e (ws' & msg' & ->).
  - cbn. split; [done|]. split; [done|]. split; [done|]. by repeat constructor.
Qed.

(** The manager after [handle_secure_message] on a dictionary: the rate
    limiter and the audit log are those the security pipeline left. *)
Lemma handle_frame w m t st ws sid uid ty content md :
  rate_limiter (handle_secure_message w m t st ws sid uid (Dict ty content md)).1
  = rate_limiter (_process_message_security m t st uid ty content md).1.1
  ∧ security_events (handle_secure_message w m t st ws sid uid (Dict ty content md)).1
    = security_events (_process_message_security m t st uid ty content md).1.1.
Proof.
  unfold handle_secure_message.
  destruct (_process_message_security m t st uid ty content md) as [[m1 pevs] [pc pm info|? ? ?]];
    cbn [fst snd]; [|done].
  destruct (is_type ty "user_message"); [done|].
  destruct (is_type ty "assistant_message"); [|done].
  pose proof (assistant_message_frame w m1 sid pc pm) as (H1 & H2 & _).
  destruct (_handle_secure_assistant_message w m1 sid pc pm) as [[m2 evs'] [[]|e]];
    cbn [fst snd] in *; done.
Qed.

(** *** What is stored and what reaches the model *)

(** X15: whatever a dictionary message leads to: the text given to the model and
    the text stored for the user are the masked form of the validated
    content, and the model is called only for a [user_message] that passed
    the prompt-injection check; what is handed to the masker is the
    validated content; a message of another type than [user_message] and
    [assistant_message] is neither stored nor given to the model. *)
Theorem stored_and_forwarded_content w m t st ws sid uid ty content md :
  (∀ c, In (Generated c)
          (handle_secure_message w m t st ws sid uid (Dict ty content md)).2 →
     is_type ty "user_message" = true
     ∧ ∃ sanitized report,
         validate_message (validator m) content md = Ok (sanitized, report)
         ∧ c = (Masking.mask_sensitive_data (masker m) sanitized true).1
         ∧ (is_safe_for_llm sanitized).1 = true)
  ∧ (∀ sid' c, In (Saved sid' "user" c)
                 (handle_secure_message w m t st ws sid uid (Dict ty content md)).2 →
     sid' = sid ∧ is_type ty "user_message" = true
     ∧ ∃ sanitized report,
         validate_message (validator m) content md = Ok (sanitized, report)
         ∧ c = CStr (Masking.mask_sensitive_data (masker m) sanitized true).1)
  ∧ (∀ x, In (Masked x)
            (handle_secure_message w m t st ws sid uid (Dict ty content md)).2 →
     ∃ report, validate_message (validator m) content md = Ok (x, report))
  ∧ (is_type ty "user_message" = false → is_type ty "assistant_message" = false →
     existsb is_saved
       (handle_secure_message w m t st ws sid uid (Dict ty content md)).2 = false
     ∧ existsb is_generated
         (handle_secure_message w m t st ws sid uid (Dict ty content md)).2 = false).
Proof.
  assert (Forall (λ e, match e with
            | Generated c =>
                is_type ty "user_message" = true
                ∧ ∃ sanitized report,
                    validate_message (validator m) content md = Ok (sanitized, report)
                    ∧ c = (Masking.mask_sensitive_data (masker m) sanitized true).1
                    ∧ (is_safe_for_llm sanitized).1 = true
            | Saved sid' role ct =>
                sid' = sid
                ∧ (is_type ty "user_message" = true ∨ is_type ty "assistant_message" = true)
                ∧ (role = "user" →
                   is_type ty "user_message" = true
                   ∧ ∃ sanitized report,
                       validate_message (validator m) content md = Ok (sanitized, report)
                       ∧ ct = CStr (Masking.mask_sensitive_data (masker m) sanitized true).1)
            | Masked x => ∃ report, validate_message (validator m) content md = Ok (x, report)
            | _ => True
            end)
            (handle_secure_message w m t st ws sid uid (Dict ty content md)).2) as HQ.
  { pose proof (process_cases m t st uid ty content md) as (_ & _ & _ & _ & HM & HMo & HA).
    cbn zeta in HM, HMo, HA.
    assert (Forall (λ e, match e with
              | Masked x => ∃ report, validate_message (validator m) content md = Ok (x, report)
              | _ => False
              end) (_process_message_security m t st uid ty content md).1.2) as Hp.
    { apply Forall_forall. intros e He. apply list_elem_of_In in He.
      pose proof (HMo e He) as Hm. destruct e; cbn in Hm; try discriminate Hm. by apply HM. }
    unfold handle_secure_message.
    destruct (_process_message_security m t st uid ty content md)
      as [[m1 pevs] [pc pm info|? ? ?]]; cbn [fst snd] in *.
    2:{ apply Forall_app_2.
        - eapply Forall_impl; [exact Hp|]. by intros [].
        - by apply send_events. }
    destruct (HA pc pm info eq_refl) as (san & rep & _ & Hv & -> & -> & Hs).
    destruct (is_type ty "user_message") eqn:Eu.
    { apply Forall_app_2.
      - eapply Forall_impl; [exact Hp|]. by intros [].
      - eapply Forall_impl; [apply user_message_events|].
        intros [] He; try done.
        + destruct He as [-> Hrole]. split; [done|]. split; [by left|].
          intros Hr. split; [done|]. exists san, rep. by rewrite (Hrole Hr).
        + destruct He as [-> Hsafe]. split; [done|]. exists san, rep.
          split; [done|]. split; [done|]. by rewrite <- Hs. }
    destruct (is_type ty "assistant_message") eqn:Ea.
    { pose proof (assistant_message_frame w m1 sid
                    (Masking.mask_sensitive_data (masker m) san true).1 md)
        as (_ & _ & _ & H4).
      destruct (_handle_secure_assistant_message _ _ _ _ _) as [[m2 evs'] [[]|e]];
        cbn [fst snd] in *.
      - apply Forall_app_2.
        + eapply Forall_impl; [exact Hp|]. by intros [].
        + eapply Forall_impl; [exact H4|]. intros [] He; try done.
          destruct He as [-> ->]. split; [done|]. split; [by right|]. discriminate.
      - apply Forall_app_2; [apply Forall_app_2|].
        + eapply Forall_impl; [exact Hp|]. by intros [].
        + eapply Forall_impl; [exact H4|]. intros [] He; try done.
          destruct He as [-> ->]. split; [done|]. split; [by right|]. discriminate.
        + by apply send_events. }
    apply Forall_app_2.
    - eapply Forall_impl; [exact Hp|]. by intros [].
    - by apply send_events. }
  rewrite Forall_forall in HQ.
  split; [|split; [|split]].
  - intros c Hc. apply list_elem_of_In in Hc. exact (HQ _ Hc).
  - intros sid' c Hc. apply list_elem_of_In in Hc.
    destruct (HQ _ Hc) as (-> & _ & H). destruct (H eq_refl) as [Hu Hx]. done.
  - intros x Hx. apply list_elem_of_In in Hx. exact (HQ _ Hx).
  - intros Hu Ha. split.
    + destruct (existsb is_saved _) eqn:E; [|done].
      apply existsb_exists in E as (e & Hin & He).
      destruct e; cbn in He; try discriminate He.
      apply list_elem_of_In in Hin. destruct (HQ _ Hin) as (_ & [?|?] & _); congruence.
    + destruct (existsb is_generated _) eqn:E; [|done].
      apply existsb_exists in E as (e & Hin & He).
      destruct e; cbn in He; try discriminate He.
      apply list_elem_of_In in Hin. destruct (HQ _ Hin) as (? & _); congruence.
Qed.


(** *** The audit log and the rate limiter of the manager *)

Lemma log_event_spec m e :
  (List.length (security_events m) < 1000 →
     security_events (_log_security_event m e) = (security_events m ++ [e])%list)%nat
  ∧ (List.length (security_events m) = 1000 →
     security_events (_log_security_event m e)
     = (skipn 501 (security_events m) ++ [e])%list
     ∧ List.length (security_events (_log_security_event m e)) = 500)%nat
  ∧ (List.length (security_events m) ≤ 1000 →
     List.length (security_events (_log_security_event m e)) ≤ 1000)%nat.
Proof.
  unfold _log_security_event. cbn [security_events].
  rewrite length_app. cbn [List.length].
  destruct (Nat.ltb_spec 1000 (List.length (security_events m) + 1)) as [Hlt|Hle].
  - split; [lia|]. split.
    + intros Hl. rewrite Hl. change (1000 + 1 - 500)%nat with 501%nat.
      rewrite skipn_app, Hl. change (501 - 1000)%nat with 0%nat. cbn [skipn].
      split; [done|]. rewrite length_app, length_skipn, Hl. cbn. lia.
    + intros Hl. rewrite length_skipn, length_app. cbn [List.length]. lia.
  - split; [done|]. split; [lia|]. intros _. rewrite length_app. cbn [List.length]. lia.
Qed.

Lemma connect_frame w m t st ws sid uid :
  rate_limiter (connect w m t st ws sid uid).1
  = (RateLimit.check_rate_limit (rate_limiter m) t st (user_key uid)
       "websocket_message").1
  ∧ (security_events (connect w m t st ws sid uid).1 = security_events m
     ∨ ∃ m0 e, security_events m0 = security_events m
               ∧ security_events (connect w m t st ws sid uid).1
                 = security_events (_log_security_event m0 e)).
Proof.
  unfold connect.
  destruct (RateLimit.check_rate_limit _ _ _ _ _) as [rl [a ri|e]]; cbn [fst snd].
  - destruct (ws_accept w ws); cbn [fst snd].
    + split; [done|]. right. by eexists _, _.
    + split; [done|]. by left.
  - split; [done|]. by left.
Qed.

(** X16: the audit log never holds more than 1000 events: each of the three
    entry points of the manager keeps the bound.  An event is appended
    while there is room, and the 1001st leaves the last 500. *)
Theorem audit_log_bounded w m t st ws sid uid data
    (Hbound : (List.length (security_events m) ≤ 1000)%nat) :
  (List.length (security_events (handle_secure_message w m t st ws sid uid data).1)
   ≤ 1000)%nat
  ∧ (List.length (security_events (connect w m t st ws sid uid).1) ≤ 1000)%nat
  ∧ (List.length (security_events (disconnect m ws sid uid)) ≤ 1000)%nat
  ∧ (∀ e, (List.length (security_events m) < 1000)%nat →
       security_events (_log_security_event m e) = (security_events m ++ [e])%list)
  ∧ (∀ e, List.length (security_events m) = 1000%nat →
       security_events (_log_security_event m e)
       = (skipn 501 (security_events m) ++ [e])%list).
Proof.
  split; [|split; [|split; [|split]]].
  - destruct data as [|ty content md]; [done|].
    rewrite (proj2 (handle_frame w m t st ws sid uid ty content md)).
    destruct (process_cases m t st uid ty content md) as (_ & _ & _ & [->| [e ->]] & _);
      [done|].
    by apply log_event_spec.
  - destruct (connect_frame w m t st ws sid uid) as [_ [->|(m0 & e & H0 & ->)]]; [done|].
    apply log_event_spec. by rewrite H0.
  - unfold disconnect. by apply log_event_spec.
  - intros e. apply log_event_spec.
  - intros e Hl. by apply log_event_spec.
Qed.

Lemma audit_log_bounded_witness :
  (List.length (security_events
     (disconnect (default_manager 0 20) 7%nat 1%nat (txt "alice"))) ≤ 1000)%nat.
Proof.
  refine (proj1 (proj2 (proj2
            (audit_log_bounded
               (mkWorld (λ _, true) (λ _ _, true) (λ _ _ _, Some 1%nat) (λ _, Some [])
                        (λ _ _, None))
               (default_manager 0 20) 0 0 7%nat 1%nat (txt "alice") NotADict _)))).
  cbn. lia.
Defined.

(** X17: every dictionary message costs one check of the rate limiter under the
    endpoint [websocket_message], whether it is then processed, rejected or
    of an unknown type, and so does every connection attempt; a message
    that is no dictionary and a disconnection cost none. *)
Theorem message_costs_one_check w m t st ws sid uid ty content md :
  rate_limiter (handle_secure_message w m t st ws sid uid (Dict ty content md)).1
  = (RateLimit.check_rate_limit (rate_limiter m) t st (user_key uid)
       "websocket_message").1
  ∧ rate_limiter (connect w m t st ws sid uid).1
    = (RateLimit.check_rate_limit (rate_limiter m) t st (user_key uid)
         "websocket_message").1
  ∧ rate_limiter (handle_secure_message w m t st ws sid uid NotADict).1 = rate_limiter m
  ∧ rate_limiter (disconnect m ws sid uid) = rate_limiter m.
Proof.
  split; [|split; [|split]].
  - rewrite (proj1 (handle_frame w m t st ws sid uid ty content md)).
    apply process_cases.
  - apply connect_frame.
  - done.
  - done.
Qed.

(** *** The registry of connections *)

Lemma remove_first_last ws l : ¬ In ws l → remove_first ws (l ++ [ws]) = l.
Proof.
  induction l as [|y l IH]; intros Hn; cbn.
  - by rewrite Nat.eqb_refl.
  - destruct (Nat.eqb_spec ws y) as [->|Hne]; [exfalso; apply Hn; by left|].
    rewrite IH; [done|]. intros H. apply Hn. by right.
Qed.


(** X19: a connection that is accepted and then disconnected leaves the registry
    as it was, when the connection was not registered before and the
    session had no empty list of connections. *)
Theorem connect_then_disconnect w m t st ws sid uid uid'
    (Hallowed : RateLimit.is_allowed
       (RateLimit.check_rate_limit (rate_limiter m) t st (user_key uid)
          "websocket_message").2 = true)
    (Haccept : ws_accept w ws = true)
    (Hnew : ¬ In ws (default [] (active_connections m !! sid)))
    (Hnonempty : active_connections m !! sid ≠ Some []) :
  active_connections (disconnect (connect w m t st ws sid uid).1 ws sid uid')
  = active_connections m.
Proof.
  assert (active_connections (connect w m t st ws sid uid).1
          = <[sid := (default [] (active_connections m !! sid) ++ [ws])%list]>
              (active_connections m)) as Hc.
  { unfold connect in *.
    destruct (RateLimit.check_rate_limit _ _ _ _ _) as [rl [a ri|e]]; cbn [fst snd] in *;
      [|done].
    by rewrite Haccept. }
  unfold disconnect. cbn [active_connections _log_security_event set_connections].
  rewrite Hc, lookup_insert_eq, remove_first_last by done.
  destruct (active_connections m !! sid) as [[|y l]|] eqn:E; cbn [default from_option id].
  - done.
  - by rewrite insert_insert_eq, insert_id.
  - by rewrite delete_insert_id.
Qed.

Lemma connect_then_disconnect_witness :
  active_connections
    (disconnect
       (connect (mkWorld (λ _, true) (λ _ _, true) (λ _ _ _, Some 1%nat) (λ _, Some [])
                         (λ _ _, None))
                (default_manager 0 20) 0 0 7%nat 1%nat (txt "alice")).1
       7%nat 1%nat (txt "alice"))
  = active_connections (default_manager 0 20).
Proof.
  refine (connect_then_disconnect
            (mkWorld (λ _, true) (λ _ _, true) (λ _ _ _, Some 1%nat) (λ _, Some [])
                     (λ _ _, None))
            (default_manager 0 20) 0 0 7%nat 1%nat (txt "alice") (txt "alice") _ _ _ _).
  - vm_compute. reflexivity.
  - reflexivity.
  - vm_compute. tauto.
  - vm_compute. discriminate.
Defined.

Lemma prune_failed (f : WebSocket → bool) l : ∀ p,
  forallb f p = true →
  fold_left (λ l0 ws, remove_first ws l0) (List.filter (λ ws, negb (f ws)) l) (p ++ l)%list
  = (p ++ List.filter f l)%list.
Proof.
  induction l as [|a l IH]; intros p Hp; cbn [List.filter].
  - done.
  - destruct (f a) eqn:Ea; cbn [negb].
    + change (p ++ a :: l)%list with (p ++ [a] ++ l)%list.
      change (p ++ a :: List.filter f l)%list with (p ++ [a] ++ List.filter f l)%list.
      rewrite !app_assoc. apply IH. rewrite forallb_app, Hp. cbn. by rewrite Ea.
    + cbn [fold_left].
      assert (remove_first a (p ++ a :: l) = (p ++ l)%list) as ->.
      { clear IH. induction p as [|y p IHp]; cbn.
        - by rewrite Nat.eqb_refl.
        - cbn in Hp. apply andb_true_iff in Hp as [Hy Hp].
          destruct (Nat.eqb_spec a y) as [->|Hne]; [congruence|].
          by rewrite IHp. }
      by apply IH.
Qed.

(** X20: a broadcast sends the sanitized message once to every connection of the
    session, in order, and then drops exactly the connections whose send
    failed; the other sessions are left alone.  Without a registered
    session nothing happens, and a message that fails validation is sent
    to nobody. *)
Theorem broadcast_prunes w m sid msg :
  (active_connections m !! sid = None →
     broadcast_secure_message w m sid msg = (m, [], Ok tt))
  ∧ (∀ conns e, active_connections m !! sid = Some conns →
       validate_message (validator m) (o_content msg) MNone = Raise e →
       broadcast_secure_message w m sid msg = (m, [], Raise e))
  ∧ (∀ conns san report, active_connections m !! sid = Some conns →
       validate_message (validator m) (o_content msg) MNone = Ok (san, report) →
       broadcast_secure_message w m sid msg
       = (set_connections m
            (<[sid := List.filter
                        (λ ws, ws_send w ws
                           (mkOut (o_type msg) (CStr san) (o_error_code msg)
                                  (o_error_details msg) (o_message_id msg)
                                  (o_warnings msg) (o_payload msg))) conns]>
               (active_connections m)),
          map (λ ws, Sent ws (mkOut (o_type msg) (CStr san) (o_error_code msg)
                                    (o_error_details msg) (o_message_id msg)
                                    (o_warnings msg) (o_payload msg))) conns,
          Ok tt)).
Proof.
  unfold broadcast_secure_message.
  split; [by intros ->|]. split.
  - intros conns e -> ->. done.
  - intros conns san report -> ->.
    by rewrite (prune_failed _ conns [] eq_refl).
Qed.

End SecureWSMore.
